(** * OpenAI <-> Gemini format converter: a shallow embedding

    Source: [packages/core/src/utils/openaiFormatConverter.ts], class
    [OpenAIFormatConverter].

    Conventions of the embedding:
    - a JavaScript string is a [string] (a sequence of bytes);
    - [T | null], an optional field [f?: T] and a field holding
      [undefined] are all [option T]: the code never tells an absent key
      from a key holding [undefined];
    - an array is a [list]; [push] appends at the end;
    - [Set<string>] is [gset string];
    - a function that may throw returns [Result];
    - [Date.now()] reads a clock that is threaded through the code. *)

From Stdlib Require Import ZArith QArith.QArith_base Ascii String.
From stdpp Require Import base decidable option list strings gmap pretty.

Local Open Scope string_scope.
Local Open Scope Z_scope.
Local Open Scope nat_scope.
Local Open Scope list_scope.

(** ** JavaScript primitives used by the converter *)

(** Truthiness of a string: only the empty string is falsy. *)
Definition truthy (s : string) : bool := negb (String.eqb s "").

(** Truthiness of [string | null | undefined]. *)
Definition truthy_opt (o : option string) : bool :=
  match o with
  | Some s => truthy s
  | None => false
  end.

(** [s || null] for a string [s]. *)
Definition orNull (s : string) : option string :=
  if truthy s then Some s else None.

(** The line feed, written ['\n'] in the source. *)
Definition LF : string := String (Ascii.ascii_of_nat 10) "".

(** [Array.prototype.join] on an array of strings. *)
Fixpoint join (sep : string) (l : list string) : string :=
  match l with
  | [] => ""
  | [x] => x
  | x :: rest => x +:+ sep +:+ join sep rest
  end.

(** [.filter(Boolean)] on an array of [string | null]: drops [null] and
    the empty string. *)
Definition filterBoolean (l : list (option string)) : list string :=
  omap (fun c => match c with
                 | Some s => if truthy s then Some s else None
                 | None => None
                 end) l.

(** ** Flat (OpenAI) side of the data model *)

Inductive Role := system | user | assistant | tool.

(** [OpenAIToolCall.function]. *)
Record OpenAIFunction := {
  fn_name : string;
  fn_arguments : string
}.

(** [OpenAIToolCall]; its [type] field only admits ['function']. *)
Record OpenAIToolCall := {
  tc_id : string;
  tc_function : OpenAIFunction
}.

Record OpenAIMessage := {
  role : Role;
  content : option string;
  tool_calls : option (list OpenAIToolCall);
  tool_call_id : option string
}.

#[export] Instance Role_eq_dec : EqDecision Role.
Proof. solve_decision. Defined.
#[export] Instance OpenAIFunction_eq_dec : EqDecision OpenAIFunction.
Proof. solve_decision. Defined.
#[export] Instance OpenAIToolCall_eq_dec : EqDecision OpenAIToolCall.
Proof. solve_decision. Defined.
#[export] Instance OpenAIMessage_eq_dec : EqDecision OpenAIMessage.
Proof. solve_decision. Defined.

(** [{...message, tool_calls: v}] *)
Definition with_tool_calls (message : OpenAIMessage)
    (v : option (list OpenAIToolCall)) : OpenAIMessage :=
  {| role := role message;
     content := content message;
     tool_calls := v;
     tool_call_id := tool_call_id message |}.

(** ** History sanitizer: [cleanOrphanedToolCalls] *)

(** First pass: the ids of all tool calls carried by assistant messages. *)
Definition collectToolCallIds (messages : list OpenAIMessage) : gset string :=
  foldl (fun (toolCallIds : gset string) message =>
           match role message, tool_calls message with
           | assistant, Some tcs =>
               foldl (fun (ids : gset string) toolCall => ids ∪ {[ tc_id toolCall ]})
                     toolCallIds tcs
           | _, _ => toolCallIds
           end) ∅ messages.

(** [messages.some(m => m.role === 'tool' && m.tool_call_id === toolCall.id)] *)
Definition hasToolResponse (messages : list OpenAIMessage)
    (toolCall : OpenAIToolCall) : bool :=
  existsb (fun m => bool_decide (role m = tool)
                    && bool_decide (tool_call_id m = Some (tc_id toolCall)))
          messages.

(** The body of the second loop. *)
Definition cleanStep (messages : list OpenAIMessage) (toolCallIds : gset string)
    (cleanedMessages : list OpenAIMessage) (message : OpenAIMessage)
    : list OpenAIMessage :=
  match role message with
  | tool =>
      if truthy_opt (tool_call_id message)
         && bool_decide (default "" (tool_call_id message) ∈ toolCallIds)
      then cleanedMessages ++ [message]
      else cleanedMessages
  | assistant =>
      match tool_calls message with
      | Some tcs =>
          let validToolCalls := List.filter (hasToolResponse messages) tcs in
          cleanedMessages ++
            [with_tool_calls message
               (if bool_decide (0 < length validToolCalls)
                then Some validToolCalls else None)]
      | None => cleanedMessages ++ [message]
      end
  | _ => cleanedMessages ++ [message]
  end.

Definition cleanOrphanedToolCalls (messages : list OpenAIMessage)
    : list OpenAIMessage :=
  let toolCallIds := collectToolCallIds messages in
  foldl (cleanStep messages toolCallIds) [] messages.

(** ** History sanitizer: [mergeConsecutiveAssistantMessages] *)

(** The object built when [message] is merged into the pending
    assistant message [cur]. *)
Definition mergeAssistant (cur message : OpenAIMessage) : OpenAIMessage :=
  let mergedContent :=
    join LF (filterBoolean [content cur; content message]) in
  {| role := assistant;
     content := orNull mergedContent;
     tool_calls := Some (default [] (tool_calls cur)
                         ++ default [] (tool_calls message));
     tool_call_id := tool_call_id cur |}.

(** The body of the loop, on the pair
    [(mergedMessages, currentAssistantMessage)]. *)
Definition mergeStep (st : list OpenAIMessage * option OpenAIMessage)
    (message : OpenAIMessage) : list OpenAIMessage * option OpenAIMessage :=
  let '(mergedMessages, currentAssistantMessage) := st in
  match role message with
  | assistant =>
      match currentAssistantMessage with
      | Some cur => (mergedMessages, Some (mergeAssistant cur message))
      | None => (mergedMessages, Some message)
      end
  | _ =>
      match currentAssistantMessage with
      | Some cur => (mergedMessages ++ [cur] ++ [message], None)
      | None => (mergedMessages ++ [message], None)
      end
  end.

(** The final flush of the pending assistant message. *)
Definition mergeFlush (st : list OpenAIMessage * option OpenAIMessage)
    : list OpenAIMessage :=
  match st.2 with
  | Some cur => st.1 ++ [cur]
  | None => st.1
  end.

Definition mergeConsecutiveAssistantMessages (messages : list OpenAIMessage)
    : list OpenAIMessage :=
  mergeFlush (foldl mergeStep ([], None) messages).


(** ** JSON values, [JSON.parse] and [JSON.stringify]

    The two platform functions are modelled on the JSON grammar of
    ECMA-404.  A number keeps the literal it was written with (its value
    as a double is not modelled), an object keeps its members in textual
    order, and a [\uXXXX] escape stands for the bytes of the UTF-8
    encoding of that code unit. *)

#[warnings="-register-all"]
Inductive json :=
| JNull
| JBool (b : bool)
| JNumber (literal : string)
| JString (s : string)
| JArray (items : list json)
| JObject (members : list (string * json)).

Definition code (c : ascii) : nat := Ascii.nat_of_ascii c.
Definition chr (n : nat) : string := String (Ascii.ascii_of_nat n) "".

Definition is_ws (c : ascii) : bool :=
  (code c =? 9) || (code c =? 10) || (code c =? 13) || (code c =? 32).

Definition is_digit (c : ascii) : bool := (48 <=? code c) && (code c <=? 57).

Fixpoint skip_ws (s : string) : string :=
  match s with
  | String c r => if is_ws c then skip_ws r else s
  | EmptyString => s
  end.

(** The longest prefix of digits, and what follows it. *)
Fixpoint span_digits (s : string) : string * string :=
  match s with
  | String c r =>
      if is_digit c
      then let '(ds, r') := span_digits r in (String c ds, r')
      else ("", s)
  | EmptyString => ("", s)
  end.

(** [digits+] *)
Definition lex_digits1 (s : string) : option (string * string) :=
  let '(ds, r) := span_digits s in
  if truthy ds then Some (ds, r) else None.

(** [int]: a single [0], or a non-zero digit followed by digits. *)
Definition lex_int (s : string) : option (string * string) :=
  match s with
  | String c r =>
      if code c =? 48 then Some ("0", r)
      else if is_digit c
           then let '(ds, r') := span_digits r in Some (String c ds, r')
           else None
  | EmptyString => None
  end.

(** [frac]: optional [. digits+] *)
Definition lex_frac (s : string) : option (string * string) :=
  match s with
  | String "."%char r =>
      match lex_digits1 r with
      | Some (ds, r') => Some ("." +:+ ds, r')
      | None => None
      end
  | _ => Some ("", s)
  end.

(** [exp]: optional [e|E], optional sign, [digits+] *)
Definition lex_exp (s : string) : option (string * string) :=
  match s with
  | String e r =>
      if (code e =? 101) || (code e =? 69) then
        let '(sign, r1) :=
          match r with
          | String sg r0 =>
              if (code sg =? 43) || (code sg =? 45)
              then (String sg "", r0) else ("", r)
          | EmptyString => ("", r)
          end in
        match lex_digits1 r1 with
        | Some (ds, r2) => Some (String e sign +:+ ds, r2)
        | None => None
        end
      else Some ("", s)
  | EmptyString => Some ("", s)
  end.

(** [number]: optional [-], [int], [frac], [exp]. *)
Definition lex_number (s : string) : option (string * string) :=
  let '(sign, s1) :=
    match s with
    | String "-"%char r => ("-", r)
    | _ => ("", s)
    end in
  match lex_int s1 with
  | Some (i, s2) =>
      match lex_frac s2 with
      | Some (f, s3) =>
          match lex_exp s3 with
          | Some (e, s4) => Some (sign +:+ i +:+ f +:+ e, s4)
          | None => None
          end
      | None => None
      end
  | None => None
  end.

(** Value of one hexadecimal digit. *)
Definition hex_val (c : ascii) : option nat :=
  let n := code c in
  if (48 <=? n) && (n <=? 57) then Some (n - 48)
  else if (65 <=? n) && (n <=? 70) then Some (n - 55)
  else if (97 <=? n) && (n <=? 102) then Some (n - 87)
  else None.

(** The bytes that encode code unit [u] (below [65536]) in UTF-8. *)
Definition utf8 (u : nat) : string :=
  if u <? 128 then chr u
  else if u <? 2048 then chr (192 + u / 64) +:+ chr (128 + u mod 64)
  else chr (224 + u / 4096) +:+ chr (128 + (u / 64) mod 64)
       +:+ chr (128 + u mod 64).

(** What a one-letter escape stands for. *)
Definition unescape (e : ascii) : option string :=
  let n := code e in
  if n =? 34 then Some (chr 34)        (* quotation mark *)
  else if n =? 92 then Some (chr 92)   (* backslash *)
  else if n =? 47 then Some (chr 47)   (* slash *)
  else if n =? 98 then Some (chr 8)    (* backspace *)
  else if n =? 102 then Some (chr 12)  (* form feed *)
  else if n =? 110 then Some (chr 10)  (* line feed *)
  else if n =? 114 then Some (chr 13)  (* carriage return *)
  else if n =? 116 then Some (chr 9)   (* tab *)
  else None.

(** The characters of a string literal after its opening quote, up to
    and including the closing quote. *)
Fixpoint lex_string (s : string) : option (string * string) :=
  match s with
  | EmptyString => None
  | String c r =>
      if code c =? 34 then Some ("", r)
      else if code c =? 92 then
        match r with
        | String e r1 =>
            if code e =? 117 then
              match r1 with
              | String h1 (String h2 (String h3 (String h4 r2))) =>
                  match hex_val h1, hex_val h2, hex_val h3, hex_val h4 with
                  | Some a, Some b, Some c', Some d =>
                      match lex_string r2 with
                      | Some (body, rest) =>
                          Some (utf8 (4096 * a + 256 * b + 16 * c' + d) +:+ body,
                                rest)
                      | None => None
                      end
                  | _, _, _, _ => None
                  end
              | _ => None
              end
            else
              match unescape e with
              | Some u =>
                  match lex_string r1 with
                  | Some (body, rest) => Some (u +:+ body, rest)
                  | None => None
                  end
              | None => None
              end
        | EmptyString => None
        end
      else if code c <? 32 then None
      else
        match lex_string r with
        | Some (body, rest) => Some (String c body, rest)
        | None => None
        end
  end.

(** [s] starts with [lit]: what follows it. *)
Fixpoint lex_literal (lit s : string) : option string :=
  match lit with
  | EmptyString => Some s
  | String c lit' =>
      match s with
      | String d r => if Ascii.eqb c d then lex_literal lit' r else None
      | EmptyString => None
      end
  end.

(** Outcome of the recursive-descent parser. *)
Inductive Parsed :=
| POk (v : json) (rest : string)
| PSyntaxError
| PFuel.

(** What the parser is reading: one value, the elements of an array
    after its opening bracket, or the members of an object after its
    opening brace. *)
Inductive Mode :=
| MValue
| MElements (acc : list json)
| MMembers (acc : list (string * json)).

Fixpoint parse (fuel : nat) (m : Mode) (s : string) : Parsed :=
  match fuel with
  | 0 => PFuel
  | S fuel =>
      match m with
      | MValue =>
          match skip_ws s with
          | EmptyString => PSyntaxError
          | String c r =>
              if code c =? 91 then            (* opening bracket *)
                match skip_ws r with
                | String c' r' =>
                    if code c' =? 93 then POk (JArray []) r'
                    else parse fuel (MElements []) r
                | EmptyString => PSyntaxError
                end
              else if code c =? 123 then      (* opening brace *)
                match skip_ws r with
                | String c' r' =>
                    if code c' =? 125 then POk (JObject []) r'
                    else parse fuel (MMembers []) r
                | EmptyString => PSyntaxError
                end
              else if code c =? 34 then       (* string *)
                match lex_string r with
                | Some (str, rest) => POk (JString str) rest
                | None => PSyntaxError
                end
              else if code c =? 110 then
                match lex_literal "ull" r with
                | Some rest => POk JNull rest
                | None => PSyntaxError
                end
              else if code c =? 116 then
                match lex_literal "rue" r with
                | Some rest => POk (JBool true) rest
                | None => PSyntaxError
                end
              else if code c =? 102 then
                match lex_literal "alse" r with
                | Some rest => POk (JBool false) rest
                | None => PSyntaxError
                end
              else
                match lex_number (String c r) with
                | Some (lit, rest) => POk (JNumber lit) rest
                | None => PSyntaxError
                end
          end
      | MElements acc =>
          match parse fuel MValue s with
          | POk v r =>
              match skip_ws r with
              | String c r' =>
                  if code c =? 44 then parse fuel (MElements (v :: acc)) r'
                  else if code c =? 93 then POk (JArray (rev (v :: acc))) r'
                  else PSyntaxError
              | EmptyString => PSyntaxError
              end
          | e => e
          end
      | MMembers acc =>
          match skip_ws s with
          | String q r =>
              if code q =? 34 then
                match lex_string r with
                | Some (key, r1) =>
                    match skip_ws r1 with
                    | String colon r2 =>
                        if code colon =? 58 then
                          match parse fuel MValue r2 with
                          | POk v r3 =>
                              match skip_ws r3 with
                              | String c r4 =>
                                  if code c =? 44
                                  then parse fuel (MMembers ((key, v) :: acc)) r4
                                  else if code c =? 125
                                  then POk (JObject (rev ((key, v) :: acc))) r4
                                  else PSyntaxError
                              | EmptyString => PSyntaxError
                              end
                          | e => e
                          end
                        else PSyntaxError
                    | EmptyString => PSyntaxError
                    end
                | None => PSyntaxError
                end
              else PSyntaxError
          | EmptyString => PSyntaxError
          end
      end
  end.

(** Fuel that [parse] never exhausts on [s] in mode [m]. *)
Definition parse_need (m : Mode) (s : string) : nat :=
  match m with
  | MValue => 2 * String.length s + 1
  | MElements _ | MMembers _ => 2 * String.length s + 2
  end.

Definition parse_fuel (s : string) : nat := 2 * String.length s + 2.

(** [JSON.parse(s)]: [None] stands for the [SyntaxError] it throws. *)
Definition JSON_parse (s : string) : option json :=
  match parse (parse_fuel s) MValue s with
  | POk v rest => if truthy (skip_ws rest) then None else Some v
  | _ => None
  end.

(** A string literal as [JSON.stringify] writes it. *)
Definition hex_digit (n : nat) : string :=
  if n <? 10 then chr (48 + n) else chr (87 + n).

Definition quote_char (c : ascii) : string :=
  let n := code c in
  if n =? 34 then chr 92 +:+ chr 34
  else if n =? 92 then chr 92 +:+ chr 92
  else if n =? 8 then chr 92 +:+ "b"
  else if n =? 12 then chr 92 +:+ "f"
  else if n =? 10 then chr 92 +:+ "n"
  else if n =? 13 then chr 92 +:+ "r"
  else if n =? 9 then chr 92 +:+ "t"
  else if n <? 32 then chr 92 +:+ "u00" +:+ hex_digit (n / 16) +:+ hex_digit (n mod 16)
  else String c "".

Fixpoint quote_body (s : string) : string :=
  match s with
  | EmptyString => ""
  | String c r => quote_char c +:+ quote_body r
  end.

Definition quote (s : string) : string := chr 34 +:+ quote_body s +:+ chr 34.

(** [JSON.stringify(v)] without indentation. *)
Fixpoint JSON_stringify (v : json) : string :=
  match v with
  | JNull => "null"
  | JBool true => "true"
  | JBool false => "false"
  | JNumber literal => literal
  | JString s => quote s
  | JArray items => "[" +:+ join "," (map JSON_stringify items) +:+ "]"
  | JObject members =>
      "{" +:+ join "," (map (fun kv => quote kv.1 +:+ ":" +:+ JSON_stringify kv.2)
                            members) +:+ "}"
  end.

(** Truthiness of a JSON value: [null], [false], the empty string and a
    number written with no non-zero digit in its mantissa are falsy. *)
Fixpoint zero_mantissa (s : string) : bool :=
  match s with
  | EmptyString => true
  | String c r =>
      if (code c =? 101) || (code c =? 69) then true
      else if (49 <=? code c) && (code c <=? 57) then false
      else zero_mantissa r
  end.

Definition json_truthy (v : json) : bool :=
  match v with
  | JNull => false
  | JBool b => b
  | JNumber literal => negb (zero_mantissa literal)
  | JString s => truthy s
  | JArray _ | JObject _ => true
  end.


(** ** Errors *)

Inductive Error :=
| Error_ (message : string)   (* [new Error(message)] *)
| SyntaxError.                (* thrown by [JSON.parse] *)

(** The error of a response without choices. *)
Definition EmptyResponseError : Error := Error_ "No choices in OpenAI response".

Inductive Result (A : Type) :=
| Ok (a : A)
| Throw (e : Error).
Arguments Ok {A} a.
Arguments Throw {A} e.

(** ** Turn-structured (Gemini) side of the data model

    Following the type guards of the source ([part is { text: string }],
    [part is FunctionCall], [part is FunctionResponse]), a key that is
    present on a part holds a value. *)

Record FunctionCall := {
  fc_name : string;
  fc_args : option json
}.

Record FunctionResponse := {
  fr_name : option string;
  fr_response : option json
}.

Record Part := {
  text : option string;
  functionCall : option FunctionCall;
  functionResponse : option FunctionResponse
}.

Record Content := {
  c_role : option string;
  c_parts : option (list Part)
}.

(** An entry of [request.contents]: a content, a bare part or a string. *)
Inductive ContentUnion :=
| AContent (c : Content)
| APart (p : Part)
| AString (s : string).

(** [request.contents]: one entry or an array of entries. *)
Inductive ContentListUnion :=
| One (c : ContentUnion)
| Many (l : list ContentUnion).

Inductive FinishReason := STOP | MAX_TOKENS | SAFETY | OTHER.

Record GenerateContentConfig := {
  cfg_temperature : option Q;
  cfg_topP : option Q;
  cfg_maxOutputTokens : option Q
}.

Record GenerateContentParameters := {
  contents : ContentListUnion;
  config : option GenerateContentConfig
}.

Record UsageMetadata := {
  promptTokenCount : Z;
  candidatesTokenCount : Z;
  totalTokenCount : Z
}.

Record Candidate := {
  cand_content : Content;
  finishReason : option FinishReason
}.

Record GenerateContentResponse := {
  candidates : list Candidate;
  usageMetadata : option UsageMetadata
}.

Definition textPart (s : string) : Part :=
  {| text := Some s; functionCall := None; functionResponse := None |}.

Definition functionCallPart (name : string) (args : json) : Part :=
  {| text := None;
     functionCall := Some {| fc_name := name; fc_args := Some args |};
     functionResponse := None |}.

(** ** Outbound request *)

Record OpenAIRequestFormat := {
  model : string;
  messages : list OpenAIMessage;
  temperature : option Q;
  max_tokens : option Q;
  top_p : option Q;
  tools : option (list json)
}.

(** The clock behind [Date.now()]: the readings still to come, in
    milliseconds. *)
Definition Clock := nat -> Z.

Definition Date_now (clk : Clock) : Z * Clock :=
  (clk 0, fun n => clk (S n)).

(** [JSON.stringify(v || {})] *)
Definition stringifyOrEmpty (v : option json) : string :=
  match v with
  | Some j => if json_truthy j then JSON_stringify j else JSON_stringify (JObject [])
  | None => JSON_stringify (JObject [])
  end.

(** [functionCalls.map((fc, index) => ...)], from position [index] on. *)
Fixpoint mapToolCalls (clk : Clock) (index : nat) (functionCalls : list FunctionCall)
    : list OpenAIToolCall * Clock :=
  match functionCalls with
  | [] => ([], clk)
  | fc :: rest =>
      let '(now, clk1) := Date_now clk in
      let toolCall :=
        {| tc_id := "call_" +:+ pretty now +:+ "_" +:+ pretty index;
           tc_function := {| fn_name := fc_name fc;
                             fn_arguments := stringifyOrEmpty (fc_args fc) |} |} in
      let '(tcs, clk2) := mapToolCalls clk1 (S index) rest in
      (toolCall :: tcs, clk2)
  end.

(** The tool message of one function response. *)
Definition toolMessage (fr : FunctionResponse) : OpenAIMessage :=
  {| role := tool;
     content := Some (stringifyOrEmpty (fr_response fr));
     tool_calls := None;
     tool_call_id :=
       Some ("call_" +:+ (if truthy_opt (fr_name fr)
                          then default "" (fr_name fr) else "unknown")) |}.

(** The messages pushed for one entry of [contents]. *)
Definition convertContent (clk : Clock) (content : ContentUnion)
    : list OpenAIMessage * Clock :=
  match content with
  | AContent c =>
      match c_role c, c_parts c with
      | Some r, Some _ =>
          if bool_decide (r = "user") || bool_decide (r = "model") then
            let role := if bool_decide (r = "model") then assistant else user in
            let parts := default [] (c_parts c) in
            let textParts := join LF (omap text parts) in
            let textMessages :=
              if truthy textParts
              then [{| role := role; content := Some textParts;
                       tool_calls := None; tool_call_id := None |}]
              else [] in
            let functionCalls := omap functionCall parts in
            let functionResponses := omap functionResponse parts in
            let '(callMessages, clk1) :=
              if bool_decide (0 < length functionCalls) then
                let '(tool_calls, clk1) := mapToolCalls clk 0 functionCalls in
                ([{| role := assistant; content := None;
                     tool_calls := Some tool_calls; tool_call_id := None |}],
                 clk1)
              else ([], clk) in
            (textMessages ++ callMessages ++ map toolMessage functionResponses,
             clk1)
          else ([], clk)
      | _, _ => ([], clk)
      end
  | _ => ([], clk)
  end.

(** The loop over [contents]. *)
Fixpoint convertContents (clk : Clock) (messages : list OpenAIMessage)
    (contents : list ContentUnion) : list OpenAIMessage * Clock :=
  match contents with
  | [] => (messages, clk)
  | content :: rest =>
      let '(pushed, clk1) := convertContent clk content in
      convertContents clk1 (messages ++ pushed) rest
  end.

Definition convertGeminiParametersToOpenAI (clk : Clock)
    (request : GenerateContentParameters) (model : string)
    : OpenAIRequestFormat * Clock :=
  let contents :=
    match contents request with
    | Many l => l
    | One c => [c]
    end in
  let '(messages, clk1) := convertContents clk [] contents in
  ({| model := model;
      messages := messages;
      temperature := config request ≫= cfg_temperature;
      max_tokens := config request ≫= cfg_maxOutputTokens;
      top_p := config request ≫= cfg_topP;
      tools := None |},
   clk1).

(** ** Inbound response *)

Record ChatCompletionFunction := {
  ccf_name : string;
  ccf_arguments : string
}.

Record ChatCompletionMessageToolCall := {
  cct_id : string;
  cct_type : string;
  cct_function : ChatCompletionFunction
}.

Record ChatCompletionMessage := {
  ccm_content : option string;
  ccm_tool_calls : option (list ChatCompletionMessageToolCall)
}.

Record ChatCompletionChoice := {
  message : ChatCompletionMessage;
  finish_reason : string
}.

Record CompletionUsage := {
  prompt_tokens : Z;
  completion_tokens : Z;
  total_tokens : Z
}.

Record ChatCompletion := {
  choices : list ChatCompletionChoice;
  usage : option CompletionUsage
}.

Definition mapFinishReason (openAIReason : string) : FinishReason :=
  if String.eqb openAIReason "stop" then STOP
  else if String.eqb openAIReason "length" then MAX_TOKENS
  else if String.eqb openAIReason "tool_calls" then STOP
  else if String.eqb openAIReason "content_filter" then SAFETY
  else OTHER.

(** The loop over [choice.message.tool_calls]. *)
Fixpoint pushToolCalls (parts : list Part)
    (toolCalls : list ChatCompletionMessageToolCall) : Result (list Part) :=
  match toolCalls with
  | [] => Ok parts
  | toolCall :: rest =>
      if String.eqb (cct_type toolCall) "function" then
        let arguments := ccf_arguments (cct_function toolCall) in
        match JSON_parse (if truthy arguments then arguments else "{}") with
        | Some args =>
            pushToolCalls
              (parts ++ [functionCallPart (ccf_name (cct_function toolCall)) args])
              rest
        | None => Throw SyntaxError
        end
      else pushToolCalls parts rest
  end.

Definition modelContent (parts : list Part) : Content :=
  {| c_role := Some "model"; c_parts := Some parts |}.

Definition convertUsage (u : CompletionUsage) : UsageMetadata :=
  {| promptTokenCount := prompt_tokens u;
     candidatesTokenCount := completion_tokens u;
     totalTokenCount := total_tokens u |}.

(** The translation of one choice of a full response; [usage] is
    [completion.usage]. *)
Definition convertChoice (usage : option CompletionUsage)
    (choice : ChatCompletionChoice) : Result GenerateContentResponse :=
  let parts :=
    if truthy_opt (ccm_content (message choice))
    then [textPart (default "" (ccm_content (message choice)))]
    else [] in
  match
    match ccm_tool_calls (message choice) with
    | Some toolCalls => pushToolCalls parts toolCalls
    | None => Ok parts
    end
  with
  | Ok parts =>
      let finishReason := mapFinishReason (finish_reason choice) in
      Ok {| candidates :=
              [{| cand_content := modelContent parts;
                  finishReason := Some finishReason |}];
            usageMetadata := convertUsage <$> usage |}
  | Throw e => Throw e
  end.

Definition convertToGeminiFormat (completion : ChatCompletion)
    : Result GenerateContentResponse :=
  match choices completion with
  | [] => Throw EmptyResponseError
  | choice :: _ => convertChoice (usage completion) choice
  end.

(** ** Inbound stream chunk *)

Record ChunkFunction := {
  ckf_name : option string;
  ckf_arguments : option string
}.

Record ChunkToolCall := {
  ckt_index : nat;
  ckt_id : option string;
  ckt_type : option string;
  ckt_function : option ChunkFunction
}.

Record ChunkDelta := {
  ckd_content : option string;
  ckd_tool_calls : option (list ChunkToolCall)
}.

Record ChunkChoice := {
  delta : ChunkDelta;
  ck_finish_reason : option string
}.

Record ChatCompletionChunk := {
  ck_choices : list ChunkChoice
}.

(** The loop over [choice.delta.tool_calls]. *)
Fixpoint pushToolCallDeltas (parts : list Part) (toolCalls : list ChunkToolCall)
    : Result (list Part) :=
  match toolCalls with
  | [] => Ok parts
  | toolCall :: rest =>
      match ckt_function toolCall with
      | Some fn =>
          if bool_decide (ckt_type toolCall = Some "function") then
            match
              if truthy_opt (ckf_arguments fn)
              then JSON_parse (default "" (ckf_arguments fn))
              else Some (JObject [])
            with
            | Some args =>
                pushToolCallDeltas
                  (parts ++ [functionCallPart
                               (if truthy_opt (ckf_name fn)
                                then default "" (ckf_name fn) else "")
                               args])
                  rest
            | None => Throw SyntaxError
            end
          else pushToolCallDeltas parts rest
      | None => pushToolCallDeltas parts rest
      end
  end.

Definition convertChunkChoice (choice : ChunkChoice)
    : Result GenerateContentResponse :=
  let parts :=
    if truthy_opt (ckd_content (delta choice))
    then [textPart (default "" (ckd_content (delta choice)))]
    else [] in
  match
    match ckd_tool_calls (delta choice) with
    | Some toolCalls => pushToolCallDeltas parts toolCalls
    | None => Ok parts
    end
  with
  | Ok parts =>
      let finishReason :=
        if truthy_opt (ck_finish_reason choice)
        then Some (mapFinishReason (default "" (ck_finish_reason choice)))
        else None in
      Ok {| candidates :=
              [{| cand_content := modelContent parts;
                  finishReason := finishReason |}];
            usageMetadata := None |}
  | Throw e => Throw e
  end.

Definition convertStreamChunkToGeminiFormat (chunk : ChatCompletionChunk)
    : Result GenerateContentResponse :=
  match ck_choices chunk with
  | [] => Ok {| candidates := []; usageMetadata := None |}
  | choice :: _ => convertChunkChoice choice
  end.

(** ** Notions used to state the properties of the translators *)

(** [JSON.parse] accepts the arguments of [toolCall], when the loop
    parses them at all. *)
Definition parsable (toolCall : ChatCompletionMessageToolCall) : Prop :=
  cct_type toolCall = "function" →
  is_Some (JSON_parse (if truthy (ccf_arguments (cct_function toolCall))
                       then ccf_arguments (cct_function toolCall) else "{}")).

Definition choiceParsable (choice : ChatCompletionChoice) : Prop :=
  ∀ toolCalls, ccm_tool_calls (message choice) = Some toolCalls →
               Forall parsable toolCalls.

(** ** Notions used to state the properties of the sanitizer *)

(** The tool message [t] answers the tool call [tc]. *)
Definition answers (tc : OpenAIToolCall) (t : OpenAIMessage) : Prop :=
  role t = tool ∧ tool_call_id t = Some (tc_id tc).

(** Some tool message of [ms] answers [tc]. *)
Definition answered (ms : list OpenAIMessage) (tc : OpenAIToolCall) : Prop :=
  Exists (answers tc) ms.

(** The assistant message [a] carries the tool call [tc]. *)
Definition carries (a : OpenAIMessage) (tc : OpenAIToolCall) : Prop :=
  role a = assistant ∧ ∃ tcs, tool_calls a = Some tcs ∧ tc ∈ tcs.

(** Some assistant message of [ms] carries a tool call that [t] answers. *)
Definition requested (ms : list OpenAIMessage) (t : OpenAIMessage) : Prop :=
  ∃ a tc, a ∈ ms ∧ carries a tc ∧ answers tc t.

(** The pairing invariant of the flat protocol. *)
Definition paired (ms : list OpenAIMessage) : Prop :=
  (∀ t, t ∈ ms → role t = tool → requested ms t) ∧
  (∀ a tc, a ∈ ms → carries a tc → answered ms tc).

(** An empty id is carried by an assistant message and also used by a
    tool message. *)
Definition emptyIdPair (ms : list OpenAIMessage) : Prop :=
  (∃ a tc, a ∈ ms ∧ carries a tc ∧ tc_id tc = "") ∧
  (∃ t, t ∈ ms ∧ role t = tool ∧ tool_call_id t = Some "").

#[export] Instance answers_dec tc t : Decision (answers tc t).
Proof. unfold answers. apply _. Defined.

#[export] Instance answered_dec ms tc : Decision (answered ms tc).
Proof. unfold answered. apply _. Defined.

(** The tool message [t] passes the test of the second loop. *)
Definition keptTool (ms : list OpenAIMessage) (t : OpenAIMessage) : Prop :=
  ∃ i, tool_call_id t = Some i ∧ i ≠ "" ∧ i ∈ collectToolCallIds ms.

#[export] Instance keptTool_dec ms t : Decision (keptTool ms t).
Proof.
  unfold keptTool. destruct (tool_call_id t) as [i|].
  - destruct (decide (i ≠ "" ∧ i ∈ collectToolCallIds ms)) as [H|H].
    + left. eauto.
    + right. intros (j & [= <-] & ?). done.
  - right. intros (j & ? & _). done.
Defined.

(** [l] when it is not empty, absent otherwise. *)
Definition nonEmpty {A} (l : list A) : option (list A) :=
  match l with
  | [] => None
  | _ => Some l
  end.

(** What the second loop pushes for the messages [part], within the
    whole list [messages]. *)
Definition cleaned (messages part : list OpenAIMessage) : list OpenAIMessage :=
  foldl (cleanStep messages (collectToolCallIds messages)) [] part.

(** The tool-call arrays of the messages of a run, concatenated. *)
Definition runToolCalls (run : list OpenAIMessage) : list OpenAIToolCall :=
  concat (map (fun m => default [] (tool_calls m)) run).

Definition notAssistant (m : OpenAIMessage) : Prop := role m ≠ assistant.

(** In [pre ++ run ++ post], [run] is a run of adjacent assistant
    messages that cannot be extended on either side. *)
Definition maximalRun (pre run post : list OpenAIMessage) : Prop :=
  Forall (fun m => role m = assistant) run ∧
  (∀ p, last pre = Some p → notAssistant p) ∧
  (∀ p, head post = Some p → notAssistant p).

(** No two adjacent messages are both assistant messages. *)
Fixpoint noAdjacentAssistants (l : list OpenAIMessage) : Prop :=
  match l with
  | a :: l' =>
      (∀ b, head l' = Some b → ¬ (role a = assistant ∧ role b = assistant))
      ∧ noAdjacentAssistants l'
  | [] => True
  end.

(** The merging loop as a recursive function of the pending message. *)
Fixpoint mergeFrom (cur : option OpenAIMessage) (ms : list OpenAIMessage)
    : list OpenAIMessage :=
  match ms with
  | [] => mergeFlush ([], cur)
  | m :: ms' =>
      if decide (role m = assistant)
      then mergeFrom (Some (from_option (fun c => mergeAssistant c m) m cur)) ms'
      else mergeFlush ([], cur) ++ m :: mergeFrom None ms'
  end.

(** The assistant message [a], found between [pre] and [post], comes
    out with its tool calls filtered down to those answered in [scope],
    the field being absent when none is left, and is otherwise
    unchanged. *)
Definition filteredBy (scope pre : list OpenAIMessage) (a : OpenAIMessage)
    (post : list OpenAIMessage) : Prop :=
  ∀ tcs, tool_calls a = Some tcs →
    ∃ a',
      cleanOrphanedToolCalls (pre ++ a :: post)
      = cleaned (pre ++ a :: post) pre ++ [a']
        ++ cleaned (pre ++ a :: post) post
      ∧ a' = with_tool_calls a (tool_calls a')
      ∧ tool_calls a' = nonEmpty (filter (answered scope) tcs)
      ∧ tool_calls a' ≠ Some [].

(** The non-null strings of an array of [string | null]. *)
Definition nonNull (l : list (option string)) : list string := omap id l.

(** The run [run], found between [pre] and [post], is replaced by one
    assistant message: its tool calls are as many as those of the run,
    its content joins the contents that [keep] retains. *)
Definition mergedAs (keep : list (option string) → list string)
    (pre run post : list OpenAIMessage) : Prop :=
  ∃ m,
    mergeConsecutiveAssistantMessages (pre ++ run ++ post)
    = mergeConsecutiveAssistantMessages pre ++ [m]
      ++ mergeConsecutiveAssistantMessages post
    ∧ role m = assistant
    ∧ (∃ tcs, tool_calls m = Some tcs ∧
              length tcs
              = sum_list (map (fun r => length (default [] (tool_calls r))) run))
    ∧ content m = orNull (join LF (keep (map content run))).

(** ** Sample messages *)

Definition call (i : string) : OpenAIToolCall :=
  {| tc_id := i;
     tc_function := {| fn_name := "lookup"; fn_arguments := "{}" |} |}.

Definition assistantMessage (c : option string)
    (tcs : option (list OpenAIToolCall)) : OpenAIMessage :=
  {| role := assistant; content := c; tool_calls := tcs; tool_call_id := None |}.

Definition toolReply (i : string) : OpenAIMessage :=
  {| role := tool; content := Some "{}"; tool_calls := None;
     tool_call_id := Some i |}.

(** An assistant message whose only tool call has the empty id,
    followed by the tool message that answers it. *)
Definition emptyIdHistory : list OpenAIMessage :=
  [assistantMessage None (Some [call ""]); toolReply ""].

(** A response whose only choice carries a tool call with malformed
    arguments. *)
Definition malformedArguments : ChatCompletion :=
  {| choices :=
       [{| message :=
             {| ccm_content := None;
                ccm_tool_calls :=
                  Some [{| cct_id := "call_1"; cct_type := "function";
                           cct_function := {| ccf_name := "lookup";
                                              ccf_arguments := "{" |} |}] |};
           finish_reason := "tool_calls" |}];
     usage := None |}.

(** ** Notions used to state the properties of the outbound translator *)

(** The ids of all tool calls of a message list, in order. *)
Definition toolCallIds (ms : list OpenAIMessage) : list string :=
  ms ≫= fun m => tc_id <$> default [] (tool_calls m).

(** The id synthesized at time [now] for position [index]. *)
Definition callId (now : Z) (index : nat) : string :=
  "call_" +:+ pretty now +:+ "_" +:+ pretty index.

(** The string holds no underscore. *)
Fixpoint plain (s : string) : Prop :=
  match s with
  | EmptyString => True
  | String c r => c ≠ "_"%char ∧ plain r
  end.

(** ** A sample request *)

Definition callPart (name : string) : Part :=
  {| text := None;
     functionCall := Some {| fc_name := name; fc_args := Some (JObject []) |};
     functionResponse := None |}.

Definition responsePart (name : string) : Part :=
  {| text := None;
     functionCall := None;
     functionResponse :=
       Some {| fr_name := Some name; fr_response := Some (JObject []) |} |}.

Definition turn (r : string) (ps : list Part) : ContentUnion :=
  AContent {| c_role := Some r; c_parts := Some ps |}.

(** A history in which the model calls a function, gets its response
    and calls another function. *)
Definition twoCallTurns : GenerateContentParameters :=
  {| contents := Many [turn "model" [callPart "lookup"];
                       turn "user" [responsePart "lookup"];
                       turn "model" [callPart "search"]];
     config := None |}.

(** A clock that stays within one millisecond. *)
Definition sameMillisecond : Clock := fun _ => 1700000000000%Z.

(** ** Tool declarations: [convertGeminiToolsToOpenAI]

    A tool group of the Gemini side either is a [Tool], which may hold
    function declarations, or a callable tool, which has no
    [functionDeclarations] key.  The function is [async] in the source
    but awaits nothing; its result is modelled as a value. *)

Record FunctionDeclaration := {
  fd_name : option string;
  fd_description : option string;
  fd_parameters : option json
}.

Record Tool := {
  functionDeclarations : option (list FunctionDeclaration)
}.

Inductive ToolUnion :=
| ATool (t : Tool)
| ACallableTool.

(** [{ type: 'function', function: { name, description, parameters } }] *)
Record OpenAIToolFunction := {
  otf_name : option string;
  otf_description : option string;
  otf_parameters : option json
}.

Record OpenAITool := {
  ot_function : OpenAIToolFunction
}.

Definition openAITool (func : FunctionDeclaration) : OpenAITool :=
  {| ot_function := {| otf_name := fd_name func;
                       otf_description := fd_description func;
                       otf_parameters := fd_parameters func |} |}.

Definition convertGeminiToolsToOpenAI (geminiTools : list ToolUnion)
    : list OpenAITool :=
  foldl (fun (openAITools : list OpenAITool) toolUnion =>
           match toolUnion with
           | ATool t =>
               foldl (fun (acc : list OpenAITool) func => acc ++ [openAITool func])
                     openAITools (default [] (functionDeclarations t))
           | ACallableTool => openAITools
           end) [] geminiTools.

(** ** Model configuration: [getOllamaModelConfig]
    (from [packages/core/src/core/ollamaPrompts.ts])

    The decimal literals of the table are kept as rationals. *)

Record OllamaModelConfig := {
  omc_maxTokens : Z;
  omc_temperature : Q;
  omc_topP : Q;
  omc_repeatPenalty : Q;
  omc_contextWindow : Z
}.

Definition config_qwen3_14b : OllamaModelConfig :=
  {| omc_maxTokens := 8192; omc_temperature := 1 # 10; omc_topP := 9 # 10;
     omc_repeatPenalty := 11 # 10; omc_contextWindow := 32768 |}.

Definition config_qwen3_32b : OllamaModelConfig :=
  {| omc_maxTokens := 12288; omc_temperature := 15 # 100; omc_topP := 9 # 10;
     omc_repeatPenalty := 11 # 10; omc_contextWindow := 32768 |}.

Definition config_llama31_8b : OllamaModelConfig :=
  {| omc_maxTokens := 4096; omc_temperature := 1 # 10; omc_topP := 85 # 100;
     omc_repeatPenalty := 115 # 100; omc_contextWindow := 131072 |}.

Definition config_llama33_70b : OllamaModelConfig :=
  {| omc_maxTokens := 16384; omc_temperature := 2 # 10; omc_topP := 95 # 100;
     omc_repeatPenalty := 105 # 100; omc_contextWindow := 131072 |}.

(** The object returned for a model that matches no pattern. *)
Definition config_default : OllamaModelConfig :=
  {| omc_maxTokens := 8192; omc_temperature := 1 # 10; omc_topP := 9 # 10;
     omc_repeatPenalty := 11 # 10; omc_contextWindow := 32768 |}.

(** [search] is a prefix of [s]. *)
Fixpoint startsWith (s search : string) {struct search} : bool :=
  match search with
  | EmptyString => true
  | String c search' =>
      match s with
      | String d s' => Ascii.eqb c d && startsWith s' search'
      | EmptyString => false
      end
  end.

(** [s.includes(search)] *)
Fixpoint includes (s search : string) : bool :=
  startsWith s search
  || match s with
     | String _ s' => includes s' search
     | EmptyString => false
     end.

Definition getOllamaModelConfig (model : string) : OllamaModelConfig :=
  if includes model "qwen3" && includes model "14b" then config_qwen3_14b
  else if includes model "qwen3" && includes model "32b" then config_qwen3_32b
  else if includes model "llama3.1" && includes model "8b" then config_llama31_8b
  else if includes model "llama3.3" && includes model "70b" then config_llama33_70b
  else config_default.

(** ** Notions used to state further properties *)

(** The pending message of the merging loop, if any, is an assistant
    message. *)
Definition pendingAssistant (c : option OpenAIMessage) : Prop :=
  ∀ cur, c = Some cur → role cur = assistant.

(** The message without its [tool_calls] field. *)
Definition withoutToolCalls (m : OpenAIMessage) : OpenAIMessage :=
  with_tool_calls m None.

(** Some assistant message of [ms] carries [tc]. *)
Definition carried (ms : list OpenAIMessage) (tc : OpenAIToolCall) : Prop :=
  ∃ a, a ∈ ms ∧ carries a tc.

(** The entry of [contents] is a turn that the outbound translator
    translates: a content with parts whose role is [user] or [model]. *)
Definition translated (content : ContentUnion) : bool :=
  match content with
  | AContent c =>
      match c_role c, c_parts c with
      | Some r, Some _ => bool_decide (r = "user") || bool_decide (r = "model")
      | _, _ => false
      end
  | _ => false
  end.

(** The three shapes of the messages that the outbound translator
    emits. *)
Definition textShape (m : OpenAIMessage) : Prop :=
  (role m = user ∨ role m = assistant)
  ∧ (∃ s, content m = Some s ∧ s ≠ "")
  ∧ tool_calls m = None ∧ tool_call_id m = None.

Definition callShape (m : OpenAIMessage) : Prop :=
  role m = assistant ∧ content m = None
  ∧ (∃ tcs, tool_calls m = Some tcs ∧ tcs ≠ []
            ∧ ∀ tc, tc ∈ tcs → ∃ now index, tc_id tc = callId now index)
  ∧ tool_call_id m = None.

Definition replyShape (names : list string) (m : OpenAIMessage) : Prop :=
  role m = tool ∧ is_Some (content m) ∧ tool_calls m = None
  ∧ ∃ n, tool_call_id m = Some ("call_" +:+ n)
         ∧ (n = "unknown" ∨ n ∈ names).

(** The names of the function responses of the translated turns. *)
Definition responseNames (contents : list ContentUnion) : list string :=
  contents ≫= fun content =>
    match content with
    | AContent c =>
        if translated content
        then omap (fun p => functionResponse p ≫= fr_name) (default [] (c_parts c))
        else []
    | _ => []
    end.

(** The first character of [s], if any, is neither a digit nor a minus
    sign. *)
Definition identifierLike (s : string) : Prop :=
  match s with
  | EmptyString => True
  | String c _ => is_digit c = false ∧ c ≠ "-"%char
  end.

(** The entries of [request.contents] as an array. *)
Definition contentsOf (request : GenerateContentParameters) : list ContentUnion :=
  match contents request with
  | Many l => l
  | One c => [c]
  end.

(** A complete choice as the delta of a stream chunk. *)
Definition asChunkToolCall (index : nat) (tc : ChatCompletionMessageToolCall)
    : ChunkToolCall :=
  {| ckt_index := index;
     ckt_id := Some (cct_id tc);
     ckt_type := Some (cct_type tc);
     ckt_function := Some {| ckf_name := Some (ccf_name (cct_function tc));
                             ckf_arguments := Some (ccf_arguments (cct_function tc)) |} |}.

Definition asChunk (choice : ChatCompletionChoice) : ChatCompletionChunk :=
  {| ck_choices :=
       [{| delta := {| ckd_content := ccm_content (message choice);
                       ckd_tool_calls :=
                         imap asChunkToolCall <$> ccm_tool_calls (message choice) |};
           ck_finish_reason := Some (finish_reason choice) |}] |}.

(** [JSON.parse] accepts the arguments of the tool-call delta, when the
    loop parses them at all. *)
Definition deltaParsable (toolCall : ChunkToolCall) : Prop :=
  ∀ fn, ckt_function toolCall = Some fn →
        ckt_type toolCall = Some "function" →
        truthy_opt (ckf_arguments fn) = true →
        is_Some (JSON_parse (default "" (ckf_arguments fn))).

Definition chunkParsable (chunk : ChatCompletionChunk) : Prop :=
  ∀ choice toolCalls, head (ck_choices chunk) = Some choice →
    ckd_tool_calls (delta choice) = Some toolCalls →
    Forall deltaParsable toolCalls.

(** The tool calls of type [function] of a choice. *)
Definition functionToolCalls (choice : ChatCompletionChoice)
    : list ChatCompletionMessageToolCall :=
  List.filter (fun tc => String.eqb (cct_type tc) "function")
              (default [] (ccm_tool_calls (message choice))).

(** The part [p] is the translation of the function tool call [tc]. *)
Definition translatesCall (tc : ChatCompletionMessageToolCall) (p : Part) : Prop :=
  ∃ args,
    JSON_parse (if truthy (ccf_arguments (cct_function tc))
                then ccf_arguments (cct_function tc) else "{}") = Some args
    ∧ p = functionCallPart (ccf_name (cct_function tc)) args.

(** The choice with only its tool calls of type [function]. *)
Definition functionOnly (choice : ChatCompletionChoice) : ChatCompletionChoice :=
  {| message :=
       {| ccm_content := ccm_content (message choice);
          ccm_tool_calls :=
            List.filter (fun tc => String.eqb (cct_type tc) "function")
              <$> ccm_tool_calls (message choice) |};
     finish_reason := finish_reason choice |}.

(** The tool-call deltas that the chunk translator translates: those of
    type [function] that have a [function] field. *)
Definition functionDeltas (choice : ChunkChoice) : list ChunkToolCall :=
  List.filter (fun tc => bool_decide (is_Some (ckt_function tc))
                         && bool_decide (ckt_type tc = Some "function"))
              (default [] (ckd_tool_calls (delta choice))).

(** The part [p] is the translation of the tool-call delta [tc]. *)
Definition translatesDelta (tc : ChunkToolCall) (p : Part) : Prop :=
  ∃ fn args,
    ckt_function tc = Some fn
    ∧ (if truthy_opt (ckf_arguments fn)
       then JSON_parse (default "" (ckf_arguments fn))
       else Some (JObject [])) = Some args
    ∧ p = functionCallPart (default "" (ckf_name fn)) args.

(** The text part of a content string, when it is not empty. *)
Definition textParts (c : option string) : list Part :=
  if truthy_opt c then [textPart (default "" c)] else [].

(** ** Sample responses *)

(** A response with one choice that says [hi] and stops. *)
Definition plainResponse : ChatCompletion :=
  {| choices := [{| message := {| ccm_content := Some "hi";
                                  ccm_tool_calls := None |};
                    finish_reason := "stop" |}];
     usage := Some {| prompt_tokens := 7; completion_tokens := 1;
                      total_tokens := 8 |} |}.

(** A chunk whose tool-call delta carries the beginning of a JSON
    object. *)
Definition partialArgumentsChunk : ChatCompletionChunk :=
  {| ck_choices :=
       [{| delta :=
             {| ckd_content := None;
                ckd_tool_calls :=
                  Some [{| ckt_index := 0; ckt_id := Some "call_1";
                           ckt_type := Some "function";
                           ckt_function :=
                             Some {| ckf_name := Some "lookup";
                                     ckf_arguments := Some "{" |} |}] |};
           ck_finish_reason := None |}] |}.

(** A chunk that carries a fragment of text and no finish reason. *)
Definition textChunk : ChatCompletionChunk :=
  {| ck_choices :=
       [{| delta := {| ckd_content := Some "wor"; ckd_tool_calls := None |};
           ck_finish_reason := None |}] |}.

(** The string starts with a digit or a minus sign. *)
Definition numberLike (s : string) : Prop :=
  match s with
  | EmptyString => False
  | String c _ => is_digit c = true ∨ c = "-"%char
  end.

(** The OpenAI tools of one tool group. *)
Definition groupTools (toolUnion : ToolUnion) : list OpenAITool :=
  match toolUnion with
  | ATool t => openAITool <$> default [] (functionDeclarations t)
  | ACallableTool => []
  end.

(** A tool group with two declarations, a callable tool and a group
    without declarations. *)
Definition sampleTools : list ToolUnion :=
  [ATool {| functionDeclarations :=
              Some [{| fd_name := Some "read"; fd_description := None;
                       fd_parameters := None |};
                    {| fd_name := Some "write"; fd_description := None;
                       fd_parameters := None |}] |};
   ACallableTool;
   ATool {| functionDeclarations := None |}].

(** ** Notions used to state the round trip of function calls *)

(** [lit] is a number literal of the JSON grammar. *)
Definition validNumber (lit : string) : Prop := lex_number lit = Some (lit, "").

(** Every number of the value is written as a number literal. *)
Fixpoint wf_json (v : json) : Prop :=
  match v with
  | JNumber lit => validNumber lit
  | JArray items => fold_right (fun x acc => wf_json x ∧ acc) True items
  | JObject members => fold_right (fun kv acc => wf_json kv.2 ∧ acc) True members
  | _ => True
  end.

Fixpoint json_size (v : json) : nat :=
  match v with
  | JArray items => S (fold_right (fun x acc => json_size x + acc) 0 items)
  | JObject members => S (fold_right (fun kv acc => json_size kv.2 + acc) 0 members)
  | _ => 1
  end.

(** What may follow a value inside a JSON text: nothing, a comma, a
    closing bracket or a closing brace. *)
Definition delimited (rest : string) : Prop :=
  match rest with
  | EmptyString => True
  | String c _ => code c = 44 ∨ code c = 93 ∨ code c = 125
  end.

(** The arguments that [JSON.stringify(args || {})] writes. *)
Definition argsOrEmpty (fc : FunctionCall) : json :=
  match fc_args fc with
  | Some v => if json_truthy v then v else JObject []
  | None => JObject []
  end.

Definition wfCall (fc : FunctionCall) : Prop := wf_json (argsOrEmpty fc).

(** The tool call of a request as a provider would send it back. *)
Definition echoToolCall (tc : OpenAIToolCall) : ChatCompletionMessageToolCall :=
  {| cct_id := tc_id tc;
     cct_type := "function";
     cct_function := {| ccf_name := fn_name (tc_function tc);
                        ccf_arguments := fn_arguments (tc_function tc) |} |}.

(** A response whose only choice is the message [m] of a request. *)
Definition echo (m : OpenAIMessage) : ChatCompletion :=
  {| choices :=
       [{| message := {| ccm_content := content m;
                         ccm_tool_calls := map echoToolCall <$> tool_calls m |};
           finish_reason := "tool_calls" |}];
     usage := None |}.

(** The part of a model turn that calls a function. *)
Definition callOf (fc : FunctionCall) : Part :=
  {| text := None; functionCall := Some fc; functionResponse := None |}.

(** The part read back for a function call that was sent: its name and
    its arguments, an empty object where it had none. *)
Definition readBack (fc : FunctionCall) : Part :=
  functionCallPart (fc_name fc) (argsOrEmpty fc).

(** A model turn that calls a function with three kinds of arguments. *)
Definition sampleCalls : list FunctionCall :=
  [{| fc_name := "lookup";
      fc_args := Some (JObject [("query", JString "a b");
                                ("limit", JNumber "-12.5e3");
                                ("tags", JArray [JBool true; JNull])]) |};
   {| fc_name := "now"; fc_args := None |}].

(** What [fr.functionResponse?.response || {}] evaluates to. *)
Definition responseOrEmpty (fr : FunctionResponse) : json :=
  match fr_response fr with
  | Some v => if json_truthy v then v else JObject []
  | None => JObject []
  end.

(** The arguments of the function call of a part and the response of
    its function response are JSON values whose number literals are
    valid. *)
Definition wfPart (p : Part) : Prop :=
  (∀ fc, functionCall p = Some fc → wfCall fc)
  ∧ (∀ fr, functionResponse p = Some fr → wf_json (responseOrEmpty fr)).

Definition wfContent (content : ContentUnion) : Prop :=
  match content with
  | AContent c => Forall wfPart (default [] (c_parts c))
  | _ => True
  end.

(** [JSON.parse(s)] returns a value. *)
Definition validJSON (s : string) : Prop := is_Some (JSON_parse s).

(** A user turn that answers two calls, one of them with no response. *)
Definition sampleResponses : list Part :=
  [{| text := None; functionCall := None;
      functionResponse :=
        Some {| fr_name := Some "lookup";
                fr_response := Some (JObject [("hits", JNumber "3")]) |} |};
   {| text := None; functionCall := None;
      functionResponse := Some {| fr_name := None; fr_response := None |} |}].

(** A full response and a chunk whose finish reason is the empty
    string. *)
Definition emptyFinishResponse : ChatCompletion :=
  {| choices := [{| message := {| ccm_content := Some "hi";
                                  ccm_tool_calls := None |};
                    finish_reason := EmptyString |}];
     usage := None |}.

Definition emptyFinishChunk : ChatCompletionChunk :=
  {| ck_choices :=
       [{| delta := {| ckd_content := Some "hi"; ckd_tool_calls := None |};
           ck_finish_reason := Some EmptyString |}] |}.

(** [m'] is [m] up to its [tool_calls] field, from which tool calls may
    only have been removed; a message that is not an assistant message
    is untouched. *)
Definition sameButToolCalls (m m' : OpenAIMessage) : Prop :=
  role m' = role m ∧ content m' = content m
  ∧ tool_call_id m' = tool_call_id m
  ∧ default [] (tool_calls m') `sublist_of` default [] (tool_calls m)
  ∧ (role m ≠ assistant → m' = m).

(** The messages that the second loop of [cleanOrphanedToolCalls] does
    not drop. *)
Definition survives (ms : list OpenAIMessage) (m : OpenAIMessage) : Prop :=
  role m ≠ tool ∨ keptTool ms m.

#[export] Instance survives_dec ms m : Decision (survives ms m).
Proof. unfold survives. apply _. Defined.

(** *** JSON values on which the model of numbers is exact

    [JSON_stringify] writes a number as the literal the value holds, and
    [json_truthy] reads its sign off the digits of that literal, where
    JavaScript holds a double: there [1e999] is written as [null],
    [-12.5e3] as [-12500], and [1e-400] is zero.  The literals below are
    those that JavaScript writes back as they are: [0], or an optional
    minus sign, a non-zero digit and at most fourteen further digits, a
    magnitude below [2^53]. *)
Fixpoint all_digits (s : string) : bool :=
  match s with
  | EmptyString => true
  | String c r => is_digit c && all_digits r
  end.

Definition plainNatural (s : string) : bool :=
  match s with
  | String c r =>
      if code c =? 48 then String.eqb r EmptyString
      else is_digit c && all_digits r && (String.length s <=? 15)
  | EmptyString => false
  end.

Definition plainInteger (s : string) : bool :=
  match s with
  | String c r =>
      if code c =? 45 then plainNatural r && negb (String.eqb r "0")
      else plainNatural s
  | EmptyString => false
  end.

(** A key that is not an array index: JavaScript enumerates array
    indices before the other keys of an object, whatever the order in
    which they were written. *)
Definition plainKey (k : string) : bool :=
  match k with
  | String c _ => negb (is_digit c)
  | EmptyString => true
  end.

(** A value that JavaScript writes and reads back as the model does:
    its numbers are plain integers, and the keys of each of its objects
    are distinct and are not array indices, so that the members are
    enumerated in the order in which they are listed. *)
Fixpoint plainJson (v : json) : bool :=
  match v with
  | JNumber lit => plainInteger lit
  | JArray items => forallb plainJson items
  | JObject members =>
      forallb (fun kv => plainKey kv.1 && plainJson kv.2) members
      && bool_decide (NoDup (fst <$> members))
  | _ => true
  end.

Definition plainCall (fc : FunctionCall) : Prop :=
  match fc_args fc with
  | Some v => plainJson v = true
  | None => True
  end.

(** A model turn that calls two functions, the second without
    arguments. *)
Definition plainCalls : list FunctionCall :=
  [{| fc_name := "lookup";
      fc_args := Some (JObject [("query", JString "a b");
                                ("limit", JNumber "-12500");
                                ("tags", JArray [JBool true; JNull;
                                                 JNumber "0"])]) |};
   {| fc_name := "now"; fc_args := None |}].

(** ** Properties of [cleanOrphanedToolCalls] *)

Section clean.
Implicit Types (ms : list OpenAIMessage) (m a t : OpenAIMessage)
  (tc : OpenAIToolCall) (ids : gset string).

Lemma collect_inner ids (tcs : list OpenAIToolCall) i :
  i ∈ foldl (fun (ids : gset string) toolCall => ids ∪ {[ tc_id toolCall ]}) ids tcs
  ↔ i ∈ ids ∨ ∃ tc, tc ∈ tcs ∧ tc_id tc = i.
Proof.
  revert ids. induction tcs as [|tc tcs IH]; intros ids; simpl.
  - split; [auto | intros [?|(tc & H & _)]; [done | inversion H]].
  - rewrite IH, elem_of_union, elem_of_singleton. split.
    + intros [[?| ->]|(tc' & ? & ?)]; eauto using list_elem_of_here, list_elem_of_further.
    + intros [?|(tc' & [-> |?]%elem_of_cons & ?)]; eauto.
Qed.

Lemma collect_outer ids ms i :
  i ∈ foldl (fun (toolCallIds : gset string) message =>
               match role message, tool_calls message with
               | assistant, Some tcs =>
                   foldl (fun (ids : gset string) toolCall =>
                            ids ∪ {[ tc_id toolCall ]}) toolCallIds tcs
               | _, _ => toolCallIds
               end) ids ms
  ↔ i ∈ ids ∨ ∃ a tc, a ∈ ms ∧ carries a tc ∧ tc_id tc = i.
Proof.
  revert ids. induction ms as [|m ms IH]; intros ids; simpl.
  - split; [auto | intros [?|(a & tc & H & _)]; [done | inversion H]].
  - rewrite IH. split.
    + intros [H|(a & tc & ? & ? & ?)].
      * destruct (role m) eqn:Hr; destruct (tool_calls m) as [tcs|] eqn:Ht; auto.
        apply collect_inner in H as [?|(tc & ? & ?)]; [auto|].
        right. exists m, tc. split_and!; [left | split; [done|eauto] | done].
      * right. exists a, tc. split_and!; [by right | done | done].
    + intros [H|(a & tc & [-> |?]%elem_of_cons & Hc & ?)].
      * left. destruct (role m); destruct (tool_calls m); auto;
          apply collect_inner; auto.
      * left. destruct Hc as (-> & tcs & -> & ?).
        apply collect_inner. eauto.
      * right. eauto 6.
Qed.

Lemma collectToolCallIds_spec ms i :
  i ∈ collectToolCallIds ms ↔ ∃ a tc, a ∈ ms ∧ carries a tc ∧ tc_id tc = i.
Proof.
  unfold collectToolCallIds. rewrite collect_outer.
  split; [intros [H|H]; [by apply not_elem_of_empty in H | done] | auto].
Qed.

Lemma hasToolResponse_spec ms tc :
  hasToolResponse ms tc = true ↔ answered ms tc.
Proof.
  unfold hasToolResponse, answered, answers.
  rewrite existsb_exists, Exists_exists. split.
  - intros (t & Hin & [H1 H2]%andb_prop). exists t.
    apply bool_decide_eq_true in H1, H2. by rewrite <- list_elem_of_In in Hin.
  - intros (t & Hin & H1 & H2). exists t. rewrite <- list_elem_of_In.
    split; [done|]. apply andb_true_intro. by rewrite !bool_decide_eq_true.
Qed.

Lemma filter_hasToolResponse ms (tcs : list OpenAIToolCall) :
  List.filter (hasToolResponse ms) tcs = filter (answered ms) tcs.
Proof.
  induction tcs as [|tc tcs IH]; [done|]. simpl.
  rewrite filter_cons, IH.
  destruct (hasToolResponse ms tc) eqn:H.
  - apply hasToolResponse_spec in H. by rewrite decide_True.
  - rewrite decide_False; [done|]. intros H'%hasToolResponse_spec. congruence.
Qed.

Lemma nonEmpty_length {A} (l : list A) :
  (if bool_decide (0 < length l) then Some l else None) = nonEmpty l.
Proof. by destruct l. Qed.

Lemma cleanStep_app ms ids (acc : list OpenAIMessage) m :
  cleanStep ms ids acc m = acc ++ cleanStep ms ids [] m.
Proof.
  unfold cleanStep.
  destruct (role m); try done.
  - destruct (tool_calls m); done.
  - destruct (_ && _); [done | by rewrite app_nil_r].
Qed.

Lemma foldl_cleanStep ms ids (acc part : list OpenAIMessage) :
  foldl (cleanStep ms ids) acc part
  = acc ++ foldl (cleanStep ms ids) [] part.
Proof.
  revert acc. induction part as [|m part IH]; intros acc; simpl.
  - by rewrite app_nil_r.
  - rewrite IH, (IH (cleanStep ms ids [] m)), cleanStep_app.
    by rewrite <- app_assoc.
Qed.

Lemma cleaned_cons ms m (part : list OpenAIMessage) :
  cleaned ms (m :: part) = cleaned ms [m] ++ cleaned ms part.
Proof. unfold cleaned. cbn [foldl]. by rewrite foldl_cleanStep. Qed.

Lemma cleaned_app ms (xs ys : list OpenAIMessage) :
  cleaned ms (xs ++ ys) = cleaned ms xs ++ cleaned ms ys.
Proof.
  induction xs as [|x xs IH]; [done|].
  rewrite <- app_comm_cons, (cleaned_cons _ x (xs ++ ys)), (cleaned_cons _ x xs), IH.
  by rewrite app_assoc.
Qed.

Lemma cleanOrphanedToolCalls_cleaned ms :
  cleanOrphanedToolCalls ms = cleaned ms ms.
Proof. done. Qed.

Lemma keptTool_Some ms t i :
  tool_call_id t = Some i →
  keptTool ms t ↔ i ≠ "" ∧ i ∈ collectToolCallIds ms.
Proof.
  intros Hi. unfold keptTool. rewrite Hi. split.
  - by intros (j & [= <-] & ?).
  - intros ?. by exists i.
Qed.

(** What is pushed for a tool message. *)
Lemma cleaned_tool ms t :
  role t = tool →
  cleaned ms [t] =
    if decide (keptTool ms t) then [t] else [].
Proof.
  intros Hr. unfold cleaned, cleanStep. cbn [foldl]. rewrite Hr.
  destruct (tool_call_id t) as [i|] eqn:Hi; cbn [truthy_opt default andb].
  - unfold truthy. destruct (String.eqb_spec i "") as [->|Hne]; simpl.
    + rewrite decide_False; [done|]. rewrite (keptTool_Some _ _ _ Hi). tauto.
    + case_bool_decide.
      * rewrite decide_True; [done|]. by rewrite (keptTool_Some _ _ _ Hi).
      * rewrite decide_False; [done|]. rewrite (keptTool_Some _ _ _ Hi). tauto.
  - rewrite decide_False; [done|]. unfold keptTool. rewrite Hi.
    by intros (i & ? & _).
Qed.

(** What is pushed for an assistant message with tool calls. *)
Lemma cleaned_assistant ms a (tcs : list OpenAIToolCall) :
  role a = assistant → tool_calls a = Some tcs →
  cleaned ms [a] = [with_tool_calls a (nonEmpty (filter (answered ms) tcs))].
Proof.
  intros Hr Ht. unfold cleaned, cleanStep. cbn [foldl]. rewrite Hr, Ht.
  by rewrite nonEmpty_length, filter_hasToolResponse.
Qed.

(** What is pushed for any other message. *)
Lemma cleaned_other ms m :
  role m ≠ tool → (role m = assistant → tool_calls m = None) →
  cleaned ms [m] = [m].
Proof.
  intros Hr Ht. unfold cleaned, cleanStep. cbn [foldl].
  destruct (role m) eqn:E; try done. by rewrite Ht.
Qed.

Lemma elem_of_cleaned ms (part : list OpenAIMessage) m' :
  m' ∈ cleaned ms part ↔ ∃ m, m ∈ part ∧ m' ∈ cleaned ms [m].
Proof.
  induction part as [|x part IH].
  - split; [intros H; inversion H | intros (m & H & _); inversion H].
  - rewrite cleaned_cons, elem_of_app, IH. split.
    + intros [?|(m & ? & ?)]; [exists x | exists m]; split; auto; by constructor.
    + intros (m & [-> | ?]%elem_of_cons & ?); eauto.
Qed.

Lemma cleaned_cases ms m m' :
  m' ∈ cleaned ms [m] →
  (role m = tool ∧ m' = m ∧ keptTool ms m)
  ∨ (role m = assistant ∧ ∃ tcs, tool_calls m = Some tcs ∧
       m' = with_tool_calls m (nonEmpty (filter (answered ms) tcs)))
  ∨ (role m ≠ tool ∧ (role m = assistant → tool_calls m = None) ∧ m' = m).
Proof.
  intros H.
  destruct (decide (role m = tool)) as [Hr|Hr].
  - rewrite (cleaned_tool _ _ Hr) in H. case_decide; [|inversion H].
    apply list_elem_of_singleton in H. auto.
  - destruct (decide (role m = assistant)) as [Ha|Ha];
      [destruct (tool_calls m) as [tcs|] eqn:Ht|].
    + rewrite (cleaned_assistant _ _ _ Ha Ht) in H.
      apply list_elem_of_singleton in H. right; left. eauto.
    + rewrite cleaned_other in H by done.
      apply list_elem_of_singleton in H. auto.
    + rewrite cleaned_other in H by done.
      apply list_elem_of_singleton in H. right; right. done.
Qed.

Lemma carries_with_tool_calls a (v : option (list OpenAIToolCall)) tc :
  carries (with_tool_calls a v) tc ↔
  role a = assistant ∧ ∃ tcs, v = Some tcs ∧ tc ∈ tcs.
Proof. done. Qed.

Lemma nonEmpty_Some {A} (l l' : list A) : nonEmpty l = Some l' → l' = l.
Proof. destruct l; [done | by intros [= <-]]. Qed.

Lemma nonEmpty_elem {A} (l : list A) x : x ∈ l → nonEmpty l = Some l.
Proof. destruct l; [by inversion 1 | done]. Qed.

(** A tool call carried by the output was carried by the input and is
    answered there. *)
Lemma carries_cleaned ms a' tc :
  a' ∈ cleanOrphanedToolCalls ms → carries a' tc →
  answered ms tc ∧ ∃ a, a ∈ ms ∧ carries a tc.
Proof.
  rewrite cleanOrphanedToolCalls_cleaned, elem_of_cleaned.
  intros (a & Hin & Hc) Hcar.
  apply cleaned_cases in Hc
    as [(Hr & -> & _) | [(Hr & tcs & Ht & ->) | (_ & Hn & ->)]].
  - destruct Hcar as [? _]. congruence.
  - apply carries_with_tool_calls in Hcar as (_ & tcs' & E & Hel).
    apply nonEmpty_Some in E as ->.
    apply list_elem_of_filter in Hel as [? ?].
    split; [done|]. exists a. split; [done|]. split; eauto.
  - destruct Hcar as (Hr & tcs & Ht & _). rewrite (Hn Hr) in Ht. done.
Qed.

(** A tool call that the input carries and answers is carried by the
    output. *)
Lemma cleaned_carries ms a tc :
  a ∈ ms → carries a tc → answered ms tc →
  ∃ a', a' ∈ cleanOrphanedToolCalls ms ∧ carries a' tc.
Proof.
  intros Hin (Hr & tcs & Ht & Hel) Hans.
  exists (with_tool_calls a (nonEmpty (filter (answered ms) tcs))). split.
  - rewrite cleanOrphanedToolCalls_cleaned, elem_of_cleaned. exists a.
    split; [done|]. rewrite (cleaned_assistant _ _ _ Hr Ht). by left.
  - apply carries_with_tool_calls. split; [done|].
    exists (filter (answered ms) tcs).
    assert (tc ∈ filter (answered ms) tcs) by by apply list_elem_of_filter.
    split; [by eapply nonEmpty_elem | done].
Qed.

(** The tool messages of the output are those of the input whose id
    is not empty and is carried by some assistant message. *)
Lemma tool_cleaned ms t :
  role t = tool →
  (t ∈ cleanOrphanedToolCalls ms ↔
   t ∈ ms ∧ keptTool ms t).
Proof.
  intros Hr. rewrite cleanOrphanedToolCalls_cleaned, elem_of_cleaned. split.
  - intros (m & Hin & Hc).
    apply cleaned_cases in Hc
      as [(_ & -> & ?) | [(Ha & tcs & _ & ->) | (Hn & _ & ->)]];
      [done | simpl in Hr; congruence | done].
  - intros (Hin & Hi). exists t. split; [done|].
    rewrite (cleaned_tool _ _ Hr), decide_True by done. by left.
Qed.

(** First half of the pairing invariant: it holds for every input. *)
Lemma cleaned_tools_requested ms t :
  t ∈ cleanOrphanedToolCalls ms → role t = tool →
  requested (cleanOrphanedToolCalls ms) t.
Proof.
  intros Hin Hr. apply (tool_cleaned _ _ Hr) in Hin as (Hin & i & Hi & _ & Hids).
  apply collectToolCallIds_spec in Hids as (a & tc & Ha & Hcar & <-).
  assert (answered ms tc) as Hans.
  { apply Exists_exists. exists t. split; done. }
  destruct (cleaned_carries _ _ _ Ha Hcar Hans) as (a' & ? & ?).
  exists a', tc. done.
Qed.

(** Second half, for a tool call whose id is not empty. *)
Lemma cleaned_calls_answered ms a' tc :
  a' ∈ cleanOrphanedToolCalls ms → carries a' tc → tc_id tc ≠ "" →
  answered (cleanOrphanedToolCalls ms) tc.
Proof.
  intros Hin Hcar Hne.
  destruct (carries_cleaned _ _ _ Hin Hcar) as (Hans & a & Ha & Hca).
  apply Exists_exists in Hans as (t & Ht & Hr & Hid).
  apply Exists_exists. exists t. split; [|done].
  apply (tool_cleaned _ _ Hr). split; [done|].
  exists (tc_id tc). split_and!; [done..|].
  apply collectToolCallIds_spec. eauto.
Qed.

(** The output is paired exactly when the input has no empty id used
    on both sides. *)
Lemma cleaned_paired_iff ms :
  paired (cleanOrphanedToolCalls ms) ↔ ¬ emptyIdPair ms.
Proof.
  split.
  - intros [_ Hb] [(a & tc & Ha & Hcar & Hid) (t & Ht & Hr & Hti)].
    assert (answered ms tc) as Hans.
    { apply Exists_exists. exists t. split; [done|].
      split; [done | by rewrite Hid]. }
    destruct (cleaned_carries _ _ _ Ha Hcar Hans) as (a' & Ha' & Hcar').
    specialize (Hb _ _ Ha' Hcar').
    apply Exists_exists in Hb as (t' & Ht' & Hr' & Hid').
    apply (tool_cleaned _ _ Hr') in Ht' as (_ & i & Hi & Hne & _).
    rewrite Hid, Hi in Hid'. congruence.
  - intros Hno. split; [apply cleaned_tools_requested|].
    intros a' tc Hin Hcar.
    destruct (decide (tc_id tc = "")) as [Hid|Hid];
      [|by eapply cleaned_calls_answered].
    exfalso. apply Hno.
    destruct (carries_cleaned _ _ _ Hin Hcar) as (Hans & a & Ha & Hca).
    apply Exists_exists in Hans as (t & Ht & Hr & Hti).
    split; [by eauto 6|]. exists t. by rewrite <- Hid.
Qed.

Lemma cleaned_fixed ms (part : list OpenAIMessage) :
  (∀ m, m ∈ part → cleaned ms [m] = [m]) → cleaned ms part = part.
Proof.
  induction part as [|x part IH]; intros H; [done|].
  rewrite cleaned_cons, H by by left.
  simpl. f_equal. apply IH. intros m ?. apply H. by right.
Qed.

Lemma with_tool_calls_id m (v : option (list OpenAIToolCall)) :
  tool_calls m = v → with_tool_calls m v = m.
Proof. intros <-. by destruct m. Qed.

Lemma filter_all {A} (P : A → Prop) `{!∀ x, Decision (P x)} (l : list A) :
  (∀ x, x ∈ l → P x) → filter P l = l.
Proof.
  induction l as [|x l IH]; intros Hall; [done|].
  rewrite filter_cons, decide_True by (apply Hall; by left).
  f_equal. apply IH. intros y ?. apply Hall. by right.
Qed.

(** The output never has an assistant message with an empty
    [tool_calls] array. *)
Lemma cleaned_no_empty_tool_calls ms a :
  a ∈ cleanOrphanedToolCalls ms → role a = assistant →
  tool_calls a ≠ Some [].
Proof.
  rewrite cleanOrphanedToolCalls_cleaned, elem_of_cleaned.
  intros (a0 & Hin & Hc) Hr.
  apply cleaned_cases in Hc
    as [(Hr0 & -> & _) | [(_ & tcs & _ & ->) | (_ & Hn & ->)]].
  - congruence.
  - simpl. by destruct (filter _ _).
  - by rewrite (Hn Hr).
Qed.

(** A list that is paired, whose tool messages pass the test and whose
    assistant messages have no empty [tool_calls] array is left
    unchanged. *)
Lemma cleaned_unchanged ms :
  (∀ a tc, a ∈ ms → carries a tc → answered ms tc) →
  (∀ t, t ∈ ms → role t = tool → keptTool ms t) →
  (∀ a, a ∈ ms → role a = assistant → tool_calls a ≠ Some []) →
  cleanOrphanedToolCalls ms = ms.
Proof.
  intros Hb Hk He. rewrite cleanOrphanedToolCalls_cleaned.
  apply cleaned_fixed. intros m Hin.
  destruct (decide (role m = tool)) as [Hr|Hr].
  { rewrite (cleaned_tool _ _ Hr), decide_True; [done | by apply Hk]. }
  destruct (decide (role m = assistant)) as [Ha|Ha];
    [destruct (tool_calls m) as [tcs|] eqn:Ht|].
  - rewrite (cleaned_assistant _ _ _ Ha Ht), filter_all.
    + destruct tcs as [|tc tcs]; [by destruct (He m Hin Ha)|].
      simpl. by rewrite with_tool_calls_id.
    + intros tc Hel. apply (Hb m); [done|]. split; eauto.
  - by apply cleaned_other.
  - by apply cleaned_other.
Qed.

(** Cleaning twice is cleaning once exactly when the input has no
    empty id used on both sides. *)
Lemma clean_twice_iff ms :
  cleanOrphanedToolCalls (cleanOrphanedToolCalls ms) = cleanOrphanedToolCalls ms
  ↔ ¬ emptyIdPair ms.
Proof.
  rewrite <- cleaned_paired_iff. split.
  - intros Heq. split; [apply cleaned_tools_requested|].
    intros a tc Hin Hcar. rewrite <- Heq in Hin.
    by destruct (carries_cleaned _ _ _ Hin Hcar) as [? _].
  - intros [Ha Hb]. apply cleaned_unchanged.
    + done.
    + intros t Hin Hr.
      destruct (Ha t Hin Hr) as (a' & tc & Ha' & Hcar & _ & Hid).
      apply (tool_cleaned _ _ Hr) in Hin as (_ & i & Hi & Hne & _).
      exists i. split_and!; [done..|].
      apply collectToolCallIds_spec. exists a', tc.
      split_and!; [done..|]. congruence.
    + intros a Hin Hr. by apply (cleaned_no_empty_tool_calls ms).
Qed.

End clean.

(** ** Properties of [mergeConsecutiveAssistantMessages] *)

Section merge.
Implicit Types (ms pre run post : list OpenAIMessage)
  (m cur : OpenAIMessage).

Lemma mergeFlush_acc (acc : list OpenAIMessage) (c : option OpenAIMessage) :
  mergeFlush (acc, c) = acc ++ mergeFlush ([], c).
Proof. unfold mergeFlush. simpl. destruct c; [done | by rewrite app_nil_r]. Qed.

Lemma mergeFrom_cons (c : option OpenAIMessage) m ms :
  mergeFrom c (m :: ms) =
    if decide (role m = assistant)
    then mergeFrom (Some (from_option (fun c' => mergeAssistant c' m) m c)) ms
    else mergeFlush ([], c) ++ m :: mergeFrom None ms.
Proof. done. Qed.

(** The loop and the recursive function agree. *)
Lemma mergeFlush_foldl ms (acc : list OpenAIMessage) (c : option OpenAIMessage) :
  mergeFlush (foldl mergeStep (acc, c) ms) = acc ++ mergeFrom c ms.
Proof.
  revert acc c. induction ms as [|m ms IH]; intros acc c.
  - apply mergeFlush_acc.
  - cbn [foldl]. rewrite mergeFrom_cons. unfold mergeStep at 2.
    destruct (decide (role m = assistant)) as [Hr|Hr].
    + rewrite Hr. destruct c; apply IH.
    + destruct (role m); try done;
        destruct c; rewrite IH; unfold mergeFlush; simpl;
        by rewrite <- ?app_assoc.
Qed.

Lemma merge_mergeFrom ms :
  mergeConsecutiveAssistantMessages ms = mergeFrom None ms.
Proof. unfold mergeConsecutiveAssistantMessages. by rewrite mergeFlush_foldl. Qed.

(** A run of assistant messages only updates the pending message. *)
Lemma mergeFrom_run cur run (rest : list OpenAIMessage) :
  Forall (fun m => role m = assistant) run →
  mergeFrom (Some cur) (run ++ rest)
  = mergeFrom (Some (foldl mergeAssistant cur run)) rest.
Proof.
  intros Hrun. revert cur. induction Hrun as [|m run Hm _ IH]; intros cur.
  - done.
  - cbn [app foldl]. rewrite mergeFrom_cons, decide_True by done. apply IH.
Qed.

(** A message that is not an assistant message flushes the pending
    one. *)
Lemma mergeFrom_flush cur post :
  (∀ p, head post = Some p → notAssistant p) →
  mergeFrom (Some cur) post = cur :: mergeFrom None post.
Proof.
  destruct post as [|p post]; intros Hp; [done|].
  assert (role p ≠ assistant) by by apply Hp.
  rewrite !mergeFrom_cons, !decide_False by done. done.
Qed.

(** A prefix that does not end with an assistant message is merged on
    its own. *)
Lemma mergeFrom_prefix (c : option OpenAIMessage) pre (rest : list OpenAIMessage) :
  pre ≠ [] → (∀ p, last pre = Some p → notAssistant p) →
  mergeFrom c (pre ++ rest) = mergeFrom c pre ++ mergeFrom None rest.
Proof.
  revert c. induction pre as [|m pre IH]; intros c Hne Hlast; [done|].
  destruct pre as [|m' pre].
  - assert (role m ≠ assistant) by by apply Hlast.
    cbn [app]. rewrite !mergeFrom_cons, !decide_False by done.
    cbn [mergeFrom]. by rewrite <- app_assoc.
  - assert (∀ p, last (m' :: pre) = Some p → notAssistant p) as Hlast'
      by (intros p Hp; apply Hlast; by rewrite last_cons_cons).
    rewrite <- app_comm_cons, !(mergeFrom_cons _ m).
    destruct (decide (role m = assistant)).
    + by apply IH.
    + rewrite IH by done. by rewrite <- app_assoc.
Qed.

Lemma merge_prefix pre (rest : list OpenAIMessage) :
  (∀ p, last pre = Some p → notAssistant p) →
  mergeFrom None (pre ++ rest) = mergeFrom None pre ++ mergeFrom None rest.
Proof.
  intros Hlast. destruct (decide (pre = [])) as [->|Hne]; [done|].
  by apply mergeFrom_prefix.
Qed.

(** A maximal run is replaced by the one message it folds to. *)
Lemma merge_run pre m run post :
  maximalRun pre (m :: run) post →
  mergeConsecutiveAssistantMessages (pre ++ (m :: run) ++ post)
  = mergeConsecutiveAssistantMessages pre
    ++ [foldl mergeAssistant m run]
    ++ mergeConsecutiveAssistantMessages post.
Proof.
  intros (Hrun & Hpre & Hpost). rewrite !merge_mergeFrom.
  rewrite merge_prefix by done. f_equal.
  apply Forall_cons in Hrun as [Hm Hrun].
  rewrite <- app_comm_cons, mergeFrom_cons. cbn [from_option].
  rewrite decide_True by done.
  rewrite mergeFrom_run by done. by apply mergeFrom_flush.
Qed.

(** *** The message a run folds to *)

Lemma join_cons2 (sep x y : string) (l : list string) :
  join sep (x :: y :: l) = x +:+ sep +:+ join sep (y :: l).
Proof. done. Qed.

Lemma string_app_assoc (a b c : string) : (a +:+ b) +:+ c = a +:+ (b +:+ c).
Proof.
  induction a as [|x a IH]; [done|].
  change (String x ((a +:+ b) +:+ c) = String x (a +:+ b +:+ c)).
  by rewrite IH.
Qed.

Lemma truthy_app (a b : string) : truthy a = true → truthy (a +:+ b) = true.
Proof. by destruct a. Qed.

Lemma truthy_opt_true (c : option string) :
  truthy_opt c = true → ∃ s, c = Some s ∧ truthy s = true.
Proof. destruct c as [s|]; [eauto | done]. Qed.

Lemma filterBoolean_truthy (s : string) (l : list (option string)) :
  truthy s = true → filterBoolean (Some s :: l) = s :: filterBoolean l.
Proof. intros H. unfold filterBoolean. cbn [omap list_omap]. by rewrite H. Qed.

Lemma filterBoolean_falsy (c : option string) (l : list (option string)) :
  truthy_opt c = false → filterBoolean (c :: l) = filterBoolean l.
Proof.
  intros H. unfold filterBoolean. cbn [omap list_omap].
  destruct c as [s|]; [|done]. simpl in H. by rewrite H.
Qed.

Lemma orNull_truthy (s : string) : truthy s = true → orNull s = Some s.
Proof. intros H. unfold orNull. by rewrite H. Qed.

(** Merging two contents and then the rest joins the same strings as
    merging them all at once. *)
Lemma merged_content_step (c d : option string) (l : list (option string)) :
  join LF (filterBoolean
             (orNull (join LF (filterBoolean [c; d])) :: l))
  = join LF (filterBoolean (c :: d :: l)).
Proof.
  destruct (truthy_opt c) eqn:Hc; destruct (truthy_opt d) eqn:Hd;
    try (apply truthy_opt_true in Hc as (s & -> & Hs));
    try (apply truthy_opt_true in Hd as (u & -> & Hu)).
  - rewrite !(filterBoolean_truthy s), !(filterBoolean_truthy u) by done.
    change (filterBoolean []) with (@nil string).
    change (join LF [s; u]) with (s +:+ LF +:+ u).
    rewrite orNull_truthy, filterBoolean_truthy by by apply truthy_app.
    destruct (filterBoolean l) as [|x l']; [done|].
    rewrite !join_cons2. by rewrite !string_app_assoc.
  - rewrite !(filterBoolean_truthy s), !(filterBoolean_falsy d) by done.
    change (filterBoolean []) with (@nil string).
    change (join LF [s]) with s.
    by rewrite orNull_truthy, filterBoolean_truthy.
  - rewrite !(filterBoolean_falsy c), !(filterBoolean_truthy u) by done.
    change (filterBoolean []) with (@nil string).
    change (join LF [u]) with u.
    by rewrite orNull_truthy, filterBoolean_truthy.
  - rewrite !(filterBoolean_falsy c), !(filterBoolean_falsy d) by done.
    change (filterBoolean []) with (@nil string).
    by rewrite filterBoolean_falsy.
Qed.

Lemma content_foldl cur m run :
  content (foldl mergeAssistant cur (m :: run))
  = orNull (join LF (filterBoolean (content cur :: content m :: map content run))).
Proof.
  revert cur m. induction run as [|m' run IH]; intros cur m; [done|].
  change (foldl mergeAssistant cur (m :: m' :: run))
    with (foldl mergeAssistant (mergeAssistant cur m) (m' :: run)).
  rewrite IH. cbn [content mergeAssistant map].
  by rewrite merged_content_step.
Qed.

Lemma tool_calls_foldl cur m run :
  tool_calls (foldl mergeAssistant cur (m :: run))
  = Some (runToolCalls (cur :: m :: run)).
Proof.
  revert cur m. induction run as [|m' run IH]; intros cur m.
  - unfold runToolCalls. simpl. by rewrite app_nil_r.
  - change (foldl mergeAssistant cur (m :: m' :: run))
      with (foldl mergeAssistant (mergeAssistant cur m) (m' :: run)).
    rewrite IH. unfold runToolCalls. simpl. by rewrite <- !app_assoc.
Qed.

Lemma role_foldl cur m run :
  role (foldl mergeAssistant cur (m :: run)) = assistant.
Proof.
  revert cur m. induction run as [|m' run IH]; intros cur m; [done|].
  apply (IH (mergeAssistant cur m)).
Qed.

Lemma tool_call_id_foldl cur run :
  tool_call_id (foldl mergeAssistant cur run) = tool_call_id cur.
Proof.
  revert cur. induction run as [|m run IH]; intros cur; [done|].
  apply (IH (mergeAssistant cur m)).
Qed.

Lemma runToolCalls_length run :
  length (runToolCalls run)
  = sum_list (map (fun m => length (default [] (tool_calls m))) run).
Proof.
  unfold runToolCalls. induction run as [|m run IH]; [done|].
  simpl. by rewrite length_app, IH.
Qed.

Lemma runToolCalls_absent run :
  Forall (fun m => tool_calls m = None) run → runToolCalls run = [].
Proof.
  unfold runToolCalls. induction 1 as [|m run Hm _ IH]; [done|].
  simpl. by rewrite Hm, IH.
Qed.

(** *** Adjacent assistant messages *)

Lemma mergeFrom_shape (c : option OpenAIMessage) ms :
  noAdjacentAssistants (mergeFrom c ms) ∧
  (∀ cur, c = Some cur →
     ∃ x rest, mergeFrom c ms = x :: rest
               ∧ ∀ p, head rest = Some p → notAssistant p).
Proof.
  revert c. induction ms as [|m ms IH]; intros c.
  - destruct c as [cur|]; simpl.
    + split; [split; [by intros b [=] | done]|].
      intros ? [= <-]. exists cur, []. split; [done | by intros p [=]].
    + split; [done | by intros cur [=]].
  - rewrite mergeFrom_cons. destruct (decide (role m = assistant)) as [Hm|Hm].
    + destruct (IH (Some (from_option (fun c' => mergeAssistant c' m) m c)))
        as [Hadj Hshape].
      split; [done|]. intros cur _. by eapply Hshape.
    + destruct (IH None) as [Hadj _].
      assert (noAdjacentAssistants (m :: mergeFrom None ms)) as Hm'.
      { split; [|done]. intros b _ [? _]. done. }
      destruct c as [cur|]; simpl.
      * split; [split; [|done]|].
        -- intros b [= <-] [_ ?]. done.
        -- intros ? [= <-]. exists cur, (m :: mergeFrom None ms).
           split; [done|]. by intros p [= <-].
      * split; [done | by intros cur [=]].
Qed.

(** The output has no two adjacent assistant messages. *)
Lemma merge_noAdjacent ms :
  noAdjacentAssistants (mergeConsecutiveAssistantMessages ms).
Proof. rewrite merge_mergeFrom. apply mergeFrom_shape. Qed.

(** A list without adjacent assistant messages is left unchanged. *)
Lemma merge_unchanged ms :
  noAdjacentAssistants ms → mergeConsecutiveAssistantMessages ms = ms.
Proof.
  rewrite merge_mergeFrom. induction ms as [|a ms IH]; [done|].
  intros [Hhead Htail]. rewrite mergeFrom_cons.
  destruct (decide (role a = assistant)) as [Ha|Ha]; cbn [from_option].
  - rewrite mergeFrom_flush, IH; [done..|].
    intros p Hp Hr. by apply (Hhead p).
  - by rewrite IH.
Qed.

End merge.

(** ** The parser does not run out of fuel *)

Section parser.

Local Abbreviation len := String.length.

Lemma skip_ws_length (s : string) : len (skip_ws s) ≤ len s.
Proof.
  induction s as [|c s IH]; [done|]. simpl.
  destruct (is_ws c); simpl; lia.
Qed.

Lemma skip_ws_String (s : string) (c : ascii) (r : string) :
  skip_ws s = String c r → len r < len s.
Proof. intros H. pose proof (skip_ws_length s) as Hl. rewrite H in Hl. simpl in Hl. lia. Qed.

Lemma span_digits_length (s ds r : string) :
  span_digits s = (ds, r) → len r ≤ len s.
Proof.
  revert ds r. induction s as [|c s IH]; intros ds r; simpl.
  - by intros [= _ <-].
  - destruct (is_digit c).
    + destruct (span_digits s) as [ds' r'] eqn:E. intros [= _ <-].
      specialize (IH _ _ eq_refl). lia.
    + intros [= _ <-]. simpl. lia.
Qed.

Lemma lex_digits1_length (s ds r : string) :
  lex_digits1 s = Some (ds, r) → len r ≤ len s.
Proof.
  unfold lex_digits1. destruct (span_digits s) as [ds' r'] eqn:E.
  destruct (truthy ds'); [|done]. intros [= _ <-].
  by eapply span_digits_length.
Qed.

Lemma lex_int_length (s i r : string) :
  lex_int s = Some (i, r) → len r < len s.
Proof.
  destruct s as [|c s]; [done|]. simpl.
  destruct (code c =? 48); [intros [= _ <-]; lia|].
  destruct (is_digit c); [|done].
  destruct (span_digits s) as [ds r'] eqn:E. intros [= _ <-].
  apply span_digits_length in E. lia.
Qed.

Lemma lex_frac_length (s f r : string) :
  lex_frac s = Some (f, r) → len r ≤ len s.
Proof.
  unfold lex_frac. destruct s as [|c s]; [by intros [= _ <-]|].
  destruct (decide (c = "."%char)) as [->|Hc].
  - destruct (lex_digits1 s) as [[ds r']|] eqn:E; [|done].
    intros [= _ <-]. apply lex_digits1_length in E. simpl. lia.
  - assert (Some ("", String c s) = Some (f, r) → len r ≤ len (String c s))
      as Hdone by by intros [= _ <-].
    by repeat case_match.
Qed.

Lemma lex_exp_length (s e r : string) :
  lex_exp s = Some (e, r) → len r ≤ len s.
Proof.
  unfold lex_exp. destruct s as [|c s]; [by intros [= _ <-]|].
  destruct (_ || _); [|by intros [= _ <-]].
  destruct s as [|sg s].
  - destruct (lex_digits1 "") as [[ds r2]|] eqn:E; [|done].
    intros [= _ <-]. apply lex_digits1_length in E. simpl in *. lia.
  - destruct (_ || _).
    + destruct (lex_digits1 s) as [[ds r2]|] eqn:E; [|done].
      intros [= _ <-]. apply lex_digits1_length in E. simpl in *. lia.
    + destruct (lex_digits1 (String sg s)) as [[ds r2]|] eqn:E; [|done].
      intros [= _ <-]. apply lex_digits1_length in E. simpl in *. lia.
Qed.

Lemma lex_number_length (s lit r : string) :
  lex_number s = Some (lit, r) → len r < len s.
Proof.
  unfold lex_number.
  set (p := match s with String "-"%char r0 => ("-", r0) | _ => ("", s) end).
  assert (len p.2 ≤ len s) as Hp.
  { subst p. destruct s as [|c s]; [done|].
    destruct (decide (c = "-"%char)) as [->|Hc]; [simpl; lia|].
    assert (len (("", String c s) : string * string).2 ≤ len (String c s))
      by done.
    by repeat case_match; simpl in *; try lia. }
  destruct p as [sign s1]. simpl in Hp.
  destruct (lex_int s1) as [[i s2]|] eqn:E1; [|done].
  destruct (lex_frac s2) as [[f s3]|] eqn:E2; [|done].
  destruct (lex_exp s3) as [[e s4]|] eqn:E3; [|done].
  intros [= _ <-].
  apply lex_int_length in E1. apply lex_frac_length in E2.
  apply lex_exp_length in E3. lia.
Qed.

Lemma lex_string_length (s body r : string) :
  lex_string s = Some (body, r) → len r < len s.
Proof.
  remember (len s) as n eqn:Hn. revert s body r Hn.
  induction (lt_wf n) as [n _ IH]. intros s body r ->.
  assert (∀ s' b' r', len s' < len s → lex_string s' = Some (b', r') →
                      len r' < len s') as IH'
    by (intros s' b' r' Hlt; by eapply IH).
  clear IH. destruct s as [|c s]; [done|]. cbn [lex_string].
  destruct (code c =? 34); [intros [= _ <-]; simpl; lia|].
  destruct (code c =? 92).
  - destruct s as [|e s1]; [done|].
    destruct (code e =? 117).
    + destruct s1 as [|h1 [|h2 [|h3 [|h4 r2]]]]; try done.
      destruct (hex_val h1), (hex_val h2), (hex_val h3), (hex_val h4); try done.
      destruct (lex_string r2) as [[b rest]|] eqn:E; [|done].
      intros [= _ <-]. apply IH' in E; simpl in *; lia.
    + destruct (unescape e); [|done].
      destruct (lex_string s1) as [[b rest]|] eqn:E; [|done].
      intros [= _ <-]. apply IH' in E; simpl in *; lia.
  - destruct (code c <? 32); [done|].
    destruct (lex_string s) as [[b rest]|] eqn:E; [|done].
    intros [= _ <-]. apply IH' in E; simpl in *; lia.
Qed.

Lemma lex_literal_length (lit s r : string) :
  lex_literal lit s = Some r → len r ≤ len s.
Proof.
  revert s. induction lit as [|c lit IH]; intros s; simpl.
  - by intros [= <-].
  - destruct s as [|d s]; [done|]. destruct (Ascii.eqb c d); [|done].
    intros H%IH. simpl. lia.
Qed.

Ltac parse_cases :=
  repeat match goal with
         | |- context [match ?x with _ => _ end] => destruct x eqn:?; try done
         end.

Ltac length_facts IH :=
  repeat match goal with
         | H : skip_ws _ = String _ _ |- _ => apply skip_ws_String in H
         | H : lex_string _ = Some _ |- _ => apply lex_string_length in H
         | H : lex_number _ = Some _ |- _ => apply lex_number_length in H
         | H : lex_literal _ _ = Some _ |- _ => apply lex_literal_length in H
         | H : parse _ _ _ = POk _ _ |- _ => apply IH in H
         end.

(** A successful parse consumes at least one character. *)
Lemma parse_length (fuel : nat) (m : Mode) (s : string) (v : json) (r : string) :
  parse fuel m s = POk v r → len r < len s.
Proof.
  revert m s v r. induction fuel as [|fuel IH]; intros m s v r; [done|].
  cbn [parse]. destruct m; parse_cases; intros H;
    try (injection H as <- <-); length_facts IH; simpl in *; lia.
Qed.

(** With the fuel of [parse_need] the parser never stops for lack of
    fuel. *)
Lemma parse_enough (fuel : nat) (m : Mode) (s : string) :
  parse_need m s ≤ fuel → parse fuel m s ≠ PFuel.
Proof.
  revert m s. induction fuel as [|fuel IH]; intros m s Hn.
  { destruct m; simpl in Hn; lia. }
  cbn [parse]. destruct m; parse_cases;
    try match goal with
        | H : parse _ _ _ = PFuel |- _ =>
            exfalso; revert H; apply IH;
            length_facts parse_length; simpl in *; lia
        end;
    apply IH; length_facts parse_length; simpl in *; lia.
Qed.

(** Fuel beyond [parse_need] does not change the outcome. *)
Lemma parse_fuel_irrelevant (fuel fuel' : nat) (m : Mode) (s : string) :
  parse_need m s ≤ fuel → parse_need m s ≤ fuel' →
  parse fuel m s = parse fuel' m s.
Proof.
  revert fuel' m s. induction fuel as [|fuel IH]; intros fuel' m s Hn Hn'.
  { destruct m; simpl in Hn; lia. }
  destruct fuel' as [|fuel']; [destruct m; simpl in Hn'; lia|].
  cbn [parse]. destruct m.
  - destruct (skip_ws s) as [|c r] eqn:Hs; [done|]. apply skip_ws_String in Hs.
    parse_cases; apply IH; length_facts parse_length; simpl in *; lia.
  - rewrite (IH fuel' MValue s) by (simpl in *; lia).
    destruct (parse fuel' MValue s) as [v r| |] eqn:Hv; [|done..].
    apply parse_length in Hv.
    parse_cases; apply IH; length_facts parse_length; simpl in *; lia.
  - destruct (skip_ws s) as [|c r] eqn:Hs; [done|]. apply skip_ws_String in Hs.
    destruct (code c =? 34); [|done].
    destruct (lex_string r) as [[key r1]|] eqn:Hk; [|done].
    apply lex_string_length in Hk.
    destruct (skip_ws r1) as [|colon r2] eqn:Hc; [done|]. apply skip_ws_String in Hc.
    destruct (code colon =? 58); [|done].
    rewrite (IH fuel' MValue r2) by (simpl in *; lia).
    destruct (parse fuel' MValue r2) as [v r3| |] eqn:Hv; [|done..].
    apply parse_length in Hv.
    parse_cases; apply IH; length_facts parse_length; simpl in *; lia.
Qed.

(** [JSON_parse] answers [None] only for a syntax error, never for lack
    of fuel. *)
Lemma JSON_parse_total (s : string) :
  parse (parse_fuel s) MValue s ≠ PFuel.
Proof. apply parse_enough. unfold parse_fuel. simpl. lia. Qed.

End parser.

(** ** Properties of the inbound translators *)

Section inbound.

Lemma pushToolCalls_cases (parts : list Part)
    (toolCalls : list ChatCompletionMessageToolCall) :
  (Forall parsable toolCalls ∧ ∃ parts', pushToolCalls parts toolCalls = Ok parts')
  ∨ (¬ Forall parsable toolCalls ∧ pushToolCalls parts toolCalls = Throw SyntaxError).
Proof.
  revert parts. induction toolCalls as [|tc tcs IH]; intros parts.
  - left. split; [constructor | by eexists].
  - cbn [pushToolCalls].
    destruct (String.eqb_spec (cct_type tc) "function") as [Hty|Hty].
    + destruct (JSON_parse _) as [args|] eqn:Hp.
      * destruct (IH (parts ++ [functionCallPart (ccf_name (cct_function tc)) args]))
          as [[Hall Hok]|[Hnot Hthrow]].
        -- left. split; [|done]. constructor; [|done].
           intros _. by rewrite Hp.
        -- right. split; [|done]. by intros [_ ?]%Forall_cons.
      * right. split; [|done]. intros [Htc _]%Forall_cons.
        specialize (Htc Hty). rewrite Hp in Htc. by destruct Htc.
    + destruct (IH parts) as [[Hall Hok]|[Hnot Hthrow]].
      * left. split; [|done]. constructor; [|done]. by intros ?.
      * right. split; [|done]. by intros [_ ?]%Forall_cons.
Qed.

Lemma convertChoice_cases (u : option CompletionUsage)
    (choice : ChatCompletionChoice) :
  (choiceParsable choice ∧ ∃ r, convertChoice u choice = Ok r)
  ∨ (¬ choiceParsable choice ∧ convertChoice u choice = Throw SyntaxError).
Proof.
  unfold convertChoice, choiceParsable.
  destruct (ccm_tool_calls (message choice)) as [tcs|].
  - destruct (pushToolCalls_cases
                (if truthy_opt (ccm_content (message choice))
                 then [textPart (default "" (ccm_content (message choice)))]
                 else []) tcs) as [[Hall [parts' ->]]|[Hnot ->]].
    + left. split; [by intros ? [= <-] | by eexists].
    + right. split; [|done]. intros H. by apply Hnot, H.
  - left. split; [by intros ? [=] | by eexists].
Qed.

(** The finish reason of a translated choice. *)
Lemma convertChoice_finishReason (u : option CompletionUsage)
    (choice : ChatCompletionChoice) (r : GenerateContentResponse) :
  convertChoice u choice = Ok r →
  finishReason <$> candidates r = [Some (mapFinishReason (finish_reason choice))].
Proof.
  unfold convertChoice.
  destruct (match ccm_tool_calls (message choice) with
            | Some toolCalls => pushToolCalls _ toolCalls
            | None => Ok _
            end); [by intros [= <-] | done].
Qed.

Lemma convertChunkChoice_finishReason (choice : ChunkChoice)
    (r : GenerateContentResponse) :
  convertChunkChoice choice = Ok r →
  finishReason <$> candidates r =
    [if truthy_opt (ck_finish_reason choice)
     then Some (mapFinishReason (default "" (ck_finish_reason choice)))
     else None].
Proof.
  unfold convertChunkChoice.
  destruct (match ckd_tool_calls (delta choice) with
            | Some toolCalls => pushToolCallDeltas _ toolCalls
            | None => Ok _
            end); [by intros [= <-] | done].
Qed.

End inbound.

(** ** The claims about the history sanitizer *)

(** C1. After [cleanOrphanedToolCalls] every remaining tool message
    should answer a remaining tool call and every remaining tool call
    should be answered by a remaining tool message.  On a history whose
    tool call and tool message both use the empty id, the tool message is
    dropped (the empty id is falsy) while the tool call is kept (it is
    matched with [===]): the output is not paired. *)
Theorem clean_empty_id_unpaired :
  cleanOrphanedToolCalls emptyIdHistory = [assistantMessage None (Some [call ""])]
  ∧ ¬ paired (cleanOrphanedToolCalls emptyIdHistory).
Proof.
  split; [by vm_compute|].
  rewrite cleaned_paired_iff. intros H. apply H. split.
  - exists (assistantMessage None (Some [call ""])), (call "").
    split_and!; [by left | | done].
    split; [done|]. exists [call ""]. split; [done | by left].
  - exists (toolReply ""). split_and!; [by right; left | done | done].
Qed.

(** C6. [cleanOrphanedToolCalls] should be idempotent.  On the same
    history the first application keeps the tool call and drops its
    answer, and the second application then drops the tool call. *)
Theorem clean_twice_empty_id :
  cleanOrphanedToolCalls emptyIdHistory = [assistantMessage None (Some [call ""])]
  ∧ cleanOrphanedToolCalls (cleanOrphanedToolCalls emptyIdHistory)
    = [assistantMessage None None]
  ∧ cleanOrphanedToolCalls (cleanOrphanedToolCalls emptyIdHistory)
    ≠ cleanOrphanedToolCalls emptyIdHistory.
Proof. split_and!; by vm_compute. Qed.

(** C5, as stated: the tool calls of an assistant message are filtered
    down to those answered by a tool message found later in the list.
    It fails when the answer comes first: the tool call is kept. *)
Lemma later_answers_only_fails :
  role (assistantMessage None (Some [call "a"])) = assistant
  ∧ ¬ filteredBy [] [toolReply "a"] (assistantMessage None (Some [call "a"])) [].
Proof.
  split; [done|]. intros H.
  destruct (H [call "a"] eq_refl) as (a' & Heq & _ & Ht & _).
  vm_compute in Heq. injection Heq as <-.
  vm_compute in Ht. discriminate Ht.
Qed.

(** C5, amended: the tool calls of an assistant message are filtered
    down to exactly those answered by a tool message found anywhere in
    the original list, before or after the assistant message; when none
    is left the field is absent. *)
Theorem tool_calls_filtered_by_any_answer
    (pre : list OpenAIMessage) (a : OpenAIMessage) (post : list OpenAIMessage) :
  role a = assistant →
  filteredBy (pre ++ a :: post) pre a post.
Proof.
  intros Hr tcs Ht.
  exists (with_tool_calls a (nonEmpty (filter (answered (pre ++ a :: post)) tcs))).
  split_and!; [|done|done|].
  - rewrite cleanOrphanedToolCalls_cleaned at 1.
    rewrite cleaned_app, cleaned_cons. f_equal.
    by rewrite (cleaned_assistant _ _ _ Hr Ht).
  - simpl. by destruct (filter _ _).
Qed.

Lemma tool_calls_filtered_by_any_answer_witness :
  filteredBy ([toolReply "a"] ++ assistantMessage None (Some [call "a"; call "b"]) :: [])
             [toolReply "a"] (assistantMessage None (Some [call "a"; call "b"])) [].
Proof.
  apply (tool_calls_filtered_by_any_answer
           [toolReply "a"] (assistantMessage None (Some [call "a"; call "b"])) []).
  reflexivity.
Defined.

(** ** The claims about merging *)

(** The message that replaces a maximal run of two or more assistant
    messages. *)
Lemma merge_run_message (pre run post : list OpenAIMessage) :
  maximalRun pre run post → 2 ≤ length run →
  ∃ m,
    mergeConsecutiveAssistantMessages (pre ++ run ++ post)
    = mergeConsecutiveAssistantMessages pre ++ [m]
      ++ mergeConsecutiveAssistantMessages post
    ∧ role m = assistant
    ∧ tool_calls m = Some (runToolCalls run)
    ∧ content m = orNull (join LF (filterBoolean (map content run)))
    ∧ tool_call_id m = head run ≫= tool_call_id.
Proof.
  intros Hmax Hlen.
  destruct run as [|r [|r' run]]; [simpl in Hlen; lia..|].
  exists (foldl mergeAssistant r (r' :: run)). split_and!.
  - by apply merge_run.
  - apply role_foldl.
  - apply tool_calls_foldl.
  - apply content_foldl.
  - apply tool_call_id_foldl.
Qed.

(** C8, as stated: the content of the merged message is the
    newline-join of the non-null contents of the run.  It fails when a
    member has the empty string as content: the code skips it. *)
Lemma join_of_non_null_contents_fails :
  maximalRun [] [assistantMessage (Some "a") None; assistantMessage (Some "") None] []
  ∧ 2 ≤ length [assistantMessage (Some "a") None; assistantMessage (Some "") None]
  ∧ ¬ mergedAs nonNull
        [] [assistantMessage (Some "a") None; assistantMessage (Some "") None] [].
Proof.
  split_and!.
  - split_and!; [by repeat constructor | by intros p [=] | by intros p [=]].
  - simpl. lia.
  - intros (m & Heq & _ & _ & Hc). vm_compute in Heq.
    injection Heq as <-. vm_compute in Hc. discriminate Hc.
Qed.

(** C8, amended: a maximal run of two or more adjacent assistant
    messages is replaced by exactly one assistant message whose
    [tool_calls] length is the sum of the members' [tool_calls] lengths
    (an absent field counting as zero) and whose content is the
    newline-join of the members' contents that are neither null nor
    empty, or null if that join is empty. *)
Theorem merged_run (pre run post : list OpenAIMessage) :
  maximalRun pre run post → 2 ≤ length run →
  mergedAs filterBoolean pre run post.
Proof.
  intros Hmax Hlen.
  destruct (merge_run_message pre run post Hmax Hlen)
    as (m & Heq & Hr & Ht & Hc & _).
  exists m. split_and!; [done | done | | done].
  exists (runToolCalls run). split; [done | apply runToolCalls_length].
Qed.

Lemma merged_run_witness :
  mergedAs filterBoolean
    [toolReply "a"]
    [assistantMessage (Some "a") None; assistantMessage (Some "") (Some [call "b"])]
    [toolReply "b"].
Proof.
  apply (merged_run [toolReply "a"]
           [assistantMessage (Some "a") None;
            assistantMessage (Some "") (Some [call "b"])]
           [toolReply "b"]).
  - split_and!.
    + repeat constructor.
    + intros p [= <-]. discriminate.
    + intros p [= <-]. discriminate.
  - simpl. lia.
Defined.

(** C9. When two or more adjacent assistant messages are merged, the
    resulting message carries a [tool_calls] array, which is empty when
    no member had the field; [cleanOrphanedToolCalls], in contrast, never
    leaves an assistant message with an empty array. *)
Theorem merged_tool_calls_present (pre run post : list OpenAIMessage) :
  maximalRun pre run post → 2 ≤ length run →
  (∃ m,
     mergeConsecutiveAssistantMessages (pre ++ run ++ post)
     = mergeConsecutiveAssistantMessages pre ++ [m]
       ++ mergeConsecutiveAssistantMessages post
     ∧ is_Some (tool_calls m)
     ∧ (Forall (fun r => tool_calls r = None) run → tool_calls m = Some []))
  ∧ (∀ ms a, a ∈ cleanOrphanedToolCalls ms → role a = assistant →
             tool_calls a ≠ Some []).
Proof.
  intros Hmax Hlen. split; [|apply cleaned_no_empty_tool_calls].
  destruct (merge_run_message pre run post Hmax Hlen)
    as (m & Heq & _ & Ht & _).
  exists m. split_and!; [done | by rewrite Ht |].
  intros Hnone. by rewrite Ht, runToolCalls_absent.
Qed.

Lemma merged_tool_calls_present_witness :
  ∃ m,
    mergeConsecutiveAssistantMessages
      ([] ++ [assistantMessage (Some "a") None; assistantMessage None None] ++ [])
    = mergeConsecutiveAssistantMessages [] ++ [m]
      ++ mergeConsecutiveAssistantMessages []
    ∧ is_Some (tool_calls m)
    ∧ (Forall (fun r => tool_calls r = None)
         [assistantMessage (Some "a") None; assistantMessage None None] →
       tool_calls m = Some []).
Proof.
  apply (merged_tool_calls_present []
           [assistantMessage (Some "a") None; assistantMessage None None] []).
  - split_and!.
    + repeat constructor.
    + intros p [=].
    + intros p [=].
  - simpl. lia.
Defined.

(** C10. [mergeConsecutiveAssistantMessages] is idempotent, and its
    output never has two adjacent assistant messages. *)
Theorem merge_idempotent (ms : list OpenAIMessage) :
  mergeConsecutiveAssistantMessages (mergeConsecutiveAssistantMessages ms)
  = mergeConsecutiveAssistantMessages ms
  ∧ noAdjacentAssistants (mergeConsecutiveAssistantMessages ms).
Proof.
  split; [|apply merge_noAdjacent].
  apply merge_unchanged, merge_noAdjacent.
Qed.

(** ** The claims about the inbound translators *)

(** C2, as stated: the mapping sends every string but the four named
    ones, the empty string included, to [OTHER], and both translators
    use it.  It fails on a chunk whose finish reason is the empty
    string: the mapping gives [OTHER], and the full translator reports
    it for a response with that finish reason, but the chunk translator
    tests the string for truthiness first and reports no finish reason
    at all. *)
Lemma chunk_empty_finish_reason_unmapped :
  mapFinishReason EmptyString = OTHER
  ∧ (∃ r, convertToGeminiFormat emptyFinishResponse = Ok r
          ∧ finishReason <$> candidates r
            = [Some (mapFinishReason EmptyString)])
  ∧ (∃ r choice,
       convertStreamChunkToGeminiFormat emptyFinishChunk = Ok r
       ∧ head (ck_choices emptyFinishChunk) = Some choice
       ∧ ck_finish_reason choice = Some EmptyString
       ∧ finishReason <$> candidates r = [None])
  ∧ ¬ (∀ chunk r choice s,
         convertStreamChunkToGeminiFormat chunk = Ok r →
         head (ck_choices chunk) = Some choice →
         ck_finish_reason choice = Some s →
         finishReason <$> candidates r = [Some (mapFinishReason s)]).
Proof.
  split_and!.
  - reflexivity.
  - eexists. split; reflexivity.
  - eexists _, _. split_and!; reflexivity.
  - intros H.
    specialize (H emptyFinishChunk _ _ EmptyString eq_refl eq_refl eq_refl).
    discriminate H.
Qed.

(** C2, amended: the finish-reason mapping sends [stop] to [STOP],
    [length] to [MAX_TOKENS], [tool_calls] to [STOP], [content_filter]
    to [SAFETY] and every other string, the empty one included, to
    [OTHER]; the finish reason of a translated response is this mapping
    of the finish reason of its first choice, whatever that string is;
    the chunk translator uses the mapping only on a finish reason that
    is a non-empty string: every finish reason that a translated chunk
    carries is the mapping of the finish reason of its first choice, a
    chunk whose finish reason is a non-empty string carries its mapping,
    and a chunk whose finish reason is null or the empty string carries
    no finish reason. *)
Theorem mapFinishReason_table :
  mapFinishReason "stop" = STOP
  ∧ mapFinishReason "length" = MAX_TOKENS
  ∧ mapFinishReason "tool_calls" = STOP
  ∧ mapFinishReason "content_filter" = SAFETY
  ∧ mapFinishReason "" = OTHER
  ∧ (∀ s, s ≠ "stop" → s ≠ "length" → s ≠ "tool_calls" →
          s ≠ "content_filter" → mapFinishReason s = OTHER)
  ∧ (∀ completion r,
       convertToGeminiFormat completion = Ok r →
       ∃ choice, head (choices completion) = Some choice ∧
         finishReason <$> candidates r
         = [Some (mapFinishReason (finish_reason choice))])
  ∧ (∀ chunk r c fr,
       convertStreamChunkToGeminiFormat chunk = Ok r →
       c ∈ candidates r → finishReason c = Some fr →
       ∃ choice s, head (ck_choices chunk) = Some choice ∧
         ck_finish_reason choice = Some s ∧ fr = mapFinishReason s)
  ∧ (∀ chunk r choice s,
       convertStreamChunkToGeminiFormat chunk = Ok r →
       head (ck_choices chunk) = Some choice →
       ck_finish_reason choice = Some s → s ≠ "" →
       finishReason <$> candidates r = [Some (mapFinishReason s)])
  ∧ (∀ chunk r choice,
       convertStreamChunkToGeminiFormat chunk = Ok r →
       head (ck_choices chunk) = Some choice →
       ck_finish_reason choice = None
       ∨ ck_finish_reason choice = Some EmptyString →
       finishReason <$> candidates r = [None]).
Proof.
  split_and!; try done; cycle 3.
  { intros chunk r choice s. unfold convertStreamChunkToGeminiFormat.
    destruct (ck_choices chunk) as [|choice' rest]; [done|].
    intros H [= ->] Hs Hne. apply convertChunkChoice_finishReason in H.
    rewrite H, Hs. simpl. unfold truthy.
    by destruct (String.eqb_spec s ""). }
  { intros chunk r choice. unfold convertStreamChunkToGeminiFormat.
    destruct (ck_choices chunk) as [|choice' rest]; [done|].
    intros H [= ->] Hs. apply convertChunkChoice_finishReason in H.
    rewrite H. by destruct Hs as [-> | ->]. }
  - intros s H1 H2 H3 H4. unfold mapFinishReason.
    destruct (String.eqb_spec s "stop"); [done|].
    destruct (String.eqb_spec s "length"); [done|].
    destruct (String.eqb_spec s "tool_calls"); [done|].
    by destruct (String.eqb_spec s "content_filter").
  - intros completion r. unfold convertToGeminiFormat.
    destruct (choices completion) as [|choice rest]; [done|].
    intros H. exists choice. split; [done|].
    by eapply convertChoice_finishReason.
  - intros chunk r c fr. unfold convertStreamChunkToGeminiFormat.
    destruct (ck_choices chunk) as [|choice rest].
    + intros [= <-] Hc. inversion Hc.
    + intros H Hc Hfr. apply convertChunkChoice_finishReason in H.
      destruct (candidates r) as [|c0 [|? ?]]; try done.
      apply list_elem_of_singleton in Hc as ->.
      injection H as H. rewrite Hfr in H.
      destruct (ck_finish_reason choice) as [s|] eqn:Hs; [|done].
      exists choice, s. split; [done|]. split; [done|].
      simpl in H. destruct (truthy s); [by injection H | done].
Qed.

Lemma mapFinishReason_table_witness : mapFinishReason "function_call" = OTHER.
Proof.
  apply (proj1 (proj2 (proj2 (proj2 (proj2 (proj2 mapFinishReason_table))))));
    discriminate.
Defined.

(** C3, as stated: every response with at least one choice is
    translated without an error.  It fails on a response whose first
    choice carries a tool call with malformed arguments: [JSON.parse]
    throws. *)
Lemma malformed_arguments_throw :
  choices malformedArguments ≠ []
  ∧ convertToGeminiFormat malformedArguments = Throw SyntaxError
  ∧ ¬ ∃ r, convertToGeminiFormat malformedArguments = Ok r.
Proof.
  split_and!; [done | by vm_compute |].
  intros [r H]. vm_compute in H. discriminate H.
Qed.

(** C3, amended: the translation of a full response raises
    [EmptyResponseError] exactly when the response has no choice; with
    at least one choice it translates the first choice only, and it
    returns normally exactly when [JSON.parse] accepts the arguments of
    every function tool call of that choice (empty arguments standing
    for an empty object); otherwise the error of [JSON.parse] is
    raised. *)
Theorem convertToGeminiFormat_errors (completion : ChatCompletion) :
  (convertToGeminiFormat completion = Throw EmptyResponseError
   ↔ choices completion = [])
  ∧ (∀ choice rest, choices completion = choice :: rest →
       convertToGeminiFormat completion
       = convertToGeminiFormat {| choices := [choice]; usage := usage completion |}
       ∧ (choiceParsable choice → ∃ r, convertToGeminiFormat completion = Ok r)
       ∧ (¬ choiceParsable choice →
          convertToGeminiFormat completion = Throw SyntaxError)).
Proof.
  unfold convertToGeminiFormat. split.
  - destruct (choices completion) as [|choice rest]; [done|].
    split; [|done]. intros H.
    by destruct (convertChoice_cases (usage completion) choice)
      as [[_ [r Hr]]|[_ Hr]]; rewrite Hr in H.
  - intros choice rest ->. simpl. split; [done|].
    destruct (convertChoice_cases (usage completion) choice)
      as [[Hp [r Hr]]|[Hn Hr]]; rewrite Hr.
    + split; [by eexists | done].
    + split; [done | done].
Qed.

Lemma convertToGeminiFormat_errors_witness :
  convertToGeminiFormat malformedArguments = Throw SyntaxError.
Proof.
  refine (proj2 (proj2 (proj2 (convertToGeminiFormat_errors malformedArguments)
                          _ [] eq_refl)) _).
  intros H. specialize (H _ eq_refl).
  apply Forall_cons in H as [H _]. specialize (H eq_refl).
  vm_compute in H. by destruct H.
Defined.

(** C7. A chunk without choices is translated into a response with an
    empty candidate list, without an error, whereas a full response
    without choices raises [EmptyResponseError]. *)
Theorem chunk_without_choices :
  convertStreamChunkToGeminiFormat {| ck_choices := [] |}
  = Ok {| candidates := []; usageMetadata := None |}
  ∧ (∀ u, convertToGeminiFormat {| choices := []; usage := u |}
          = Throw EmptyResponseError).
Proof. done. Qed.

(** ** Properties of the outbound translator *)

Section outbound.

Lemma append_String (c : ascii) (a b : string) :
  String c a +:+ b = String c (a +:+ b).
Proof. done. Qed.

Lemma append_inj (a b b' : string) : a +:+ b = a +:+ b' → b = b'.
Proof.
  induction a as [|c a IH]; [done|].
  intros H. change (String c (a +:+ b) = String c (a +:+ b')) in H.
  injection H as H. by apply IH.
Qed.

(** The text before the first underscore is determined by the whole. *)
Lemma split_underscore (a a' b b' : string) :
  plain a → plain a' →
  a +:+ "_" +:+ b = a' +:+ "_" +:+ b' → a = a' ∧ b = b'.
Proof.
  revert a'. induction a as [|c a IH]; intros [|c' a'] Ha Ha'.
  - intros H. change (String "_" b = String "_" b') in H.
    injection H as H. by subst.
  - intros H. change (String "_" b = String c' (a' +:+ "_" +:+ b')) in H.
    injection H as Hc _. destruct Ha' as [Hc' _]. congruence.
  - intros H. change (String c (a +:+ "_" +:+ b) = String "_" b') in H.
    injection H as Hc _. destruct Ha as [Hc' _]. congruence.
  - intros H.
    change (String c (a +:+ "_" +:+ b) = String c' (a' +:+ "_" +:+ b')) in H.
    injection H as Hc H. destruct Ha as [_ Ha], Ha' as [_ Ha'].
    destruct (IH a' Ha Ha' H) as [-> ->]. by subst.
Qed.

Lemma pretty_N_go_plain (x : N) (s : string) :
  plain s → plain (pretty_N_go x s).
Proof.
  revert s. induction (N.lt_wf_0 x) as [x _ IH]; intros s Hs.
  destruct (decide (x = 0%N)) as [->|Hx]; [by rewrite pretty_N_go_0|].
  rewrite pretty_N_go_step by lia. apply IH.
  - apply N.div_lt; lia.
  - split; [|done]. unfold pretty_N_char. by repeat case_match.
Qed.

Lemma pretty_N_plain (x : N) : plain (pretty x).
Proof.
  unfold pretty, pretty_N. case_decide; [done|]. by apply pretty_N_go_plain.
Qed.

Lemma pretty_Z_plain (z : Z) : plain (pretty z).
Proof.
  destruct z as [|p|p]; [done | apply pretty_N_plain |].
  split; [done | apply pretty_N_plain].
Qed.

(** Different positions give different ids, whatever the clock
    reads. *)
Lemma callId_inj (now now' : Z) (index index' : nat) :
  callId now index = callId now' index' → now = now' ∧ index = index'.
Proof.
  unfold callId. intros H%append_inj.
  apply split_underscore in H as [Hn Hi]; [|apply pretty_Z_plain..].
  split; [by apply (inj pretty) | by apply (inj pretty)].
Qed.

(** The ids of the tool calls of one turn. *)
Lemma mapToolCalls_ids (clk : Clock) (index : nat) (fcs : list FunctionCall) :
  tc_id <$> (mapToolCalls clk index fcs).1
  = imap (fun k _ => callId (clk k) (index + k)) fcs.
Proof.
  revert clk index. induction fcs as [|fc fcs IH]; intros clk index; [done|].
  cbn [mapToolCalls Date_now].
  destruct (mapToolCalls (fun n => clk (S n)) (S index) fcs) as [tcs clk2] eqn:E.
  cbn [fst fmap list_fmap tc_id imap]. f_equal.
  - unfold callId. by rewrite Nat.add_0_r.
  - change tcs with (tcs, clk2).1. rewrite <- E, IH.
    apply imap_ext. intros k ? _. simpl. by rewrite Nat.add_succ_r.
Qed.

Lemma mapToolCalls_length (clk : Clock) (index : nat) (fcs : list FunctionCall) :
  length (mapToolCalls clk index fcs).1 = length fcs.
Proof.
  rewrite <- (length_fmap tc_id), mapToolCalls_ids. apply length_imap.
Qed.

Lemma mapToolCalls_names (clk : Clock) (index : nat) (fcs : list FunctionCall) :
  (fn_name ∘ tc_function) <$> (mapToolCalls clk index fcs).1 = fc_name <$> fcs.
Proof.
  revert clk index. induction fcs as [|fc fcs IH]; intros clk index; [done|].
  cbn [mapToolCalls Date_now].
  destruct (mapToolCalls (fun n => clk (S n)) (S index) fcs) as [tcs clk2] eqn:E.
  cbn [fst fmap list_fmap]. f_equal.
  change tcs with (tcs, clk2).1. by rewrite <- E, IH.
Qed.

(** Within one turn the synthesized ids are pairwise different. *)
Lemma mapToolCalls_NoDup (clk : Clock) (index : nat) (fcs : list FunctionCall) :
  NoDup (tc_id <$> (mapToolCalls clk index fcs).1).
Proof.
  rewrite mapToolCalls_ids. apply NoDup_alt. intros i j x Hi Hj.
  apply list_lookup_imap_Some in Hi as (? & _ & ->).
  apply list_lookup_imap_Some in Hj as (? & _ & H).
  apply callId_inj in H as [_ H]. lia.
Qed.

(** The function calls of one turn go into exactly one assistant
    message with a null content and one tool call per function call. *)
Lemma convertContent_function_calls (clk : Clock) (c : Content)
    (r : string) (ps : list Part) :
  c_role c = Some r → r = "user" ∨ r = "model" → c_parts c = Some ps →
  omap functionCall ps ≠ [] →
  ∃ tcs,
    filter (fun m => is_Some (tool_calls m)) (convertContent clk (AContent c)).1
    = [{| role := assistant; content := None;
          tool_calls := Some tcs; tool_call_id := None |}]
    ∧ (fn_name ∘ tc_function) <$> tcs = fc_name <$> omap functionCall ps
    ∧ length tcs = length (omap functionCall ps)
    ∧ NoDup (tc_id <$> tcs).
Proof.
  intros Hr Hrole Hp Hne.
  exists (mapToolCalls clk 0 (omap functionCall ps)).1.
  split_and!; [| apply mapToolCalls_names | apply mapToolCalls_length
               | apply mapToolCalls_NoDup].
  unfold convertContent. rewrite Hr, Hp.
  change (default [] (Some ps)) with ps.
  replace (bool_decide (r = "user") || bool_decide (r = "model")) with true
    by (destruct Hrole as [-> | ->]; done).
  assert (0 < length (omap functionCall ps)) as Hlen
    by (destruct (omap functionCall ps); [done | simpl; lia]).
  rewrite (bool_decide_true _ Hlen).
  destruct (mapToolCalls clk 0 (omap functionCall ps)) as [tcs clk1].
  cbn [fst]. rewrite !filter_app.
  replace (filter _ (if truthy _ then _ else _)) with (@nil OpenAIMessage).
  2:{ destruct (truthy _); [|done]. rewrite filter_cons, decide_False; [done|].
      simpl. by intros [? ?]. }
  replace (filter _ (map toolMessage _)) with (@nil OpenAIMessage).
  2:{ induction (omap functionResponse ps) as [|fr frs IH]; [done|].
      simpl. rewrite filter_cons, decide_False; [done|].
      simpl. by intros [? ?]. }
  rewrite app_nil_r. simpl.
  rewrite filter_cons, decide_True by (simpl; eauto). done.
Qed.

End outbound.

(** ** The claim about the outbound translator *)

(** C4. Every synthesized tool-call id should be unique within the
    whole translated message list.  Within one turn the ids differ by
    their index, but the index restarts at zero in every turn and the
    clock need not have advanced: two turns translated within the same
    millisecond get the same id. *)
Theorem synthesized_ids_repeat_across_turns :
  toolCallIds
    (messages (convertGeminiParametersToOpenAI sameMillisecond twoCallTurns "m").1)
  = ["call_1700000000000_0"; "call_1700000000000_0"]
  ∧ ¬ NoDup
      (toolCallIds
         (messages
            (convertGeminiParametersToOpenAI sameMillisecond twoCallTurns "m").1)).
Proof.
  assert (toolCallIds
            (messages
               (convertGeminiParametersToOpenAI sameMillisecond twoCallTurns "m").1)
          = ["call_1700000000000_0"; "call_1700000000000_0"]) as E by by vm_compute.
  split; [done|]. rewrite E. intros H.
  apply NoDup_cons in H as [H _]. apply H. by left.
Qed.

(** ** Further properties of [cleanOrphanedToolCalls] *)

Section clean_more.
Implicit Types (ms part : list OpenAIMessage) (m a t : OpenAIMessage)
  (tc : OpenAIToolCall).

(** A message that is not a tool message is kept, with at most its
    [tool_calls] field changed. *)
Lemma cleaned_non_tool ms m :
  role m ≠ tool →
  ∃ m', cleaned ms [m] = [m']
        ∧ withoutToolCalls m' = withoutToolCalls m
        ∧ (role m ≠ assistant → m' = m).
Proof.
  intros Hr. destruct (decide (role m = assistant)) as [Ha|Ha];
    [destruct (tool_calls m) as [tcs|] eqn:Ht|].
  - rewrite (cleaned_assistant _ _ _ Ha Ht). by eexists.
  - rewrite cleaned_other by done. by eexists.
  - rewrite cleaned_other by done. by eexists.
Qed.

Lemma withoutToolCalls_role m m' :
  withoutToolCalls m' = withoutToolCalls m → role m' = role m.
Proof. by intros [= ? _ _]. Qed.

Lemma cleaned_filter_tool ms part :
  filter (fun m => role m = tool) (cleaned ms part)
  = filter (fun m => role m = tool ∧ keptTool ms m) part.
Proof.
  induction part as [|m part IH]; [done|].
  rewrite cleaned_cons, filter_app, IH, (filter_cons _ m).
  destruct (decide (role m = tool)) as [Hr|Hr].
  - rewrite (cleaned_tool _ _ Hr). destruct (decide (keptTool ms m)).
    + rewrite filter_cons, !decide_True by done. done.
    + rewrite decide_False by tauto. done.
  - rewrite (decide_False (P := _ ∧ _)) by tauto.
    destruct (cleaned_non_tool ms m Hr) as (m' & -> & Hw%withoutToolCalls_role & _).
    rewrite filter_cons, decide_False by congruence. done.
Qed.

Lemma cleaned_filter_non_tool ms part :
  withoutToolCalls <$> filter (fun m => role m ≠ tool) (cleaned ms part)
  = withoutToolCalls <$> filter (fun m => role m ≠ tool) part.
Proof.
  induction part as [|m part IH]; [done|].
  rewrite cleaned_cons, filter_app, fmap_app, IH, (filter_cons _ m).
  destruct (decide (role m = tool)) as [Hr|Hr].
  - rewrite (cleaned_tool _ _ Hr), (decide_False (P := role m ≠ tool))
      by (intros Hn; by apply Hn).
    destruct (decide (keptTool ms m)); [|done].
    rewrite filter_cons, decide_False by (intros Hn; by apply Hn). done.
  - rewrite decide_True by done.
    destruct (cleaned_non_tool ms m Hr) as (m' & -> & Hw & _).
    pose proof (withoutToolCalls_role _ _ Hw) as Hrole.
    rewrite filter_cons, decide_True by congruence.
    simpl. by rewrite Hw.
Qed.

Lemma cleaned_filter_plain ms part :
  filter (fun m => role m = system ∨ role m = user) (cleaned ms part)
  = filter (fun m => role m = system ∨ role m = user) part.
Proof.
  induction part as [|m part IH]; [done|].
  rewrite cleaned_cons, filter_app, IH, (filter_cons _ m).
  destruct (decide (role m = tool)) as [Hr|Hr].
  - rewrite (cleaned_tool _ _ Hr),
      (decide_False (P := role m = system ∨ role m = user))
      by (intros [?|?]; congruence).
    destruct (decide (keptTool ms m)); [|done].
    rewrite filter_cons, decide_False by (intros [?|?]; congruence). done.
  - destruct (cleaned_non_tool ms m Hr) as (m' & -> & Hw & Hsame).
    pose proof (withoutToolCalls_role _ _ Hw) as Hrole.
    destruct (decide (role m = system ∨ role m = user)) as [Hp|Hp].
    + rewrite Hsame by (intros ?; destruct Hp; congruence).
      by rewrite filter_cons, decide_True.
    + rewrite filter_cons, decide_False by (rewrite Hrole; done). done.
Qed.

Lemma not_answered_without_tools ms tc :
  (∀ m, m ∈ ms → role m ≠ tool) → ¬ answered ms tc.
Proof.
  intros Hno (t & Ht & Hr & _)%Exists_exists. by apply (Hno t).
Qed.

Lemma filter_none {A} (P : A → Prop) `{!∀ x, Decision (P x)} (l : list A) :
  (∀ x, x ∈ l → ¬ P x) → filter P l = [].
Proof.
  induction l as [|x l IH]; intros Hall; [done|].
  rewrite filter_cons, decide_False by (apply Hall; by left).
  apply IH. intros y ?. apply Hall. by right.
Qed.

Lemma cleaned_without_tools ms part :
  (∀ m, m ∈ ms → role m ≠ tool) → (∀ m, m ∈ part → m ∈ ms) →
  cleaned ms part
  = (fun m => if decide (role m = assistant) then withoutToolCalls m else m)
      <$> part.
Proof.
  intros Hno. induction part as [|m part IH]; intros Hsub; [done|].
  rewrite cleaned_cons, IH by (intros x ?; apply Hsub; by right).
  rewrite fmap_cons. change (?x :: ?l) with ([x] ++ l) at 2. f_equal.
  assert (role m ≠ tool) as Hr by (apply Hno, Hsub; by left).
  destruct (decide (role m = assistant)) as [Ha|Ha];
    [destruct (tool_calls m) as [tcs|] eqn:Ht|].
  - rewrite (cleaned_assistant _ _ _ Ha Ht), filter_none; [done|].
    intros tc _. by apply not_answered_without_tools.
  - rewrite cleaned_other by done. unfold withoutToolCalls.
    by rewrite with_tool_calls_id.
  - by rewrite cleaned_other.
Qed.

End clean_more.

(** X1. The output of [cleanOrphanedToolCalls] satisfies the pairing
    invariant (every tool message answers a tool call of an assistant
    message and every such tool call is answered) exactly when the input
    does not use the empty id both on a tool call of an assistant
    message and on a tool message. *)
Theorem clean_pairs_exactly_without_empty_id (ms : list OpenAIMessage) :
  paired (cleanOrphanedToolCalls ms) ↔ ¬ emptyIdPair ms.
Proof. apply cleaned_paired_iff. Qed.

(** X2. Applying [cleanOrphanedToolCalls] twice gives the same list as
    applying it once exactly when the input does not use the empty id
    both on a tool call of an assistant message and on a tool message. *)
Theorem clean_idempotent_exactly_without_empty_id (ms : list OpenAIMessage) :
  cleanOrphanedToolCalls (cleanOrphanedToolCalls ms) = cleanOrphanedToolCalls ms
  ↔ ¬ emptyIdPair ms.
Proof. apply clean_twice_iff. Qed.

(** X3. [cleanOrphanedToolCalls] leaves a list unchanged exactly when
    the list is paired, no tool message has the empty id and no
    assistant message has an empty [tool_calls] array. *)
Theorem clean_fixed_points (ms : list OpenAIMessage) :
  cleanOrphanedToolCalls ms = ms
  ↔ paired ms
    ∧ (∀ t, t ∈ ms → role t = tool → tool_call_id t ≠ Some "")
    ∧ (∀ a, a ∈ ms → role a = assistant → tool_calls a ≠ Some []).
Proof.
  split.
  - intros Heq. split_and!.
    + split.
      * intros t Hin Hr. rewrite <- Heq in Hin |- *.
        by apply cleaned_tools_requested.
      * intros a tc Hin Hcar. rewrite <- Heq in Hin.
        by destruct (carries_cleaned _ _ _ Hin Hcar) as [? _].
    + intros t Hin Hr Hid. rewrite <- Heq in Hin.
      apply (tool_cleaned _ _ Hr) in Hin as (_ & i & Hi & Hne & _).
      congruence.
    + intros a Hin Hr. rewrite <- Heq in Hin.
      by apply (cleaned_no_empty_tool_calls ms).
  - intros ([Ha Hb] & Hid & He). apply cleaned_unchanged; [done| |done].
    intros t Hin Hr.
    destruct (Ha t Hin Hr) as (a & tc & Hain & Hcar & _ & Ht).
    exists (tc_id tc). split_and!; [done | |].
    + intros Hempty. apply (Hid t Hin Hr). by rewrite Ht, Hempty.
    + apply collectToolCallIds_spec. by exists a, tc.
Qed.

Lemma sameButToolCalls_refl (m : OpenAIMessage) : sameButToolCalls m m.
Proof. by unfold sameButToolCalls. Qed.

(** What the second loop pushes for one message that it does not
    drop. *)
Lemma cleaned_survivor (ms : list OpenAIMessage) (m : OpenAIMessage) :
  survives ms m → ∃ m', cleaned ms [m] = [m'] ∧ sameButToolCalls m m'.
Proof.
  intros Hs. destruct (decide (role m = tool)) as [Hr|Hr].
  { destruct Hs as [Hs|Hs]; [done|]. rewrite (cleaned_tool _ _ Hr).
    rewrite decide_True by done. eexists. split; [done|].
    apply sameButToolCalls_refl. }
  destruct (decide (role m = assistant)) as [Ha|Ha];
    [destruct (tool_calls m) as [tcs|] eqn:Ht|].
  - rewrite (cleaned_assistant _ _ _ Ha Ht). eexists. split; [done|].
    unfold sameButToolCalls. cbn [with_tool_calls role content tool_calls
                                  tool_call_id]. rewrite Ht.
    split_and!; [done..| |done].
    destruct (filter (answered ms) tcs) as [|tc l] eqn:Hf; cbn [nonEmpty default].
    + apply sublist_nil_l.
    + rewrite <- Hf. apply sublist_filter.
  - rewrite cleaned_other by done. eexists. split; [done|].
    apply sameButToolCalls_refl.
  - rewrite cleaned_other by done. eexists. split; [done|].
    apply sameButToolCalls_refl.
Qed.

(** The second loop walks the messages in order: it pushes one message
    for each message that it does not drop, and nothing else. *)
Lemma cleaned_in_place (ms part : list OpenAIMessage) :
  Forall2 sameButToolCalls (filter (survives ms) part) (cleaned ms part).
Proof.
  induction part as [|m part IH]; [constructor|].
  rewrite cleaned_cons, filter_cons.
  destruct (decide (survives ms m)) as [Hs|Hs].
  - destruct (cleaned_survivor ms m Hs) as (m' & -> & Hm).
    by constructor.
  - assert (role m = tool ∧ ¬ keptTool ms m) as [Hr Hk].
    { unfold survives in Hs. split; [|tauto].
      destruct (decide (role m = tool)); [done|tauto]. }
    rewrite (cleaned_tool _ _ Hr), decide_False by done. done.
Qed.

(** X4. [cleanOrphanedToolCalls] removes nothing but tool messages and
    changes nothing but [tool_calls] fields.  The output is the input
    without the tool messages that fail the test, message for message:
    each message of the output stands where the message it comes from
    stood among those that are kept, has its role, content and
    [tool_call_id], carries tool calls of that message only, in their
    order, and is that very message unless it is an assistant message.
    In particular, the tool messages of the output are those of the
    input that pass the test, unchanged and in order; the other messages
    are all kept in order, equal to the originals up to their
    [tool_calls] field; system and user messages are kept as they
    are. *)
Theorem clean_only_touches_tools (ms : list OpenAIMessage) :
  Forall2 sameButToolCalls (filter (survives ms) ms) (cleanOrphanedToolCalls ms)
  ∧ filter (fun m => role m = tool) (cleanOrphanedToolCalls ms)
    = filter (fun m => role m = tool ∧ keptTool ms m) ms
  ∧ withoutToolCalls <$> filter (fun m => role m ≠ tool) (cleanOrphanedToolCalls ms)
    = withoutToolCalls <$> filter (fun m => role m ≠ tool) ms
  ∧ filter (fun m => role m = system ∨ role m = user) (cleanOrphanedToolCalls ms)
    = filter (fun m => role m = system ∨ role m = user) ms.
Proof.
  rewrite cleanOrphanedToolCalls_cleaned. split_and!.
  - apply cleaned_in_place.
  - apply cleaned_filter_tool.
  - apply cleaned_filter_non_tool.
  - apply cleaned_filter_plain.
Qed.

(** X5. On a history without any tool message, [cleanOrphanedToolCalls]
    keeps every message and strips the [tool_calls] field from every
    assistant message. *)
Theorem clean_strips_all_without_tools (ms : list OpenAIMessage) :
  (∀ m, m ∈ ms → role m ≠ tool) →
  cleanOrphanedToolCalls ms
  = (fun m => if decide (role m = assistant) then withoutToolCalls m else m)
      <$> ms.
Proof.
  intros Hno. rewrite cleanOrphanedToolCalls_cleaned.
  by apply cleaned_without_tools.
Qed.

Lemma clean_strips_all_without_tools_witness :
  cleanOrphanedToolCalls
    [assistantMessage (Some "hi") (Some [call "a"]);
     {| role := user; content := Some "go on"; tool_calls := None;
        tool_call_id := None |}]
  = [assistantMessage (Some "hi") None;
     {| role := user; content := Some "go on"; tool_calls := None;
        tool_call_id := None |}].
Proof.
  apply (clean_strips_all_without_tools
           [assistantMessage (Some "hi") (Some [call "a"]);
            {| role := user; content := Some "go on"; tool_calls := None;
               tool_call_id := None |}]).
  intros m Hm. repeat (apply elem_of_cons in Hm as [-> | Hm]; [discriminate|]).
  inversion Hm.
Defined.

(** ** Further properties of [mergeConsecutiveAssistantMessages] *)

Section merge_more.
Implicit Types (ms : list OpenAIMessage) (m cur : OpenAIMessage)
  (c : option OpenAIMessage) (tc : OpenAIToolCall).

Lemma runToolCalls_app (xs ys : list OpenAIMessage) :
  runToolCalls (xs ++ ys) = runToolCalls xs ++ runToolCalls ys.
Proof. unfold runToolCalls. by rewrite map_app, concat_app. Qed.

Lemma runToolCalls_cons m ms :
  runToolCalls (m :: ms) = default [] (tool_calls m) ++ runToolCalls ms.
Proof. done. Qed.

Lemma mergeFlush_option_list c : mergeFlush ([], c) = option_list c.
Proof. by destruct c. Qed.

Lemma pending_tool_calls c m :
  runToolCalls [from_option (fun x => mergeAssistant x m) m c]
  = runToolCalls (option_list c ++ [m]).
Proof.
  destruct c as [cur|]; [|done].
  unfold runToolCalls. simpl. by rewrite !app_nil_r.
Qed.

(** The tool calls of all messages, in order, before and after the
    loop. *)
Lemma mergeFrom_runToolCalls c ms :
  runToolCalls (mergeFrom c ms) = runToolCalls (option_list c ++ ms).
Proof.
  revert c. induction ms as [|m ms IH]; intros c.
  - simpl. by rewrite mergeFlush_option_list, app_nil_r.
  - rewrite mergeFrom_cons. destruct (decide (role m = assistant)).
    + rewrite IH.
      change (option_list (Some ?x) ++ ms) with ([x] ++ ms).
      change (m :: ms) with ([m] ++ ms).
      rewrite app_assoc, !runToolCalls_app, pending_tool_calls.
      by rewrite runToolCalls_app.
    + rewrite mergeFlush_option_list, runToolCalls_app, runToolCalls_cons, (IH None).
      change (option_list None ++ ms) with ms.
      by rewrite (runToolCalls_app _ (m :: ms)), runToolCalls_cons.
Qed.

Lemma pendingAssistant_next c m :
  role m = assistant →
  pendingAssistant (Some (from_option (fun x => mergeAssistant x m) m c)).
Proof. intros Hm cur [= <-]. by destruct c. Qed.

Lemma filter_option_list_assistant (P : OpenAIMessage → Prop)
    `{!∀ x, Decision (P x)} c :
  pendingAssistant c → (∀ x, P x → role x ≠ assistant) →
  filter P (option_list c) = [].
Proof.
  intros Hc HP. destruct c as [cur|]; [|done]. simpl.
  rewrite filter_cons, decide_False; [done|].
  intros Hcur. by apply (HP cur Hcur), Hc.
Qed.

(** The messages that are not assistant messages, before and after the
    loop. *)
Lemma mergeFrom_filter_notAssistant c ms :
  pendingAssistant c →
  filter notAssistant (mergeFrom c ms) = filter notAssistant ms.
Proof.
  revert c. induction ms as [|m ms IH]; intros c Hc.
  - simpl. rewrite mergeFlush_option_list.
    by apply filter_option_list_assistant.
  - rewrite mergeFrom_cons, (filter_cons _ m).
    destruct (decide (role m = assistant)) as [Hm|Hm].
    + rewrite IH by by apply pendingAssistant_next.
      by rewrite decide_False by (intros Hn; by apply Hn).
    + rewrite decide_True by done.
      rewrite mergeFlush_option_list, filter_app, filter_cons, decide_True by done.
      rewrite filter_option_list_assistant by done.
      rewrite IH by by intros ? [=]. done.
Qed.

Lemma mergeFrom_length c ms :
  length (mergeFrom c ms) ≤ length (option_list c) + length ms.
Proof.
  revert c. induction ms as [|m ms IH]; intros c.
  - simpl. rewrite mergeFlush_option_list. lia.
  - rewrite mergeFrom_cons. destruct (decide (role m = assistant)).
    + etrans; [apply IH|]. destruct c; simpl; lia.
    + rewrite mergeFlush_option_list, length_app. simpl.
      specialize (IH None). simpl in IH. lia.
Qed.

(** The tool calls of the assistant messages, in order, before and
    after the loop. *)
Lemma mergeFrom_assistant_tool_calls c ms :
  pendingAssistant c →
  runToolCalls (filter (fun m => role m = assistant) (mergeFrom c ms))
  = runToolCalls (filter (fun m => role m = assistant) (option_list c ++ ms)).
Proof.
  revert c. induction ms as [|m ms IH]; intros c Hc.
  - simpl. by rewrite mergeFlush_option_list, app_nil_r.
  - rewrite mergeFrom_cons. destruct (decide (role m = assistant)) as [Hm|Hm].
    + rewrite IH by by apply pendingAssistant_next.
      cbn [option_list]. rewrite !filter_app, (filter_cons _ m).
      rewrite decide_True by done.
      assert (filter (fun m0 => role m0 = assistant) (option_list c) = option_list c)
        as ->.
      { destruct c as [cur|]; [|done]. simpl.
        rewrite filter_cons, decide_True by by apply Hc. done. }
      change (option_list (Some ?x)) with [x].
      rewrite (filter_cons _ _ []), decide_True by (by destruct c).
      rewrite filter_nil.
      change (m :: ?l) with ([m] ++ l).
      rewrite app_assoc, !runToolCalls_app, pending_tool_calls.
      by rewrite runToolCalls_app.
    + rewrite mergeFlush_option_list, !filter_app, !(filter_cons _ m).
      rewrite !decide_False by done.
      rewrite !runToolCalls_app. f_equal.
      rewrite IH by by intros ? [=]. done.
Qed.

Lemma elem_of_runToolCalls ms tc :
  tc ∈ runToolCalls ms ↔ ∃ a, a ∈ ms ∧ tc ∈ default [] (tool_calls a).
Proof.
  induction ms as [|m ms IH].
  - split; [intros H; inversion H | intros (a & H & _); inversion H].
  - rewrite runToolCalls_cons, elem_of_app, IH. split.
    + intros [?|(a & ? & ?)]; [exists m | exists a]; split; auto; by constructor.
    + intros (a & [-> | ?]%elem_of_cons & ?); eauto.
Qed.

Lemma carried_runToolCalls ms tc :
  carried ms tc
  ↔ tc ∈ runToolCalls (filter (fun m => role m = assistant) ms).
Proof.
  unfold carried, carries. rewrite elem_of_runToolCalls. split.
  - intros (a & Hin & Hr & tcs & Ht & Hel).
    exists a. split; [by apply list_elem_of_filter | by rewrite Ht].
  - intros (a & [Hr Hin]%list_elem_of_filter & Hel).
    exists a. split; [done|]. split; [done|].
    destruct (tool_calls a) as [tcs|]; [by exists tcs | inversion Hel].
Qed.

Lemma merge_carried ms tc :
  carried (mergeConsecutiveAssistantMessages ms) tc ↔ carried ms tc.
Proof.
  rewrite !carried_runToolCalls, merge_mergeFrom.
  by rewrite mergeFrom_assistant_tool_calls by by intros ? [=].
Qed.

Lemma merge_tool_messages ms t :
  role t = tool → (t ∈ mergeConsecutiveAssistantMessages ms ↔ t ∈ ms).
Proof.
  intros Hr.
  assert (notAssistant t) as Hn by (unfold notAssistant; congruence).
  pose proof (mergeFrom_filter_notAssistant None ms) as Hf.
  rewrite <- merge_mergeFrom in Hf. specialize (Hf ltac:(by intros ? [=])).
  split; intros Hin.
  - assert (t ∈ filter notAssistant (mergeConsecutiveAssistantMessages ms)) as H
      by by apply list_elem_of_filter.
    rewrite Hf in H. by apply list_elem_of_filter in H as [_ ?].
  - assert (t ∈ filter notAssistant ms) as H by by apply list_elem_of_filter.
    rewrite <- Hf in H. by apply list_elem_of_filter in H as [_ ?].
Qed.

Lemma merge_paired_iff ms :
  paired (mergeConsecutiveAssistantMessages ms) ↔ paired ms.
Proof.
  assert (∀ xs ys : list OpenAIMessage,
            (∀ t, role t = tool → (t ∈ xs ↔ t ∈ ys)) →
            (∀ tc, carried xs tc ↔ carried ys tc) →
            paired xs → paired ys) as Htransfer.
  { intros xs ys Htool Hcar [Ha Hb]. split.
    - intros t Hin Hr. apply (Htool t Hr) in Hin.
      destruct (Ha t Hin Hr) as (a & tc & Hain & Hc & Hans).
      destruct (proj1 (Hcar tc)) as (a' & ? & ?); [by exists a|].
      by exists a', tc.
    - intros a tc Hin Hc.
      destruct (proj2 (Hcar tc)) as (a' & Ha' & Hc'); [by exists a|].
      specialize (Hb a' tc Ha' Hc').
      apply Exists_exists in Hb as (t & Ht & Hans).
      apply Exists_exists. exists t. split; [|done].
      apply Htool; [by destruct Hans | done]. }
  split; apply Htransfer;
    intros; by rewrite ?merge_tool_messages, ?merge_carried.
Qed.

End merge_more.

(** X6. [mergeConsecutiveAssistantMessages] neither loses, duplicates
    nor reorders tool calls: the [tool_calls] arrays of all messages,
    concatenated in order, are the same before and after. *)
Theorem merge_keeps_tool_calls (ms : list OpenAIMessage) :
  runToolCalls (mergeConsecutiveAssistantMessages ms) = runToolCalls ms.
Proof. rewrite merge_mergeFrom. apply mergeFrom_runToolCalls. Qed.

(** X7. [mergeConsecutiveAssistantMessages] keeps every message that is
    not an assistant message, unchanged and in order, and never makes the
    list longer. *)
Theorem merge_keeps_other_messages (ms : list OpenAIMessage) :
  filter notAssistant (mergeConsecutiveAssistantMessages ms)
  = filter notAssistant ms
  ∧ length (mergeConsecutiveAssistantMessages ms) ≤ length ms.
Proof.
  rewrite merge_mergeFrom. split.
  - apply mergeFrom_filter_notAssistant. by intros ? [=].
  - apply (mergeFrom_length None).
Qed.

(** X8. [mergeConsecutiveAssistantMessages] leaves a list unchanged
    exactly when the list has no two adjacent assistant messages. *)
Theorem merge_fixed_points (ms : list OpenAIMessage) :
  mergeConsecutiveAssistantMessages ms = ms ↔ noAdjacentAssistants ms.
Proof.
  split.
  - intros <-. apply merge_noAdjacent.
  - apply merge_unchanged.
Qed.

(** X9. Merging preserves the pairing invariant in both directions: the
    merged list is paired exactly when the original list is. *)
Theorem merge_preserves_pairing (ms : list OpenAIMessage) :
  paired (mergeConsecutiveAssistantMessages ms) ↔ paired ms.
Proof. apply merge_paired_iff. Qed.

(** X10. Cleaning and then merging a history that does not use the empty
    id on both sides gives a history that is paired and has no two
    adjacent assistant messages. *)
Theorem clean_then_merge (ms : list OpenAIMessage) :
  ¬ emptyIdPair ms →
  paired (mergeConsecutiveAssistantMessages (cleanOrphanedToolCalls ms))
  ∧ noAdjacentAssistants
      (mergeConsecutiveAssistantMessages (cleanOrphanedToolCalls ms)).
Proof.
  intros Hno. split; [|apply merge_noAdjacent].
  by apply merge_paired_iff, cleaned_paired_iff.
Qed.

Lemma clean_then_merge_witness :
  paired (mergeConsecutiveAssistantMessages
            (cleanOrphanedToolCalls
               [assistantMessage (Some "a") None;
                assistantMessage None (Some [call "x"; call "y"]);
                toolReply "x"; toolReply "z"]))
  ∧ noAdjacentAssistants
      (mergeConsecutiveAssistantMessages
         (cleanOrphanedToolCalls
            [assistantMessage (Some "a") None;
             assistantMessage None (Some [call "x"; call "y"]);
             toolReply "x"; toolReply "z"])).
Proof.
  apply (clean_then_merge
           [assistantMessage (Some "a") None;
            assistantMessage None (Some [call "x"; call "y"]);
            toolReply "x"; toolReply "z"]).
  intros [_ (t & Ht & _ & Hid)].
  repeat (apply elem_of_cons in Ht as [-> | Ht]; [discriminate|]).
  inversion Ht.
Defined.

(** ** Further properties of the inbound translators *)

Section inbound_more.

Lemma truthy_false (s : string) : truthy s = false → s = "".
Proof. unfold truthy. by destruct (String.eqb_spec s ""). Qed.

Lemma JSON_parse_empty_object : JSON_parse "{}" = Some (JObject []).
Proof. by vm_compute. Qed.

Lemma pushToolCalls_Ok (parts parts' : list Part)
    (toolCalls : list ChatCompletionMessageToolCall) :
  pushToolCalls parts toolCalls = Ok parts' →
  ∃ calls, parts' = parts ++ calls
           ∧ Forall2 translatesCall
               (List.filter (fun tc => String.eqb (cct_type tc) "function") toolCalls)
               calls.
Proof.
  revert parts. induction toolCalls as [|tc tcs IH]; intros parts.
  - intros [= <-]. exists []. by rewrite app_nil_r.
  - cbn [pushToolCalls List.filter].
    destruct (String.eqb (cct_type tc) "function").
    + destruct (JSON_parse _) as [args|] eqn:Hp; [|done].
      intros (calls & -> & Hall)%IH.
      exists (functionCallPart (ccf_name (cct_function tc)) args :: calls).
      split; [by rewrite <- app_assoc|].
      constructor; [by exists args | done].
    + apply IH.
Qed.

Lemma pushToolCalls_filter (parts : list Part)
    (toolCalls : list ChatCompletionMessageToolCall) :
  pushToolCalls parts
    (List.filter (fun tc => String.eqb (cct_type tc) "function") toolCalls)
  = pushToolCalls parts toolCalls.
Proof.
  revert parts. induction toolCalls as [|tc tcs IH]; intros parts; [done|].
  cbn [pushToolCalls List.filter].
  destruct (String.eqb (cct_type tc) "function") eqn:Hty; [|apply IH].
  cbn [pushToolCalls]. rewrite Hty.
  destruct (JSON_parse _); [apply IH | done].
Qed.

Lemma pushToolCallDeltas_Ok (parts parts' : list Part)
    (toolCalls : list ChunkToolCall) :
  pushToolCallDeltas parts toolCalls = Ok parts' →
  ∃ calls, parts' = parts ++ calls
           ∧ Forall2 translatesDelta
               (List.filter
                  (fun tc => bool_decide (is_Some (ckt_function tc))
                             && bool_decide (ckt_type tc = Some "function"))
                  toolCalls)
               calls.
Proof.
  revert parts. induction toolCalls as [|tc tcs IH]; intros parts.
  - intros [= <-]. exists []. by rewrite app_nil_r.
  - cbn [pushToolCallDeltas List.filter].
    destruct (ckt_function tc) as [fn|] eqn:Hfn.
    + rewrite (bool_decide_true (is_Some (Some fn))) by by eexists.
      cbn [andb]. case_bool_decide; [|apply IH].
      destruct (if truthy_opt (ckf_arguments fn) then _ else _)
        as [args|] eqn:Hp; [|done].
      intros (calls & -> & Hall)%IH.
      eexists (_ :: calls). split; [by rewrite <- app_assoc|].
      constructor; [|done]. exists fn, args. split_and!; [done..|].
      f_equal. destruct (ckf_name fn) as [n|]; [|done]. simpl.
      destruct (truthy n) eqn:Hn; [done|]. by apply truthy_false in Hn.
    + rewrite (bool_decide_false (is_Some None)) by by intros [? ?].
      apply IH.
Qed.

Lemma pushToolCallDeltas_cases (parts : list Part) (toolCalls : list ChunkToolCall) :
  (Forall deltaParsable toolCalls
   ∧ ∃ parts', pushToolCallDeltas parts toolCalls = Ok parts')
  ∨ (¬ Forall deltaParsable toolCalls
     ∧ pushToolCallDeltas parts toolCalls = Throw SyntaxError).
Proof.
  revert parts. induction toolCalls as [|tc tcs IH]; intros parts.
  - left. split; [constructor | by eexists].
  - cbn [pushToolCallDeltas].
    assert (∀ parts0, deltaParsable tc →
              (Forall deltaParsable (tc :: tcs)
               ∧ ∃ parts', pushToolCallDeltas parts0 tcs = Ok parts')
              ∨ (¬ Forall deltaParsable (tc :: tcs)
                 ∧ pushToolCallDeltas parts0 tcs = Throw SyntaxError)) as Hskip.
    { intros parts0 Htc. destruct (IH parts0) as [[Hall Hok]|[Hnot Hthrow]].
      - left. split; [by constructor | done].
      - right. split; [|done]. by intros [_ ?]%Forall_cons. }
    destruct (ckt_function tc) as [fn|] eqn:Hfn;
      [|apply Hskip; unfold deltaParsable; intros; congruence].
    case_bool_decide as Hty;
      [|apply Hskip; unfold deltaParsable; intros; congruence].
    destruct (truthy_opt (ckf_arguments fn)) eqn:Ha.
    + destruct (JSON_parse _) as [args|] eqn:Hp.
      * apply Hskip. unfold deltaParsable. rewrite Hfn.
        intros fn' [= <-] _ _. by rewrite Hp.
      * right. split; [|done]. intros [Htc _]%Forall_cons.
        specialize (Htc fn Hfn Hty Ha). rewrite Hp in Htc. by destruct Htc.
    + apply Hskip. unfold deltaParsable. rewrite Hfn.
      intros fn' [= <-] _ Ha'. congruence.
Qed.

Lemma name_or_empty (n : string) : (if truthy n then n else "") = n.
Proof. destruct (truthy n) eqn:Hn; [done | by apply truthy_false in Hn]. Qed.

(** The chunk loop on the deltas of complete tool calls is the loop of
    the full translator. *)
Lemma pushToolCallDeltas_complete (parts : list Part) (g : nat → nat)
    (toolCalls : list ChatCompletionMessageToolCall) :
  pushToolCallDeltas parts (imap (fun i => asChunkToolCall (g i)) toolCalls)
  = pushToolCalls parts toolCalls.
Proof.
  revert parts g. induction toolCalls as [|tc tcs IH]; intros parts g; [done|].
  cbn [imap pushToolCallDeltas pushToolCalls asChunkToolCall ckt_function ckt_type
       ckf_arguments ckf_name truthy_opt default].
  specialize (IH) with (g := g ∘ S).
  change (id ?x) with x.
  rewrite name_or_empty.
  destruct (String.eqb_spec (cct_type tc) "function") as [Hty|Hty].
  - rewrite bool_decide_true by by rewrite Hty.
    destruct (truthy (ccf_arguments (cct_function tc))) eqn:Ha.
    + destruct (JSON_parse _); [apply IH | done].
    + rewrite JSON_parse_empty_object. apply IH.
  - rewrite bool_decide_false by (intros [= ?]; done). apply IH.
Qed.

End inbound_more.

(** X11. A full response that is translated without an error gives
    exactly one candidate of role [model] whose parts are the text part
    of choice 0's content, when that content is not empty, followed by
    one function-call part per tool call of type [function], in order,
    with the name of the call and its parsed arguments (an empty
    arguments string giving an empty object); its finish reason is the
    mapped finish reason and its usage metadata are the renamed usage of
    the response, absent when the response has none. *)
Theorem full_response_result (completion : ChatCompletion)
    (r : GenerateContentResponse) :
  convertToGeminiFormat completion = Ok r →
  ∃ choice calls,
    head (choices completion) = Some choice
    ∧ r = {| candidates :=
               [{| cand_content :=
                     modelContent (textParts (ccm_content (message choice)) ++ calls);
                   finishReason := Some (mapFinishReason (finish_reason choice)) |}];
             usageMetadata := convertUsage <$> usage completion |}
    ∧ Forall2 translatesCall (functionToolCalls choice) calls
    ∧ (∀ tc p, translatesCall tc p → ccf_arguments (cct_function tc) = "" →
               p = functionCallPart (ccf_name (cct_function tc)) (JObject [])).
Proof.
  unfold convertToGeminiFormat, convertChoice, functionToolCalls.
  destruct (choices completion) as [|choice rest]; [done|].
  intros H. exists choice.
  assert (∀ tc p, translatesCall tc p → ccf_arguments (cct_function tc) = "" →
                  p = functionCallPart (ccf_name (cct_function tc)) (JObject []))
    as Hempty.
  { intros tc p (args & Hp & ->) Ha. rewrite Ha in Hp. simpl in Hp.
    rewrite JSON_parse_empty_object in Hp. by injection Hp as <-. }
  destruct (ccm_tool_calls (message choice)) as [tcs|].
  - destruct (pushToolCalls _ tcs) as [parts'|] eqn:Hpush; [|done].
    apply pushToolCalls_Ok in Hpush as (calls & -> & Hall).
    injection H as <-. by exists calls.
  - injection H as <-. exists []. rewrite app_nil_r.
    split_and!; [done | done | constructor | done].
Qed.

Lemma full_response_result_witness :
  ∃ choice calls,
    head (choices plainResponse) = Some choice
    ∧ {| candidates :=
           [{| cand_content := modelContent [textPart "hi"];
               finishReason := Some STOP |}];
         usageMetadata :=
           Some {| promptTokenCount := 7; candidatesTokenCount := 1;
                   totalTokenCount := 8 |} |}
      = {| candidates :=
             [{| cand_content :=
                   modelContent (textParts (ccm_content (message choice)) ++ calls);
                 finishReason := Some (mapFinishReason (finish_reason choice)) |}];
           usageMetadata := convertUsage <$> usage plainResponse |}
    ∧ Forall2 translatesCall (functionToolCalls choice) calls
    ∧ (∀ tc p, translatesCall tc p → ccf_arguments (cct_function tc) = "" →
               p = functionCallPart (ccf_name (cct_function tc)) (JObject [])).
Proof.
  apply (full_response_result plainResponse). reflexivity.
Defined.

(** X12. Tool calls whose type is not [function] play no part in the
    translation of a full response: neither their content nor malformed
    arguments change the result or raise an error. *)
Theorem non_function_tool_calls_ignored (choice : ChatCompletionChoice)
    (rest : list ChatCompletionChoice) (u : option CompletionUsage) :
  convertToGeminiFormat {| choices := choice :: rest; usage := u |}
  = convertToGeminiFormat {| choices := functionOnly choice :: rest; usage := u |}.
Proof.
  unfold convertToGeminiFormat, convertChoice, functionOnly. cbn.
  destruct (ccm_tool_calls (message choice)) as [tcs|]; [|done].
  cbn. by rewrite pushToolCalls_filter.
Qed.

(** X13. The translation of a stream chunk returns normally exactly when
    [JSON.parse] accepts the non-empty arguments of every tool-call
    delta of type [function] that has a [function] field, in choice 0;
    otherwise it raises the error of [JSON.parse].  Absent or empty
    arguments are never parsed, and no chunk raises
    [EmptyResponseError]. *)
Theorem chunk_errors (chunk : ChatCompletionChunk) :
  ((∃ r, convertStreamChunkToGeminiFormat chunk = Ok r) ↔ chunkParsable chunk)
  ∧ (convertStreamChunkToGeminiFormat chunk = Throw SyntaxError
     ↔ ¬ chunkParsable chunk)
  ∧ convertStreamChunkToGeminiFormat chunk ≠ Throw EmptyResponseError.
Proof.
  unfold convertStreamChunkToGeminiFormat, chunkParsable, convertChunkChoice.
  destruct (ck_choices chunk) as [|choice rest].
  { split_and!; [|split; [done|]|done].
    - split; [by intros _ ? ? [=] | by eexists].
    - intros H. destruct H. by intros ? ? [=]. }
  assert ((∀ choice0 toolCalls,
             head (choice :: rest) = Some choice0 →
             ckd_tool_calls (delta choice0) = Some toolCalls →
             Forall deltaParsable toolCalls)
          ↔ (∀ toolCalls, ckd_tool_calls (delta choice) = Some toolCalls →
                          Forall deltaParsable toolCalls)) as Hchoice.
  { split; [intros H tcs; by apply H | intros H ? tcs [= <-]; apply H]. }
  rewrite !Hchoice. clear Hchoice.
  destruct (ckd_tool_calls (delta choice)) as [tcs|].
  - destruct (pushToolCallDeltas_cases (textParts (ckd_content (delta choice))) tcs)
      as [[Hall [parts' Hok]]|[Hnot Hthrow]];
      unfold textParts in *; [rewrite Hok | rewrite Hthrow].
    + split_and!; [|split; [done|]|done].
      * split; [by intros _ ? [= <-] | by eexists].
      * intros H. destruct H. by intros ? [= <-].
    + split_and!; [|split; [|done]|done].
      * split; [by intros [? ?] | intros H; destruct Hnot; by apply H].
      * intros _ H. apply Hnot. by apply H.
  - split_and!; [|split; [done|]|done].
    + split; [by intros _ ? [=] | by eexists].
    + intros H. destruct H. by intros ? [=].
Qed.

Lemma chunk_errors_witness :
  convertStreamChunkToGeminiFormat partialArgumentsChunk = Throw SyntaxError.
Proof.
  apply (proj2 (proj1 (proj2 (chunk_errors partialArgumentsChunk)))).
  intros H. specialize (H _ _ eq_refl eq_refl).
  apply Forall_cons in H as [H _].
  specialize (H _ eq_refl eq_refl eq_refl). vm_compute in H. by destruct H.
Defined.

(** X14. A chunk that carries a complete choice with a finish reason is
    translated to the candidates of the full response with that choice,
    and raises the same error when the full translation raises one; only
    the usage metadata are never carried by the chunk. *)
Theorem chunk_agrees_with_full (choice : ChatCompletionChoice)
    (u : option CompletionUsage) :
  finish_reason choice ≠ "" →
  match convertToGeminiFormat {| choices := [choice]; usage := u |} with
  | Ok r =>
      convertStreamChunkToGeminiFormat (asChunk choice)
      = Ok {| candidates := candidates r; usageMetadata := None |}
  | Throw e => convertStreamChunkToGeminiFormat (asChunk choice) = Throw e
  end.
Proof.
  intros Hfr.
  unfold convertToGeminiFormat, convertStreamChunkToGeminiFormat, asChunk,
    convertChoice, convertChunkChoice.
  cbn [choices ck_choices delta ckd_content ckd_tool_calls ck_finish_reason
       usage truthy_opt default].
  change (id ?x) with x.
  assert (truthy (finish_reason choice) = true) as ->.
  { unfold truthy. by destruct (String.eqb_spec (finish_reason choice) ""). }
  destruct (ccm_tool_calls (message choice)) as [tcs|]; [|done].
  cbn [fmap option_fmap option_map].
  rewrite (pushToolCallDeltas_complete _ (fun i => i)).
  by destruct (pushToolCalls _ tcs).
Qed.

Lemma chunk_agrees_with_full_witness :
  convertStreamChunkToGeminiFormat
    (asChunk {| message := {| ccm_content := Some "hi"; ccm_tool_calls := None |};
                finish_reason := "stop" |})
  = Ok {| candidates :=
            [{| cand_content := modelContent [textPart "hi"];
                finishReason := Some STOP |}];
          usageMetadata := None |}.
Proof.
  apply (chunk_agrees_with_full
           {| message := {| ccm_content := Some "hi"; ccm_tool_calls := None |};
              finish_reason := "stop" |} None).
  discriminate.
Defined.

(** X15. A translated stream chunk never carries usage metadata; it has
    no candidate when the chunk has no choice and otherwise exactly one,
    of role [model], whose parts are the text part of the delta's
    content, when not empty, followed by one function-call part per
    translated tool-call delta (an absent name giving the empty name),
    and whose finish reason is absent exactly when the chunk's finish
    reason is null or empty. *)
Theorem chunk_result (chunk : ChatCompletionChunk) (r : GenerateContentResponse) :
  convertStreamChunkToGeminiFormat chunk = Ok r →
  usageMetadata r = None
  ∧ (ck_choices chunk = [] → candidates r = [])
  ∧ (∀ choice, head (ck_choices chunk) = Some choice →
       ∃ calls fr,
         candidates r
         = [{| cand_content :=
                 modelContent (textParts (ckd_content (delta choice)) ++ calls);
               finishReason := fr |}]
         ∧ Forall2 translatesDelta (functionDeltas choice) calls
         ∧ (fr = None ↔ truthy_opt (ck_finish_reason choice) = false)).
Proof.
  unfold convertStreamChunkToGeminiFormat, convertChunkChoice, functionDeltas.
  destruct (ck_choices chunk) as [|choice rest].
  { intros [= <-]. split_and!; [done | done | by intros ? [=]]. }
  intros H.
  assert (usageMetadata r = None ∧
          ∃ calls fr,
            candidates r
            = [{| cand_content :=
                    modelContent (textParts (ckd_content (delta choice)) ++ calls);
                  finishReason := fr |}]
            ∧ Forall2 translatesDelta
                (List.filter
                   (fun tc => bool_decide (is_Some (ckt_function tc))
                              && bool_decide (ckt_type tc = Some "function"))
                   (default [] (ckd_tool_calls (delta choice))))
                calls
            ∧ (fr = None ↔ truthy_opt (ck_finish_reason choice) = false))
    as [Hu Hc].
  { destruct (ckd_tool_calls (delta choice)) as [tcs|].
    - destruct (pushToolCallDeltas _ tcs) as [parts'|] eqn:Hpush; [|done].
      apply pushToolCallDeltas_Ok in Hpush as (calls & -> & Hall).
      injection H as <-. split; [done|]. exists calls. eexists.
      split_and!; [done | done | by destruct (truthy_opt _)].
    - injection H as <-. split; [done|]. exists []. eexists.
      rewrite app_nil_r.
      split_and!; [done | constructor | by destruct (truthy_opt _)]. }
  split_and!; [done | done |]. by intros ? [= <-].
Qed.

Lemma chunk_result_witness :
  usageMetadata
    {| candidates := [{| cand_content := modelContent [textPart "wor"];
                         finishReason := None |}];
       usageMetadata := None |} = None
  ∧ (ck_choices textChunk = [] →
     candidates
       {| candidates := [{| cand_content := modelContent [textPart "wor"];
                            finishReason := None |}];
          usageMetadata := None |} = [])
  ∧ (∀ choice, head (ck_choices textChunk) = Some choice →
       ∃ calls fr,
         candidates
           {| candidates := [{| cand_content := modelContent [textPart "wor"];
                                finishReason := None |}];
              usageMetadata := None |}
         = [{| cand_content :=
                 modelContent (textParts (ckd_content (delta choice)) ++ calls);
               finishReason := fr |}]
         ∧ Forall2 translatesDelta (functionDeltas choice) calls
         ∧ (fr = None ↔ truthy_opt (ck_finish_reason choice) = false)).
Proof.
  apply (chunk_result textChunk). reflexivity.
Defined.

(** ** Further properties of the outbound translator *)

Section outbound_more.

Lemma pretty_N_char_digit (x : N) : is_digit (pretty_N_char x) = true.
Proof. unfold pretty_N_char. by repeat case_match. Qed.

Lemma pretty_N_go_head (x : N) (s : string) :
  (0 < x)%N → numberLike (pretty_N_go x s).
Proof.
  revert s. induction (N.lt_wf_0 x) as [x _ IH]; intros s Hx.
  rewrite pretty_N_go_step by done.
  destruct (decide (x `div` 10 = 0)%N) as [Hd|Hd].
  - rewrite Hd, pretty_N_go_0. left. apply pretty_N_char_digit.
  - apply IH; [apply N.div_lt; lia | by apply N.neq_0_lt_0].
Qed.

Lemma pretty_N_head (x : N) : numberLike (pretty x).
Proof.
  unfold pretty, pretty_N. case_decide; [by left|].
  apply pretty_N_go_head. lia.
Qed.

Lemma pretty_Z_head (z : Z) : numberLike (pretty z).
Proof.
  destruct z as [|p|p]; [by left | apply pretty_N_head | by right].
Qed.

Lemma numberLike_app (a b : string) : numberLike a → numberLike (a +:+ b).
Proof. by destruct a. Qed.

Lemma numberLike_not_identifierLike (s : string) :
  numberLike s → identifierLike s → False.
Proof.
  destruct s as [|c s]; [done|]. simpl.
  intros [Hd | ->] [Hn Hm]; congruence.
Qed.

(** A reply id never equals a synthesized id, when the function name is
    identifier-like. *)
Lemma callId_not_reply (now : Z) (index : nat) (n : string) :
  identifierLike n → callId now index ≠ "call_" +:+ n.
Proof.
  unfold callId. intros Hn H%append_inj.
  apply (numberLike_not_identifierLike n); [|done].
  rewrite <- H. apply numberLike_app, pretty_Z_head.
Qed.

Lemma mapToolCalls_callIds (clk : Clock) (index : nat) (fcs : list FunctionCall)
    (tc : OpenAIToolCall) :
  tc ∈ (mapToolCalls clk index fcs).1 → ∃ now i, tc_id tc = callId now i.
Proof.
  intros Hin. apply (list_elem_of_fmap_2 tc_id) in Hin.
  rewrite mapToolCalls_ids in Hin.
  apply list_elem_of_lookup in Hin as (k & Hk).
  apply list_lookup_imap_Some in Hk as (? & _ & ->). eauto.
Qed.

Lemma convertContent_skipped (clk : Clock) (content : ContentUnion) :
  translated content = false → convertContent clk content = ([], clk).
Proof.
  destruct content as [c| |]; [|done..]. simpl.
  destruct (c_role c) as [r|]; [|done].
  destruct (c_parts c); [|done]. by intros ->.
Qed.

(** The messages of one translated turn. *)
Lemma convertContent_translated (clk : Clock) (c : Content) :
  translated (AContent c) = true →
  ∃ r ps,
    c_role c = Some r ∧ c_parts c = Some ps
    ∧ (r = "user" ∨ r = "model")
    ∧ convertContent clk (AContent c) =
      ((if truthy (join LF (omap text ps))
        then [{| role := if bool_decide (r = "model") then assistant else user;
                 content := Some (join LF (omap text ps));
                 tool_calls := None; tool_call_id := None |}]
        else [])
       ++ (if bool_decide (0 < length (omap functionCall ps))
           then [{| role := assistant; content := None;
                    tool_calls := Some (mapToolCalls clk 0 (omap functionCall ps)).1;
                    tool_call_id := None |}]
           else [])
       ++ map toolMessage (omap functionResponse ps),
       if bool_decide (0 < length (omap functionCall ps))
       then (mapToolCalls clk 0 (omap functionCall ps)).2 else clk).
Proof.
  unfold translated, convertContent.
  destruct (c_role c) as [r|]; [|done].
  destruct (c_parts c) as [ps|]; [|done].
  intros Hr. rewrite Hr. exists r, ps. split_and!; [done | done | |].
  - apply orb_prop in Hr as [H|H]; apply bool_decide_eq_true in H; auto.
  - change (default [] (Some ps)) with ps.
    destruct (bool_decide (0 < length (omap functionCall ps))); [|reflexivity].
    by destruct (mapToolCalls clk 0 (omap functionCall ps)).
Qed.

Lemma responseNames_cons (content : ContentUnion) (l : list ContentUnion) :
  responseNames (content :: l) = responseNames [content] ++ responseNames l.
Proof. unfold responseNames. simpl. by rewrite app_nil_r. Qed.

Lemma convertContent_shapes (clk : Clock) (content : ContentUnion)
    (m : OpenAIMessage) :
  m ∈ (convertContent clk content).1 →
  textShape m ∨ callShape m ∨ replyShape (responseNames [content]) m.
Proof.
  destruct (translated content) eqn:Ht;
    [|rewrite convertContent_skipped by done; by inversion 1].
  destruct content as [c| |]; [|done..].
  destruct (convertContent_translated clk c Ht) as (r & ps & Hr & Hp & Hrole & ->).
  cbn [fst]. rewrite !elem_of_app. intros [Hm|[Hm|Hm]].
  - left. destruct (truthy _) eqn:Hj; [|by inversion Hm].
    apply list_elem_of_singleton in Hm as ->.
    split; [simpl; case_bool_decide; auto|].
    split; [|done]. eexists. split; [done|].
    intros He. by rewrite He in Hj.
  - right; left. case_bool_decide as Hlen; [|by inversion Hm].
    apply list_elem_of_singleton in Hm as ->.
    split; [done|]. split; [done|]. split; [|done].
    eexists. split; [done|]. split; [|apply mapToolCalls_callIds].
    intros He. apply (f_equal length) in He.
    rewrite mapToolCalls_length in He. simpl in He. lia.
  - right; right. apply list_elem_of_In, in_map_iff in Hm as (fr & <- & Hfr).
    apply list_elem_of_In in Hfr.
    split; [done|]. split; [by eexists|]. split; [done|].
    unfold toolMessage; simpl.
    destruct (fr_name fr) as [n|] eqn:Hn; simpl; [|by exists "unknown"; auto].
    destruct (truthy n) eqn:Htn; [|by exists "unknown"; auto].
    exists n. split; [done|]. right.
    pose proof Ht as Ht'. unfold translated in Ht'.
    unfold responseNames. cbn [mbind list_bind]. rewrite app_nil_r, Ht', Hp.
    change (default [] (Some ps)) with ps.
    apply list_elem_of_omap in Hfr as (p & Hp' & Hfr).
    apply list_elem_of_omap. exists p. split; [done|]. by rewrite Hfr.
Qed.

Lemma convertContents_acc (clk : Clock) (acc : list OpenAIMessage)
    (l : list ContentUnion) :
  convertContents clk acc l
  = (acc ++ (convertContents clk [] l).1, (convertContents clk [] l).2).
Proof.
  revert clk acc. induction l as [|content l IH]; intros clk acc.
  - simpl. by rewrite app_nil_r.
  - cbn [convertContents].
    destruct (convertContent clk content) as [pushed clk1].
    rewrite (IH clk1 (acc ++ pushed)), (IH clk1 ([] ++ pushed)).
    cbn [fst snd app]. by rewrite <- app_assoc.
Qed.

Lemma convertContents_cons (clk : Clock) (content : ContentUnion)
    (l : list ContentUnion) :
  convertContents clk [] (content :: l)
  = ((convertContent clk content).1
     ++ (convertContents (convertContent clk content).2 [] l).1,
     (convertContents (convertContent clk content).2 [] l).2).
Proof.
  cbn [convertContents]. destruct (convertContent clk content) as [pushed clk1].
  by rewrite convertContents_acc.
Qed.

Lemma convertContents_app (clk : Clock) (l1 l2 : list ContentUnion) :
  convertContents clk [] (l1 ++ l2)
  = ((convertContents clk [] l1).1
     ++ (convertContents (convertContents clk [] l1).2 [] l2).1,
     (convertContents (convertContents clk [] l1).2 [] l2).2).
Proof.
  revert clk. induction l1 as [|content l1 IH]; intros clk; [by destruct (convertContents _ _ _)|].
  rewrite <- app_comm_cons, !convertContents_cons, IH. cbn [fst snd].
  by rewrite app_assoc.
Qed.

Lemma convertContents_shapes (clk : Clock) (l : list ContentUnion)
    (m : OpenAIMessage) :
  m ∈ (convertContents clk [] l).1 →
  textShape m ∨ callShape m ∨ replyShape (responseNames l) m.
Proof.
  revert clk. induction l as [|content l IH]; intros clk; [by inversion 1|].
  rewrite convertContents_cons. cbn [fst]. rewrite elem_of_app, responseNames_cons.
  assert (∀ names names', replyShape names m ∨ replyShape names' m →
                          replyShape (names ++ names') m) as Hnames.
  { intros names names' [H|H];
      destruct H as (? & ? & ? & n & ? & Hn); split_and!; try done;
      exists n; (split; [done|]); destruct Hn as [?|?]; auto;
      right; apply elem_of_app; auto. }
  intros [H|H].
  - apply convertContent_shapes in H as [?|[?|?]]; auto.
  - apply IH in H as [?|[?|?]]; auto.
Qed.

Lemma convertContents_skip (clk : Clock) (l : list ContentUnion) :
  convertContents clk [] (List.filter translated l) = convertContents clk [] l.
Proof.
  revert clk. induction l as [|content l IH]; intros clk; [done|].
  cbn [List.filter]. destruct (translated content) eqn:Ht.
  - by rewrite !convertContents_cons, IH.
  - rewrite IH, (convertContents_cons _ content).
    rewrite convertContent_skipped by done. cbn [fst snd app].
    by destruct (convertContents clk [] l).
Qed.

Lemma messages_convert (clk : Clock) (request : GenerateContentParameters)
    (model : string) :
  messages (convertGeminiParametersToOpenAI clk request model).1
  = (convertContents clk [] (contentsOf request)).1.
Proof.
  unfold convertGeminiParametersToOpenAI, contentsOf.
  by destruct (convertContents clk [] _).
Qed.

End outbound_more.

(** X16. Every message that the outbound translator emits has one of
    three shapes: a user or assistant message with a non-empty content
    and no tool calls; an assistant message with a null content and a
    non-empty [tool_calls] array whose ids are synthesized ids; or a
    tool message with a content and a [tool_call_id] made of [call_]
    and a function-response name of the request, or [unknown].  So the
    content is absent only on messages that carry tool calls, no system
    message is emitted and only tool messages carry a [tool_call_id]. *)
Theorem outbound_message_shapes (clk : Clock)
    (request : GenerateContentParameters) (model : string) (m : OpenAIMessage) :
  m ∈ messages (convertGeminiParametersToOpenAI clk request model).1 →
  (textShape m ∨ callShape m
   ∨ replyShape (responseNames (contentsOf request)) m)
  ∧ (content m = None ↔ is_Some (tool_calls m))
  ∧ role m ≠ system
  ∧ (is_Some (tool_call_id m) ↔ role m = tool).
Proof.
  rewrite messages_convert. intros H%convertContents_shapes. split; [done|].
  destruct H as [(Hr & (s & Hs & _) & Ht & Hi)
                |[(Hr & Hc & (tcs & Ht & _) & Hi)
                 |(Hr & [s Hs] & Ht & (n & Hi & _))]];
    rewrite ?Hs, ?Hc, ?Ht, ?Hi.
  - split_and!; [split; [done | by intros [? ?]] | by destruct Hr as [-> | ->] |].
    split; [by intros [? ?] | by destruct Hr as [-> | ->]].
  - rewrite Hr. split_and!; [by split; [eexists|] | done |].
    split; [by intros [? ?] | done].
  - rewrite Hr. split_and!; [split; [done | by intros [? ?]] | done |].
    by split; [|eexists].
Qed.

Lemma outbound_message_shapes_witness :
  (textShape (toolMessage {| fr_name := Some "lookup"; fr_response := None |})
   ∨ callShape (toolMessage {| fr_name := Some "lookup"; fr_response := None |})
   ∨ replyShape (responseNames (contentsOf twoCallTurns))
       (toolMessage {| fr_name := Some "lookup"; fr_response := None |}))
  ∧ (content (toolMessage {| fr_name := Some "lookup"; fr_response := None |}) = None
     ↔ is_Some (tool_calls
                  (toolMessage {| fr_name := Some "lookup"; fr_response := None |})))
  ∧ role (toolMessage {| fr_name := Some "lookup"; fr_response := None |}) ≠ system
  ∧ (is_Some (tool_call_id
                (toolMessage {| fr_name := Some "lookup"; fr_response := None |}))
     ↔ role (toolMessage {| fr_name := Some "lookup"; fr_response := None |}) = tool).
Proof.
  apply (outbound_message_shapes sameMillisecond twoCallTurns "m").
  vm_compute. right; left.
Defined.

(** X17. Entries of [request.contents] that are not contents with parts
    and role [user] or [model] (other roles, bare parts, strings) are
    skipped: they add no message and do not read the clock; a single
    entry is translated like the one-element array. *)
Theorem outbound_skips_untranslated (clk : Clock) (l : list ContentUnion)
    (cfg : option GenerateContentConfig) (model : string) :
  convertGeminiParametersToOpenAI clk {| contents := Many l; config := cfg |} model
  = convertGeminiParametersToOpenAI clk
      {| contents := Many (List.filter translated l); config := cfg |} model
  ∧ (∀ c, convertGeminiParametersToOpenAI clk
            {| contents := One c; config := cfg |} model
          = convertGeminiParametersToOpenAI clk
              {| contents := Many [c]; config := cfg |} model).
Proof.
  split; [|done]. unfold convertGeminiParametersToOpenAI. cbn [contents config].
  by rewrite convertContents_skip.
Qed.

(** X18. When the function-response names of a request are
    identifier-like (they do not start with a digit or a minus sign), no
    tool message that the outbound translator emits answers a tool call
    that it emits: the [tool_call_id] is [call_] followed by the name,
    the id of a tool call is [call_] followed by a timestamp.  Hence
    [cleanOrphanedToolCalls] applied to the translated list removes every
    tool message and every [tool_calls] field. *)
Theorem outbound_replies_never_answer (clk : Clock)
    (request : GenerateContentParameters) (model : string) :
  Forall identifierLike (responseNames (contentsOf request)) →
  (∀ tc,
     carried (messages (convertGeminiParametersToOpenAI clk request model).1) tc →
     ¬ answered (messages (convertGeminiParametersToOpenAI clk request model).1) tc)
  ∧ (∀ m,
       m ∈ cleanOrphanedToolCalls
             (messages (convertGeminiParametersToOpenAI clk request model).1) →
       role m ≠ tool ∧ tool_calls m = None).
Proof.
  intros Hnames. rewrite messages_convert.
  set (ms := (convertContents clk [] (contentsOf request)).1).
  assert (∀ m, m ∈ ms →
            textShape m ∨ callShape m
            ∨ replyShape (responseNames (contentsOf request)) m) as Hshape
    by (intros m; apply convertContents_shapes).
  assert (∀ tc, carried ms tc → ¬ answered ms tc) as Hnever.
  { intros tc (a & Ha & Hra & tcs & Hta & Hel) (t & Ht & Hrt & Hid)%Exists_exists.
    destruct (Hshape a Ha) as [(_ & _ & Hn & _)|[(_ & _ & (tcs' & Ht' & _ & Hids) & _)
                                                |(Hr & _)]];
      [congruence | | congruence].
    rewrite Hta in Ht'. injection Ht' as <-.
    destruct (Hids tc Hel) as (now & index & Hcall).
    destruct (Hshape t Ht) as [([Hr|Hr] & _)|[(Hr & _)
                                             |(_ & _ & _ & n & Hn & Hname)]];
      [congruence.. |].
    assert (callId now index = "call_" +:+ n) as Heq
      by (rewrite <- Hcall; congruence).
    apply (callId_not_reply now index n); [|done].
    destruct Hname as [-> | Hname]; [by split|].
    by apply (proj1 (Forall_forall _ _) Hnames). }
  split; [done|]. intros m Hm.
  assert (role m ≠ tool) as Hrole.
  { intros Hr. apply (tool_cleaned _ _ Hr) in Hm as (Hin & i & Hi & _ & Hids).
    apply collectToolCallIds_spec in Hids as (a & tc & Ha & Hcar & <-).
    apply (Hnever tc); [by exists a|].
    apply Exists_exists. by exists m. }
  split; [done|].
  rewrite cleanOrphanedToolCalls_cleaned, elem_of_cleaned in Hm.
  destruct Hm as (m0 & Hin & Hc).
  apply cleaned_cases in Hc as [(Hr & -> & _)|[(Hr & tcs & Ht & ->)|(Hr & Hn & ->)]].
  - done.
  - simpl. rewrite filter_none; [done|].
    intros tc Hel. apply Hnever. exists m0. split; [done|]. split; eauto.
  - destruct (Hshape _ Hin) as [(_ & _ & ? & _)|[(Hra & _)|(? & _)]];
      [done | by apply Hn | done].
Qed.

Lemma outbound_replies_never_answer_witness :
  (∀ tc,
     carried (messages
                (convertGeminiParametersToOpenAI sameMillisecond twoCallTurns "m").1) tc →
     ¬ answered (messages
                   (convertGeminiParametersToOpenAI sameMillisecond twoCallTurns "m").1) tc)
  ∧ (∀ m,
       m ∈ cleanOrphanedToolCalls
             (messages
                (convertGeminiParametersToOpenAI sameMillisecond twoCallTurns "m").1) →
       role m ≠ tool ∧ tool_calls m = None).
Proof.
  apply (outbound_replies_never_answer sameMillisecond twoCallTurns "m").
  vm_compute. repeat constructor; discriminate.
Defined.

(** X19. A turn of role [user] or [model] that has only text parts,
    whose newline-join is not empty, is translated into exactly one
    message, of role [user] or [assistant], whose content is that join;
    a response that echoes this content is translated back into one
    candidate of role [model] with one text part holding the same
    text. *)
Theorem text_round_trip (clk : Clock) (r : string) (ps : list Part)
    (cfg : option GenerateContentConfig) (model : string) :
  r = "user" ∨ r = "model" →
  omap functionCall ps = [] → omap functionResponse ps = [] →
  join LF (omap text ps) ≠ "" →
  ∃ m,
    messages (convertGeminiParametersToOpenAI clk
                {| contents := One (turn r ps); config := cfg |} model).1 = [m]
    ∧ role m = (if bool_decide (r = "model") then assistant else user)
    ∧ content m = Some (join LF (omap text ps))
    ∧ convertToGeminiFormat
        {| choices := [{| message := {| ccm_content := content m;
                                        ccm_tool_calls := None |};
                          finish_reason := "stop" |}];
           usage := None |}
      = Ok {| candidates :=
                [{| cand_content := modelContent [textPart (join LF (omap text ps))];
                    finishReason := Some STOP |}];
              usageMetadata := None |}.
Proof.
  intros Hr Hfc Hfr Hj. rewrite messages_convert. unfold contentsOf. cbn [contents].
  rewrite convertContents_cons. cbn [convertContents fst snd]. rewrite app_nil_r.
  assert (translated (turn r ps) = true) as Ht.
  { simpl. destruct Hr as [-> | ->]; done. }
  unfold turn in *.
  destruct (convertContent_translated clk _ Ht) as (r' & ps' & [= <-] & [= <-] & _ & ->).
  rewrite Hfc, Hfr. cbn [length fst map app].
  assert (truthy (join LF (omap text ps)) = true) as Htj.
  { unfold truthy. by destruct (String.eqb_spec (join LF (omap text ps)) ""). }
  rewrite Htj. rewrite (bool_decide_false (0 < 0)) by lia. cbn [app].
  eexists. split_and!; [done | done | done |].
  unfold convertToGeminiFormat, convertChoice.
  cbn [choices message ccm_content ccm_tool_calls content truthy_opt default usage
       finish_reason fmap option_fmap option_map].
  by rewrite Htj.
Qed.

Lemma text_round_trip_witness :
  ∃ m,
    messages (convertGeminiParametersToOpenAI sameMillisecond
                {| contents := One (turn "model" [textPart "a"; textPart "b"]);
                   config := None |} "m").1 = [m]
    ∧ role m = (if bool_decide ("model" = "model") then assistant else user)
    ∧ content m = Some (join LF (omap text [textPart "a"; textPart "b"]))
    ∧ convertToGeminiFormat
        {| choices := [{| message := {| ccm_content := content m;
                                        ccm_tool_calls := None |};
                          finish_reason := "stop" |}];
           usage := None |}
      = Ok {| candidates :=
                [{| cand_content :=
                      modelContent
                        [textPart (join LF (omap text [textPart "a"; textPart "b"]))];
                    finishReason := Some STOP |}];
              usageMetadata := None |}.
Proof.
  apply (text_round_trip sameMillisecond "model" [textPart "a"; textPart "b"]
           None "m").
  - by right.
  - reflexivity.
  - reflexivity.
  - vm_compute. discriminate.
Defined.

(** X20. The outbound translator translates the turns in order and
    independently of each other, up to the clock: the messages of a list
    of turns followed by another are the messages of the first list
    followed by those of the second, translated with the clock that the
    first list leaves. *)
Theorem outbound_concatenation (clk : Clock) (l1 l2 : list ContentUnion)
    (cfg : option GenerateContentConfig) (model : string) :
  messages (convertGeminiParametersToOpenAI clk
              {| contents := Many (l1 ++ l2); config := cfg |} model).1
  = messages (convertGeminiParametersToOpenAI clk
                {| contents := Many l1; config := cfg |} model).1
    ++ messages
         (convertGeminiParametersToOpenAI
            (convertGeminiParametersToOpenAI clk
               {| contents := Many l1; config := cfg |} model).2
            {| contents := Many l2; config := cfg |} model).1.
Proof.
  rewrite !messages_convert. unfold contentsOf. cbn [contents].
  rewrite convertContents_app. cbn [fst]. f_equal. f_equal. f_equal.
  unfold convertGeminiParametersToOpenAI. cbn [contents].
  by destruct (convertContents clk [] l1).
Qed.

(** ** Properties of [convertGeminiToolsToOpenAI] *)

Section tools.

Lemma push_declarations (acc : list OpenAITool) (decls : list FunctionDeclaration) :
  foldl (fun (acc : list OpenAITool) func => acc ++ [openAITool func]) acc decls
  = acc ++ (openAITool <$> decls).
Proof.
  revert acc. induction decls as [|d decls IH]; intros acc; simpl.
  - by rewrite app_nil_r.
  - by rewrite IH, <- app_assoc.
Qed.

Lemma push_groups (acc : list OpenAITool) (l : list ToolUnion) :
  foldl (fun (openAITools : list OpenAITool) toolUnion =>
           match toolUnion with
           | ATool t =>
               foldl (fun (acc : list OpenAITool) func => acc ++ [openAITool func])
                     openAITools (default [] (functionDeclarations t))
           | ACallableTool => openAITools
           end) acc l
  = acc ++ (l ≫= groupTools).
Proof.
  revert acc. induction l as [|t l IH]; intros acc; simpl.
  - by rewrite app_nil_r.
  - rewrite IH. destruct t as [t|]; simpl; [|done].
    by rewrite push_declarations, <- app_assoc.
Qed.

End tools.

(** X21. [convertGeminiToolsToOpenAI] emits one tool per function
    declaration, in group order and then declaration order; groups
    without a [functionDeclarations] field and callable tools contribute
    nothing; the conversion of two lists of groups put together is the
    two conversions put together. *)
Theorem tools_flattened (l1 l2 : list ToolUnion) :
  convertGeminiToolsToOpenAI l1 = l1 ≫= groupTools
  ∧ convertGeminiToolsToOpenAI (l1 ++ l2)
    = convertGeminiToolsToOpenAI l1 ++ convertGeminiToolsToOpenAI l2
  ∧ length (convertGeminiToolsToOpenAI l1)
    = sum_list ((fun t => match t with
                          | ATool t => length (default [] (functionDeclarations t))
                          | ACallableTool => 0
                          end) <$> l1).
Proof.
  unfold convertGeminiToolsToOpenAI. rewrite !push_groups. cbn [app].
  split_and!; [done | apply bind_app |].
  induction l1 as [|t l IH]; [done|].
  cbn [mbind list_bind fmap list_fmap sum_list sum_list_with] in *.
  rewrite length_app, IH. f_equal.
  destruct t as [t|]; [apply length_fmap | done].
Qed.

(** ** Properties of [getOllamaModelConfig] *)

Section model_config.

Lemma startsWith_spec (s search : string) :
  startsWith s search = true ↔ ∃ b, s = search +:+ b.
Proof.
  revert s. induction search as [|c search IH]; intros s; simpl.
  - split; [by exists s | done].
  - destruct s as [|d s].
    + split; [done | by intros [b [=]]].
    + rewrite andb_true_iff, IH. split.
      * intros [Hc [b ->]]. apply Ascii.eqb_eq in Hc as ->. by exists b.
      * intros [b Hb]. change (String d s = String c (search +:+ b)) in Hb.
        injection Hb as -> ->. split; [apply Ascii.eqb_refl | by exists b].
Qed.

Lemma includes_spec (s search : string) :
  includes s search = true ↔ ∃ a b, s = a +:+ search +:+ b.
Proof.
  induction s as [|d s IH].
  - simpl. rewrite orb_false_r, startsWith_spec. split.
    + intros [b Hb]. by exists "", b.
    + intros (a & b & H). destruct a; [by exists b | done].
  - cbn [includes]. rewrite orb_true_iff, startsWith_spec, IH. split.
    + intros [[b Hb]|(a & b & ->)]; [by exists "", b | by exists (String d a), b].
    + intros ([|c a] & b & H).
      * left. by exists b.
      * right. change (String d s = String c (a +:+ search +:+ b)) in H.
        injection H as -> ->. by exists a, b.
Qed.

Lemma includes_trans (s mid search : string) :
  includes s mid = true → includes mid search = true → includes s search = true.
Proof.
  rewrite !includes_spec. intros (a & b & ->) (a' & b' & ->).
  exists (a +:+ a'), (b' +:+ b). by rewrite !string_app_assoc.
Qed.

Lemma includes_false_trans (s mid search : string) :
  includes mid search = true → includes s search = false → includes s mid = false.
Proof.
  intros Hm Hs. destruct (includes s mid) eqn:E; [|done].
  by rewrite (includes_trans _ _ _ E Hm) in Hs.
Qed.

End model_config.

(** X22. For every model name, [getOllamaModelConfig] returns one of the
    four entries of the table (the fallback has the values of the
    [qwen3:14b] entry), so that the maximum number of tokens never
    exceeds the context window, the temperature lies between 0.1 and
    0.2, [topP] between 0.85 and 0.95 and the repeat penalty between 1.05
    and 1.15. *)
Theorem model_config_bounds (model : string) :
  (getOllamaModelConfig model = config_qwen3_14b
   ∨ getOllamaModelConfig model = config_qwen3_32b
   ∨ getOllamaModelConfig model = config_llama31_8b
   ∨ getOllamaModelConfig model = config_llama33_70b)
  ∧ (0 < omc_maxTokens (getOllamaModelConfig model)
     ≤ omc_contextWindow (getOllamaModelConfig model))%Z
  ∧ (1 # 10 <= omc_temperature (getOllamaModelConfig model))%Q
  ∧ (omc_temperature (getOllamaModelConfig model) <= 2 # 10)%Q
  ∧ (85 # 100 <= omc_topP (getOllamaModelConfig model))%Q
  ∧ (omc_topP (getOllamaModelConfig model) <= 95 # 100)%Q
  ∧ (105 # 100 <= omc_repeatPenalty (getOllamaModelConfig model))%Q
  ∧ (omc_repeatPenalty (getOllamaModelConfig model) <= 115 # 100)%Q.
Proof.
  unfold getOllamaModelConfig.
  repeat (destruct (_ && _));
    (split; [auto|]); unfold Qle; simpl; lia.
Qed.

(** X23. A model name that contains the tag [qwen3:14b], with anything
    before and after it, gets the [qwen3:14b] entry, because that pattern
    is tried first; a name that contains [qwen3] and [32b] gets the
    [qwen3:32b] entry only if it does not contain [14b]; a name that
    contains neither [qwen3] nor [llama3.] gets the fallback. *)
Theorem model_config_patterns :
  (∀ pre post,
     getOllamaModelConfig (pre +:+ "qwen3:14b" +:+ post) = config_qwen3_14b)
  ∧ (∀ model, includes model "qwen3" = true → includes model "32b" = true →
       (getOllamaModelConfig model = config_qwen3_32b
        ↔ includes model "14b" = false))
  ∧ (∀ model, includes model "qwen3" = false → includes model "llama3." = false →
       getOllamaModelConfig model = config_default).
Proof.
  split_and!.
  - intros pre post. unfold getOllamaModelConfig.
    assert (includes (pre +:+ "qwen3:14b" +:+ post) "qwen3:14b" = true) as Htag
      by (apply includes_spec; by exists pre, post).
    rewrite (includes_trans _ _ "qwen3" Htag), (includes_trans _ _ "14b" Htag);
      by vm_compute.
  - intros model Hq H32. unfold getOllamaModelConfig. rewrite Hq, H32.
    destruct (includes model "14b"); simpl; split; done.
  - intros model Hq Hl. unfold getOllamaModelConfig. rewrite Hq.
    rewrite (includes_false_trans model "llama3.1" "llama3.") by (done || by vm_compute).
    rewrite (includes_false_trans model "llama3.3" "llama3.") by (done || by vm_compute).
    done.
Qed.

Lemma model_config_patterns_witness :
  getOllamaModelConfig "mistral:7b" = config_default.
Proof.
  apply (proj2 (proj2 model_config_patterns) "mistral:7b"); reflexivity.
Defined.

(** ** [JSON.parse] reads back what [JSON.stringify] writes *)

Section json_round_trip.

Local Abbreviation len := String.length.

Lemma len_app (a b : string) : len (a +:+ b) = len a + len b.
Proof.
  induction a as [|c a IH]; [done|].
  change (S (len (a +:+ b)) = S (len a) + len b). by rewrite IH.
Qed.

Lemma append_nil_r (a : string) : a +:+ "" = a.
Proof.
  induction a as [|c a IH]; [done|].
  change (String c (a +:+ "") = String c a). by rewrite IH.
Qed.

(** One written character is read back as itself. *)
Lemma lex_string_quote_char (c : ascii) (tail : string) :
  lex_string (quote_char c +:+ tail)
  = match lex_string tail with
    | Some (body, rest) => Some (String c body, rest)
    | None => None
    end.
Proof.
  destruct c as [[] [] [] [] [] [] [] []]; reflexivity.
Qed.

Lemma lex_string_quote_body (s rest : string) :
  lex_string (quote_body s +:+ chr 34 +:+ rest) = Some (s, rest).
Proof.
  induction s as [|c s IH]; [done|].
  cbn [quote_body]. by rewrite string_app_assoc, lex_string_quote_char, IH.
Qed.

(** What follows a value is no part of a number. *)
Lemma delimited_code (c : ascii) (r : string) :
  delimited (String c r) →
  is_digit c = false ∧ is_ws c = false ∧ c ≠ "."%char
  ∧ (code c =? 101) || (code c =? 69) = false.
Proof.
  unfold delimited, is_digit, is_ws.
  intros [H|[H|H]]; rewrite ?H; (split_and!; [done | done | | done]);
    intros ->; discriminate H.
Qed.

Lemma span_digits_app (s ds r rest : string) :
  span_digits s = (ds, r) → delimited rest →
  span_digits (s +:+ rest) = (ds, r +:+ rest).
Proof.
  revert ds r. induction s as [|c s IH]; intros ds r.
  - intros [= <- <-] Hd. destruct rest as [|c rest]; [done|].
    apply delimited_code in Hd as (Hdig & _). simpl. by rewrite Hdig.
  - change (String c s +:+ rest) with (String c (s +:+ rest)). simpl.
    destruct (is_digit c).
    + destruct (span_digits s) as [ds' r'] eqn:E. intros [= <- <-] Hd.
      by rewrite (IH _ _ eq_refl Hd).
    + by intros [= <- <-].
Qed.

Lemma lex_digits1_app (s ds r rest : string) :
  lex_digits1 s = Some (ds, r) → delimited rest →
  lex_digits1 (s +:+ rest) = Some (ds, r +:+ rest).
Proof.
  unfold lex_digits1. destruct (span_digits s) as [ds' r'] eqn:E.
  intros H Hd. rewrite (span_digits_app _ _ _ _ E Hd).
  destruct (truthy ds'); [|done]. by injection H as <- <-.
Qed.

Lemma lex_int_app (s i r rest : string) :
  lex_int s = Some (i, r) → delimited rest →
  lex_int (s +:+ rest) = Some (i, r +:+ rest).
Proof.
  destruct s as [|c s]; [done|].
  change (String c s +:+ rest) with (String c (s +:+ rest)). simpl.
  destruct (code c =? 48); [by intros [= <- <-]|].
  destruct (is_digit c); [|done].
  destruct (span_digits s) as [ds r'] eqn:E. intros [= <- <-] Hd.
  by rewrite (span_digits_app _ _ _ _ E Hd).
Qed.

Lemma lex_frac_other (c : ascii) (s : string) :
  c ≠ "."%char → lex_frac (String c s) = Some ("", String c s).
Proof.
  intros Hc. destruct c as [[] [] [] [] [] [] [] []]; try reflexivity.
  by destruct Hc.
Qed.

Lemma lex_frac_app (s f r rest : string) :
  lex_frac s = Some (f, r) → delimited rest →
  lex_frac (s +:+ rest) = Some (f, r +:+ rest).
Proof.
  destruct s as [|c s].
  - intros [= <- <-] Hd. destruct rest as [|c rest]; [done|].
    apply delimited_code in Hd as (_ & _ & Hdot & _). by apply lex_frac_other.
  - change (String c s +:+ rest) with (String c (s +:+ rest)).
    destruct (decide (c = "."%char)) as [->|Hc].
    + cbn [lex_frac]. destruct (lex_digits1 s) as [[ds r']|] eqn:E; [|done].
      intros [= <- <-] Hd. by rewrite (lex_digits1_app _ _ _ _ E Hd).
    + rewrite !lex_frac_other by done. by intros [= <- <-].
Qed.

Lemma lex_exp_app (s e r rest : string) :
  lex_exp s = Some (e, r) → delimited rest →
  lex_exp (s +:+ rest) = Some (e, r +:+ rest).
Proof.
  destruct s as [|c s].
  - intros [= <- <-] Hd. destruct rest as [|c rest]; [done|].
    apply delimited_code in Hd as (_ & _ & _ & He).
    change ("" +:+ String c rest) with (String c rest).
    unfold lex_exp. by rewrite He.
  - change (String c s +:+ rest) with (String c (s +:+ rest)). unfold lex_exp.
    destruct (_ || _); [|by intros [= <- <-]].
    destruct s as [|sg s].
    + intros H. vm_compute in H. discriminate H.
    + change (String sg s +:+ rest) with (String sg (s +:+ rest)).
      destruct ((code sg =? 43) || (code sg =? 45)) eqn:Esg.
      * destruct (lex_digits1 s) as [[ds r2]|] eqn:E; [|done].
        intros [= <- <-] Hd. cbv beta iota zeta. rewrite Esg.
        by rewrite (lex_digits1_app _ _ _ _ E Hd).
      * destruct (lex_digits1 (String sg s)) as [[ds r2]|] eqn:E; [|done].
        intros [= <- <-] Hd. cbv beta iota zeta. rewrite Esg.
        change (String sg (s +:+ rest)) with (String sg s +:+ rest).
        by rewrite (lex_digits1_app _ _ _ _ E Hd).
Qed.

Lemma number_sign_other (c : ascii) (s : string) :
  c ≠ "-"%char →
  match String c s with
  | String "-"%char r => ("-", r)
  | _ => ("", String c s)
  end = ("", String c s).
Proof.
  intros Hc. destruct c as [[] [] [] [] [] [] [] []]; try reflexivity.
  by destruct Hc.
Qed.

Lemma lex_number_tail (s1 i f e s2 s3 s4 rest : string) :
  lex_int s1 = Some (i, s2) → lex_frac s2 = Some (f, s3) →
  lex_exp s3 = Some (e, s4) → delimited rest →
  lex_int (s1 +:+ rest) = Some (i, s2 +:+ rest)
  ∧ lex_frac (s2 +:+ rest) = Some (f, s3 +:+ rest)
  ∧ lex_exp (s3 +:+ rest) = Some (e, s4 +:+ rest).
Proof.
  intros H1 H2 H3 Hd. split_and!.
  - by apply lex_int_app.
  - by apply lex_frac_app.
  - by apply lex_exp_app.
Qed.

Lemma lex_number_app (s lit r rest : string) :
  lex_number s = Some (lit, r) → delimited rest →
  lex_number (s +:+ rest) = Some (lit, r +:+ rest).
Proof.
  destruct s as [|c s]; [done|].
  change (String c s +:+ rest) with (String c (s +:+ rest)).
  unfold lex_number. destruct (decide (c = "-"%char)) as [->|Hc].
  - destruct (lex_int s) as [[i s2]|] eqn:E1; [|done].
    destruct (lex_frac s2) as [[f s3]|] eqn:E2; [|done].
    destruct (lex_exp s3) as [[e s4]|] eqn:E3; [|done].
    intros [= <- <-] Hd.
    destruct (lex_number_tail _ _ _ _ _ _ _ _ E1 E2 E3 Hd) as (H1 & H2 & H3).
    cbv beta iota zeta. rewrite H1. cbv beta iota zeta. rewrite H2.
    cbv beta iota zeta. by rewrite H3.
  - rewrite !number_sign_other by done.
    destruct (lex_int (String c s)) as [[i s2]|] eqn:E1; [|done].
    destruct (lex_frac s2) as [[f s3]|] eqn:E2; [|done].
    destruct (lex_exp s3) as [[e s4]|] eqn:E3; [|done].
    intros [= <- <-] Hd.
    destruct (lex_number_tail _ _ _ _ _ _ _ _ E1 E2 E3 Hd) as (H1 & H2 & H3).
    change (String c (s +:+ rest)) with (String c s +:+ rest).
    rewrite H1. cbv beta iota zeta. rewrite H2.
    cbv beta iota zeta. by rewrite H3.
Qed.

(** A number literal starts with a minus sign or a digit. *)
Lemma lex_number_head (c : ascii) (s lit r : string) :
  lex_number (String c s) = Some (lit, r) → c = "-"%char ∨ is_digit c = true.
Proof.
  destruct (decide (c = "-"%char)) as [->|Hc]; [by left|]. right.
  revert H. unfold lex_number. rewrite number_sign_other by done.
  cbn [lex_int]. unfold is_digit.
  destruct (code c =? 48) eqn:E; [by apply Nat.eqb_eq in E as ->|].
  fold (is_digit c). by destruct (is_digit c).
Qed.

(** *** One step of the parser *)

Lemma parse_open_bracket (f : nat) (r : string) :
  parse (S f) MValue (String "["%char r)
  = match skip_ws r with
    | String c' r' =>
        if code c' =? 93 then POk (JArray []) r'
        else parse f (MElements []) r
    | EmptyString => PSyntaxError
    end.
Proof. reflexivity. Qed.

Lemma parse_open_brace (f : nat) (r : string) :
  parse (S f) MValue (String "{"%char r)
  = match skip_ws r with
    | String c' r' =>
        if code c' =? 125 then POk (JObject []) r'
        else parse f (MMembers []) r
    | EmptyString => PSyntaxError
    end.
Proof. reflexivity. Qed.

Lemma parse_quote (f : nat) (r : string) :
  parse (S f) MValue (chr 34 +:+ r)
  = match lex_string r with
    | Some (str, rest) => POk (JString str) rest
    | None => PSyntaxError
    end.
Proof. reflexivity. Qed.

Lemma parse_number (f : nat) (c : ascii) (r : string) :
  c = "-"%char ∨ is_digit c = true →
  parse (S f) MValue (String c r)
  = match lex_number (String c r) with
    | Some (lit, rest) => POk (JNumber lit) rest
    | None => PSyntaxError
    end.
Proof.
  intros [-> | Hd]; [reflexivity|].
  destruct c as [[] [] [] [] [] [] [] []]; try discriminate Hd; reflexivity.
Qed.

Lemma parse_elements (f : nat) (acc : list json) (s : string) :
  parse (S f) (MElements acc) s
  = match parse f MValue s with
    | POk v r =>
        match skip_ws r with
        | String c r' =>
            if code c =? 44 then parse f (MElements (v :: acc)) r'
            else if code c =? 93 then POk (JArray (rev (v :: acc))) r'
            else PSyntaxError
        | EmptyString => PSyntaxError
        end
    | e => e
    end.
Proof. reflexivity. Qed.

Lemma parse_members (f : nat) (acc : list (string * json)) (r : string) :
  parse (S f) (MMembers acc) (chr 34 +:+ r)
  = match lex_string r with
    | Some (key, r1) =>
        match skip_ws r1 with
        | String colon r2 =>
            if code colon =? 58 then
              match parse f MValue r2 with
              | POk v r3 =>
                  match skip_ws r3 with
                  | String c r4 =>
                      if code c =? 44
                      then parse f (MMembers ((key, v) :: acc)) r4
                      else if code c =? 125
                      then POk (JObject (rev ((key, v) :: acc))) r4
                      else PSyntaxError
                  | EmptyString => PSyntaxError
                  end
              | e => e
              end
            else PSyntaxError
        | EmptyString => PSyntaxError
        end
    | None => PSyntaxError
    end.
Proof. reflexivity. Qed.

Lemma skip_ws_start (c : ascii) (r : string) :
  is_ws c = false → skip_ws (String c r) = String c r.
Proof. intros H. simpl. by rewrite H. Qed.

(** *** Well-formed values *)

Lemma wf_array (items : list json) :
  wf_json (JArray items) ↔ Forall wf_json items.
Proof.
  induction items as [|x items IH]; [by split; [constructor|]|].
  change (wf_json (JArray (x :: items)))
    with (wf_json x ∧ wf_json (JArray items)).
  rewrite IH, Forall_cons. done.
Qed.

Lemma wf_object (members : list (string * json)) :
  wf_json (JObject members) ↔ Forall (fun kv => wf_json kv.2) members.
Proof.
  induction members as [|kv members IH]; [by split; [constructor|]|].
  change (wf_json (JObject (kv :: members)))
    with (wf_json kv.2 ∧ wf_json (JObject members)).
  rewrite IH, Forall_cons. done.
Qed.

Lemma size_array (x : json) (items : list json) :
  json_size (JArray (x :: items)) = json_size x + json_size (JArray items).
Proof. simpl. lia. Qed.

Lemma size_object (kv : string * json) (members : list (string * json)) :
  json_size (JObject (kv :: members))
  = json_size kv.2 + json_size (JObject members).
Proof. simpl. lia. Qed.

Lemma json_size_pos (v : json) : 0 < json_size v.
Proof. destruct v; simpl; lia. Qed.

(** What [JSON.stringify] writes starts with a character that is
    neither white space nor a closing bracket or brace. *)
Lemma stringify_start (v : json) :
  wf_json v →
  ∃ c s, JSON_stringify v = String c s
         ∧ is_ws c = false ∧ (code c =? 93) = false ∧ (code c =? 125) = false.
Proof.
  destruct v as [|[]|lit|str|items|members]; intros Hwf;
    try (by eexists _, _; split; [reflexivity|]).
  destruct lit as [|c lit]; [done|].
  exists c, lit. split; [done|].
  destruct (lex_number_head _ _ _ _ Hwf) as [-> | Hd]; [done|].
  unfold is_digit in Hd. apply andb_prop in Hd as [H1%Nat.leb_le H2%Nat.leb_le].
  unfold is_ws. split_and!.
  - repeat (apply orb_false_intro); apply Nat.eqb_neq; lia.
  - apply Nat.eqb_neq; lia.
  - apply Nat.eqb_neq; lia.
Qed.

Lemma app_cons (c : ascii) (a b : string) :
  String c a +:+ b = String c (a +:+ b).
Proof. reflexivity. Qed.

Lemma join_head (sep x : string) (l : list string) :
  ∃ t, join sep (x :: l) = x +:+ t.
Proof.
  destruct l as [|y l]; [exists ""; by rewrite append_nil_r|].
  by exists (sep +:+ join sep (y :: l)).
Qed.

Lemma join_cons_ne (sep x : string) (l : list string) :
  l ≠ [] → join sep (x :: l) = x +:+ sep +:+ join sep l.
Proof. by destruct l. Qed.

Lemma skip_ws_stringify (v : json) (t : string) :
  wf_json v →
  ∃ c s, skip_ws (JSON_stringify v +:+ t) = String c s
         ∧ (code c =? 93) = false ∧ (code c =? 125) = false.
Proof.
  intros (c & s & -> & Hws & H1 & H2)%stringify_start.
  exists c, (s +:+ t). by rewrite app_cons, skip_ws_start.
Qed.

Lemma size_items (n : nat) (items : list json) :
  json_size (JArray items) ≤ S n → Forall (fun x => json_size x ≤ n) items.
Proof.
  induction items as [|x items IH]; [constructor|].
  rewrite size_array. intros Hle. pose proof (json_size_pos x).
  pose proof (json_size_pos (JArray items)).
  constructor; [lia|]. apply IH. lia.
Qed.

Lemma size_members (n : nat) (members : list (string * json)) :
  json_size (JObject members) ≤ S n →
  Forall (fun kv => json_size kv.2 ≤ n) members.
Proof.
  induction members as [|kv members IH]; [constructor|].
  rewrite size_object. intros Hle. pose proof (json_size_pos kv.2).
  pose proof (json_size_pos (JObject members)).
  constructor; [lia|]. apply IH. lia.
Qed.

(** *** Reading back what was written *)

Local Ltac len_norm :=
  repeat first [rewrite len_app | progress cbn [String.length chr parse_need]].

(** The elements of an array, once each of them is read back. *)
Lemma parse_stringify_elements (items : list json) :
  items ≠ [] →
  Forall (fun x => ∀ rest fuel, delimited rest →
            parse_need MValue (JSON_stringify x +:+ rest) ≤ fuel →
            parse fuel MValue (JSON_stringify x +:+ rest) = POk x rest) items →
  ∀ acc rest fuel,
    parse_need (MElements acc)
      (join "," (JSON_stringify <$> items) +:+ String "]"%char rest) ≤ fuel →
    parse fuel (MElements acc)
      (join "," (JSON_stringify <$> items) +:+ String "]"%char rest)
    = POk (JArray (rev acc ++ items)) rest.
Proof.
  induction items as [|x items IH]; [done|].
  intros _ [Hx Hall]%Forall_cons acc rest fuel.
  rewrite fmap_cons.
  destruct fuel as [|fuel]; [intros Hfuel; simpl in Hfuel; lia|].
  rewrite parse_elements. destruct (decide (items = [])) as [-> | Hne].
  - cbn [fmap list_fmap join]. intros Hfuel.
    rewrite Hx; [| by right; left | simpl in *; lia].
    by rewrite skip_ws_start.
  - rewrite join_cons_ne by (by destruct items).
    rewrite !string_app_assoc, app_cons.
    change ("" +:+ ?t) with t.
    len_norm. intros Hfuel.
    rewrite Hx; [| by left | len_norm; lia].
    rewrite skip_ws_start by done.
    change (code ","%char =? 44) with true. cbv iota.
    rewrite (IH Hne Hall (x :: acc) rest fuel).
    + cbn [rev]. by rewrite <- app_assoc.
    + len_norm. lia.
Qed.

(** The members of an object, once the value of each is read back. *)
Lemma parse_stringify_members (members : list (string * json)) :
  members ≠ [] →
  Forall (fun kv => ∀ rest fuel, delimited rest →
            parse_need MValue (JSON_stringify kv.2 +:+ rest) ≤ fuel →
            parse fuel MValue (JSON_stringify kv.2 +:+ rest) = POk kv.2 rest)
         members →
  ∀ acc rest fuel,
    parse_need (MMembers acc)
      (join "," ((fun kv => quote kv.1 +:+ ":" +:+ JSON_stringify kv.2)
                   <$> members) +:+ String "}"%char rest) ≤ fuel →
    parse fuel (MMembers acc)
      (join "," ((fun kv => quote kv.1 +:+ ":" +:+ JSON_stringify kv.2)
                   <$> members) +:+ String "}"%char rest)
    = POk (JObject (rev acc ++ members)) rest.
Proof.
  induction members as [|[k v] members IH]; [done|].
  intros _ [Hv Hall]%Forall_cons acc rest fuel.
  rewrite fmap_cons. cbn [fst snd] in Hv |- *.
  destruct fuel as [|fuel]; [intros Hfuel; simpl in Hfuel; lia|].
  unfold quote at 1 3.
  destruct (decide (members = [])) as [-> | Hne].
  - cbn [fmap list_fmap join].
    rewrite !string_app_assoc, parse_members, lex_string_quote_body.
    rewrite app_cons, skip_ws_start by done.
    change (code ":"%char =? 58) with true. cbv iota.
    change ("" +:+ ?t) with t.
    len_norm. intros Hfuel.
    rewrite Hv; [| by right; right | len_norm; lia].
    by rewrite skip_ws_start.
  - rewrite join_cons_ne by (by destruct members).
    rewrite !string_app_assoc, parse_members, lex_string_quote_body.
    rewrite app_cons, skip_ws_start by done.
    change (code ":"%char =? 58) with true. cbv iota.
    rewrite app_cons.
    change ("" +:+ ?t) with t.
    len_norm. intros Hfuel.
    rewrite Hv; [| by left | len_norm; lia].
    rewrite skip_ws_start by done.
    change (code ","%char =? 44) with true. cbv iota.
    change ("" +:+ ?t) with t in *.
    rewrite (IH Hne Hall ((k, v) :: acc) rest fuel).
    + cbn [rev]. by rewrite <- app_assoc.
    + len_norm. lia.
Qed.

(** A written value is read back, whatever delimiter follows it. *)
Lemma parse_stringify (n : nat) (v : json) :
  json_size v ≤ n → wf_json v →
  ∀ rest fuel, delimited rest →
    parse_need MValue (JSON_stringify v +:+ rest) ≤ fuel →
    parse fuel MValue (JSON_stringify v +:+ rest) = POk v rest.
Proof.
  revert v. induction n as [|n IH]; intros v Hsize Hwf rest fuel Hd Hfuel.
  { pose proof (json_size_pos v). lia. }
  destruct fuel as [|fuel]; [simpl in Hfuel; lia|].
  destruct v as [|[]|lit|str|items|members]; try reflexivity.
  - destruct lit as [|c lit]; [by vm_compute in Hwf|].
    cbn [JSON_stringify]. rewrite app_cons.
    rewrite parse_number by (by eapply lex_number_head).
    rewrite <- app_cons. by rewrite (lex_number_app _ _ _ _ Hwf Hd).
  - cbn [JSON_stringify]. unfold quote. rewrite !string_app_assoc.
    by rewrite parse_quote, lex_string_quote_body.
  - destruct (decide (items = [])) as [-> | Hne]; [reflexivity|].
    revert Hfuel. cbn [JSON_stringify].
    change (map ?f ?l) with (f <$> l).
    rewrite !string_app_assoc, app_cons.
    change ("" +:+ ?t) with t. change ("]" +:+ rest) with (String "]"%char rest).
    len_norm. intros Hfuel. rewrite parse_open_bracket.
    apply wf_array in Hwf. apply size_items in Hsize.
    destruct items as [|x items]; [done|]. rewrite fmap_cons.
    destruct (join_head "," (JSON_stringify x) (JSON_stringify <$> items))
      as [t Ht].
    destruct (skip_ws_stringify x (t +:+ String "]"%char rest))
      as (c & r & Hskip & Hc & _); [by inversion Hwf|].
    rewrite Ht at 1. rewrite string_app_assoc, Hskip, Hc.
    rewrite <- fmap_cons. apply (parse_stringify_elements _ Hne).
    + apply Forall_forall. intros y Hy rest' fuel'.
      rewrite Forall_forall in Hwf, Hsize. apply IH; auto.
    + len_norm. lia.
  - destruct (decide (members = [])) as [-> | Hne]; [reflexivity|].
    revert Hfuel. cbn [JSON_stringify].
    change (map ?f ?l) with (f <$> l).
    rewrite !string_app_assoc, app_cons.
    change ("" +:+ ?t) with t. change ("}" +:+ rest) with (String "}"%char rest).
    len_norm. intros Hfuel. rewrite parse_open_brace.
    apply wf_object in Hwf. apply size_members in Hsize.
    destruct members as [|kv members]; [done|]. rewrite fmap_cons.
    destruct (join_head "," (quote kv.1 +:+ ":" +:+ JSON_stringify kv.2)
                ((fun kv => quote kv.1 +:+ ":" +:+ JSON_stringify kv.2)
                   <$> members)) as [t Ht].
    rewrite Ht at 1. unfold quote at 1. rewrite !string_app_assoc.
    change (skip_ws (chr 34 +:+ ?r)) with (String (ascii_of_nat 34) r).
    cbv beta iota. change (code (ascii_of_nat 34) =? 125) with false.
    cbv iota.
    rewrite <- (fmap_cons (fun kv => quote kv.1 +:+ ":" +:+ JSON_stringify kv.2)).
    apply (parse_stringify_members _ Hne).
    + apply Forall_forall. intros y Hy rest' fuel'.
      rewrite Forall_forall in Hwf, Hsize. apply IH; auto.
    + len_norm. lia.
Qed.

(** [JSON.parse(JSON.stringify(v))] gives [v] back. *)
Lemma JSON_parse_stringify (v : json) :
  wf_json v → JSON_parse (JSON_stringify v) = Some v.
Proof.
  intros Hwf. unfold JSON_parse.
  pose proof (parse_stringify (json_size v) v (le_n _) Hwf ""
                (parse_fuel (JSON_stringify v)) I) as H.
  rewrite append_nil_r in H. rewrite H; [done|].
  unfold parse_fuel. cbn [parse_need]. lia.
Qed.

(** [JSON.stringify] never writes the empty string. *)
Lemma stringify_truthy (v : json) :
  wf_json v → truthy (JSON_stringify v) = true.
Proof. by intros (c & s & -> & _)%stringify_start. Qed.

End json_round_trip.

(** ** A function call sent and read back *)

Section call_round_trip.

Implicit Types (clk : Clock) (fc : FunctionCall) (fcs : list FunctionCall).

Lemma stringifyOrEmpty_args fc :
  stringifyOrEmpty (fc_args fc) = JSON_stringify (argsOrEmpty fc).
Proof.
  unfold stringifyOrEmpty, argsOrEmpty.
  destruct (fc_args fc) as [v|]; [by destruct (json_truthy v)|done].
Qed.

Lemma mapToolCalls_cons clk index fc fcs :
  (mapToolCalls clk index (fc :: fcs)).1
  = {| tc_id := "call_" +:+ pretty (clk 0) +:+ "_" +:+ pretty index;
       tc_function := {| fn_name := fc_name fc;
                         fn_arguments := stringifyOrEmpty (fc_args fc) |} |}
    :: (mapToolCalls (fun n => clk (S n)) (S index) fcs).1.
Proof.
  cbn [mapToolCalls Date_now].
  by destruct (mapToolCalls (fun n => clk (S n)) (S index) fcs).
Qed.

Lemma pushToolCalls_echo_cons (parts : list Part) (tc : OpenAIToolCall)
    (rest : list ChatCompletionMessageToolCall) :
  pushToolCalls parts (echoToolCall tc :: rest)
  = match JSON_parse (if truthy (fn_arguments (tc_function tc))
                      then fn_arguments (tc_function tc) else "{}") with
    | Some args =>
        pushToolCalls
          (parts ++ [functionCallPart (fn_name (tc_function tc)) args]) rest
    | None => Throw SyntaxError
    end.
Proof. reflexivity. Qed.

Lemma pushToolCalls_echo clk index fcs (parts : list Part) :
  Forall wfCall fcs →
  pushToolCalls parts (echoToolCall <$> (mapToolCalls clk index fcs).1)
  = Ok (parts ++ (readBack <$> fcs)).
Proof.
  intros Hwf. revert clk index parts.
  induction Hwf as [|fc fcs Hfc _ IH]; intros clk index parts.
  { cbn. by rewrite app_nil_r. }
  rewrite mapToolCalls_cons, fmap_cons, pushToolCalls_echo_cons.
  cbn [tc_function fn_name fn_arguments].
  rewrite stringifyOrEmpty_args, (stringify_truthy _ Hfc).
  rewrite (JSON_parse_stringify _ Hfc), IH.
  by rewrite <- app_assoc.
Qed.

Lemma omap_callOf fcs :
  omap text (callOf <$> fcs) = []
  ∧ omap functionCall (callOf <$> fcs) = fcs
  ∧ omap functionResponse (callOf <$> fcs) = [].
Proof.
  induction fcs as [|fc fcs (H1 & H2 & H3)]; [done|].
  rewrite fmap_cons. cbn [omap list_omap callOf text functionCall
                          functionResponse].
  fold (omap text (callOf <$> fcs)). fold (omap functionCall (callOf <$> fcs)).
  fold (omap functionResponse (callOf <$> fcs)).
  by rewrite H1, H2, H3.
Qed.

Lemma convertContent_calls clk fcs :
  fcs ≠ [] →
  (convertContent clk (turn "model" (callOf <$> fcs))).1
  = [{| role := assistant; content := None;
        tool_calls := Some (mapToolCalls clk 0 fcs).1;
        tool_call_id := None |}].
Proof.
  intros Hne. unfold convertContent, turn. cbn [c_role c_parts default].
  unfold id. destruct (omap_callOf fcs) as (-> & -> & ->).
  rewrite (bool_decide_true (0 < length fcs))
    by (destruct fcs; [done | cbn; lia]).
  change (bool_decide ("model" = "user") || bool_decide ("model" = "model"))
    with true.
  change (bool_decide ("model" = "model")) with true. cbv iota.
  by destruct (mapToolCalls clk 0 fcs).
Qed.

(** *** Plain values are well formed *)

Lemma code_eq (c : ascii) (n : nat) : code c = n → c = ascii_of_nat n.
Proof. intros <-. unfold code. by rewrite ascii_nat_embedding. Qed.

Lemma span_all_digits (s : string) :
  all_digits s = true → span_digits s = (s, EmptyString).
Proof.
  induction s as [|c s IH]; [done|]. cbn [all_digits span_digits].
  intros [Hc Hs]%andb_prop. by rewrite Hc, (IH Hs).
Qed.

Lemma plainNatural_lex (s : string) :
  plainNatural s = true → lex_int s = Some (s, EmptyString).
Proof.
  destruct s as [|c r]; [done|]. unfold plainNatural, lex_int.
  destruct (code c =? 48) eqn:E.
  - intros ->%String.eqb_eq. apply Nat.eqb_eq, code_eq in E. by subst c.
  - intros [[Hd Ha]%andb_prop _]%andb_prop.
    by rewrite Hd, (span_all_digits _ Ha).
Qed.

Lemma plainInteger_valid (lit : string) :
  plainInteger lit = true → validNumber lit.
Proof.
  unfold validNumber, plainInteger. destruct lit as [|c r]; [done|].
  destruct (code c =? 45) eqn:E.
  - apply Nat.eqb_eq, code_eq in E. subst c.
    intros [Hn _]%andb_prop. unfold lex_number.
    change (ascii_of_nat 45) with "-"%char. cbv beta iota.
    rewrite (plainNatural_lex _ Hn). cbn [lex_frac lex_exp].
    by rewrite !append_nil_r.
  - intros Hn. unfold lex_number.
    rewrite number_sign_other by (by intros ->).
    rewrite (plainNatural_lex _ Hn). cbn [lex_frac lex_exp].
    change (EmptyString +:+ ?t) with t. by rewrite !append_nil_r.
Qed.

Lemma plainJson_wf_size (n : nat) (v : json) :
  json_size v ≤ n → plainJson v = true → wf_json v.
Proof.
  revert v. induction n as [|n IH]; intros v Hsize Hp.
  { pose proof (json_size_pos v). lia. }
  destruct v as [|b|lit|str|items|members]; try done.
  - by apply plainInteger_valid.
  - apply wf_array, Forall_forall. intros x Hx.
    apply size_items in Hsize. rewrite Forall_forall in Hsize.
    change (forallb plainJson items = true) in Hp.
    rewrite forallb_forall in Hp.
    apply IH; [by apply Hsize | by apply Hp, list_elem_of_In].
  - apply wf_object, Forall_forall. intros kv Hkv.
    apply size_members in Hsize. rewrite Forall_forall in Hsize.
    change (forallb (fun kv => plainKey kv.1 && plainJson kv.2) members
            && bool_decide (NoDup (fst <$> members)) = true) in Hp.
    apply andb_prop in Hp as [Hp _]. rewrite forallb_forall in Hp.
    apply IH; [by apply Hsize|].
    by destruct (andb_prop _ _ (Hp kv (proj1 (list_elem_of_In _ _) Hkv))).
Qed.

Lemma plainCall_wf fc : plainCall fc → wfCall fc.
Proof.
  unfold plainCall, wfCall, argsOrEmpty.
  destruct (fc_args fc) as [v|]; [|done].
  destruct (json_truthy v); [|done]. by apply (plainJson_wf_size (json_size v)).
Qed.

End call_round_trip.

(** X24. A model turn made of function calls, sent as a request and
    handed back by the provider with the tool calls it was sent, is read
    back by [convertToGeminiFormat] as a model content with one part per
    call, in the same order, under the same name and with the same
    arguments; a call that had no arguments, or falsy ones, comes back
    with the empty object.  The arguments are plain values: their
    numbers are integers of at most fifteen digits written without a
    leading zero, exponent or fraction, and the keys of each object are
    distinct and none is an array index, so that JavaScript writes them
    and reads them back as the model does. *)
Theorem function_call_round_trip (clk : Clock)
    (request : GenerateContentParameters) (model : string)
    (fcs : list FunctionCall) :
  contentsOf request = [turn "model" (callOf <$> fcs)] →
  fcs ≠ [] →
  Forall plainCall fcs →
  ∃ m, messages (convertGeminiParametersToOpenAI clk request model).1 = [m]
       ∧ role m = assistant
       ∧ convertToGeminiFormat (echo m)
         = Ok {| candidates :=
                   [{| cand_content := modelContent (readBack <$> fcs);
                       finishReason := Some STOP |}];
                 usageMetadata := None |}.
Proof.
  intros Hc Hne Hplain.
  assert (Forall wfCall fcs) as Hwf.
  { eapply Forall_impl; [exact Hplain|]. apply plainCall_wf. }
  eexists. split; [|split].
  - unfold convertGeminiParametersToOpenAI. unfold contentsOf in Hc.
    rewrite Hc. cbn [convertContents].
    pose proof (convertContent_calls clk fcs Hne) as H.
    destruct (convertContent clk (turn "model" (callOf <$> fcs)))
      as [pushed clk1].
    cbn [fst] in H. subst pushed. cbn [app fst messages]. reflexivity.
  - reflexivity.
  - unfold convertToGeminiFormat, echo, convertChoice.
    cbn [choices message ccm_content ccm_tool_calls content tool_calls
         truthy_opt fmap option_fmap option_map usage finish_reason].
    change (map echoToolCall) with (fmap (M := list) echoToolCall).
    by rewrite (pushToolCalls_echo clk 0 fcs [] Hwf).
Qed.

Lemma function_call_round_trip_witness :
  ∃ m, messages (convertGeminiParametersToOpenAI (fun _ => 0%Z)
                   {| contents := One (turn "model" (callOf <$> plainCalls));
                      config := None |} "qwen3:14b").1 = [m]
       ∧ role m = assistant
       ∧ convertToGeminiFormat (echo m)
         = Ok {| candidates :=
                   [{| cand_content := modelContent (readBack <$> plainCalls);
                       finishReason := Some STOP |}];
                 usageMetadata := None |}.
Proof.
  apply function_call_round_trip.
  - reflexivity.
  - discriminate.
  - repeat (apply Forall_cons; split); [vm_compute; reflexivity | exact I |].
    apply Forall_nil_2.
Defined.

(** ** What the request carries is JSON *)

Section outbound_json.

Implicit Types (clk : Clock) (m : OpenAIMessage) (tc : OpenAIToolCall).

Lemma stringifyOrEmpty_response (fr : FunctionResponse) :
  stringifyOrEmpty (fr_response fr) = JSON_stringify (responseOrEmpty fr).
Proof.
  unfold stringifyOrEmpty, responseOrEmpty.
  destruct (fr_response fr) as [v|]; [by destruct (json_truthy v)|done].
Qed.

Lemma mapToolCalls_arguments clk (index : nat) (fcs : list FunctionCall) tc :
  tc ∈ (mapToolCalls clk index fcs).1 →
  ∃ fc, fc ∈ fcs
        ∧ fn_arguments (tc_function tc) = stringifyOrEmpty (fc_args fc).
Proof.
  revert clk index. induction fcs as [|fc fcs IH]; intros clk index.
  { by inversion 1. }
  rewrite mapToolCalls_cons.
  intros [-> | (fc' & Hfc & Hargs)%IH]%elem_of_cons.
  - exists fc. split; [left|done].
  - exists fc'. split; [by right|done].
Qed.

Lemma convertContent_json clk (entry : ContentUnion) m :
  wfContent entry →
  m ∈ (convertContent clk entry).1 →
  (∀ tcs tc, tool_calls m = Some tcs → tc ∈ tcs →
             validJSON (fn_arguments (tc_function tc)))
  ∧ (role m = tool → ∃ s, content m = Some s ∧ validJSON s).
Proof.
  intros Hwf. destruct (translated entry) eqn:Ht;
    [|rewrite convertContent_skipped by done; by inversion 1].
  destruct entry as [c| |]; [|done..].
  destruct (convertContent_translated clk c Ht)
    as (r & ps & Hr & Hp & Hrole & ->).
  unfold wfContent in Hwf. rewrite Hp in Hwf. cbn [default] in Hwf.
  rewrite Forall_forall in Hwf.
  cbn [fst]. rewrite !elem_of_app. intros [Hm|[Hm|Hm]].
  - destruct (truthy _); [|by inversion Hm].
    apply list_elem_of_singleton in Hm as ->. split; [done|].
    cbn [role]. by case_bool_decide.
  - destruct (bool_decide _); [|by inversion Hm].
    apply list_elem_of_singleton in Hm as ->. split; [|done].
    intros tcs tc [= <-] (fc & Hfc & ->)%mapToolCalls_arguments.
    apply list_elem_of_omap in Hfc as (p & Hp' & Hfc).
    destruct (Hwf p Hp') as [Hcall _].
    rewrite stringifyOrEmpty_args. unfold validJSON.
    by rewrite JSON_parse_stringify; [eexists | apply Hcall].
  - apply list_elem_of_fmap in Hm as (fr & -> & Hfr).
    apply list_elem_of_omap in Hfr as (p & Hp' & Hfr).
    destruct (Hwf p Hp') as [_ Hresp].
    split; [done|]. intros _. eexists. split; [reflexivity|].
    rewrite stringifyOrEmpty_response. unfold validJSON.
    by rewrite JSON_parse_stringify; [eexists | apply Hresp].
Qed.

Lemma convertContents_json clk (l : list ContentUnion) m :
  Forall wfContent l →
  m ∈ (convertContents clk [] l).1 →
  (∀ tcs tc, tool_calls m = Some tcs → tc ∈ tcs →
             validJSON (fn_arguments (tc_function tc)))
  ∧ (role m = tool → ∃ s, content m = Some s ∧ validJSON s).
Proof.
  intros Hwf. revert clk.
  induction Hwf as [|entry l Hc _ IH]; intros clk; [by inversion 1|].
  rewrite convertContents_cons. cbn [fst].
  intros [Hm | Hm]%elem_of_app; [by eapply convertContent_json | by eapply IH].
Qed.

End outbound_json.

(** X25. What a request carries as JSON text parses: the arguments of
    every tool call and the content of every tool message of the request
    are accepted by [JSON.parse], whenever the arguments and responses of
    the function calls and function responses of the contents are JSON
    values whose number literals are valid. *)
Theorem outbound_payloads_parse (clk : Clock)
    (request : GenerateContentParameters) (model : string) (m : OpenAIMessage) :
  Forall wfContent (contentsOf request) →
  m ∈ messages (convertGeminiParametersToOpenAI clk request model).1 →
  (∀ tcs tc, tool_calls m = Some tcs → tc ∈ tcs →
             validJSON (fn_arguments (tc_function tc)))
  ∧ (role m = tool → ∃ s, content m = Some s ∧ validJSON s).
Proof. rewrite messages_convert. apply convertContents_json. Qed.

Lemma outbound_payloads_parse_witness :
  ∃ m, role m = tool ∧ ∃ s, content m = Some s ∧ validJSON s.
Proof.
  pose (request := {| contents := Many [turn "model" (callOf <$> sampleCalls);
                                        turn "user" sampleResponses];
                      config := None |}).
  pose (m := {| role := tool; content := Some "{}"; tool_calls := None;
                tool_call_id := Some "call_unknown" |}).
  exists m. split; [reflexivity|].
  apply (outbound_payloads_parse (fun _ => 0%Z) request "qwen3:14b" m).
  - repeat (apply Forall_cons; split); try apply Forall_nil_2;
      split; intros ? [= <-]; vm_compute; tauto.
  - vm_compute. do 2 right. left.
  - reflexivity.
Defined.
